(* ===== verification/_CoqProject ===== *)
-Q . S2P
Prelude.v
Strconv.v
Value.v
Arch.v
Wire.v
RBuffer.v
ReadWire.v
WBuffer.v
Encoder.v
Decoder.v
Header.v
Codec.v
Progress.v
Session.v
Fixtures.v
