(* ===== verification/Prelude.v ===== *)
(** * A verification library for boostio's text archive codec (txtser)

    [txtser] writes and reads Boost.Serialization text archives: a stream
    is the magic signature ["serialization::archive"] as a string token,
    a header (library version and flags), then one value after another,
    each number as its decimal text and one space, each string as its
    length, its bytes and one space, and each struct, slice, array or map
    as its type descriptor (at the type's first occurrence in the stream
    only), its length, reserved fields and its elements.  Four parts
    interact: the primitive writer and reader ([WBuffer], [RBuffer]) own
    the stream, the sticky error slot and the registry of types already
    described; the encoder and decoder ([Encoder], [Decoder]) walk a value
    by kind and drive them; the header is written once by the encoder's
    first [Encode] and read once by [NewDecoder]; types with their own
    [MarshalBoost]/[UnmarshalBoost] take over the writer or reader.

    ** Files and what they model
    - [Prelude]: bytes, the package's error values, the state-and-panic
      monad [prog S A := S -> option (A * S)] every stateful component is
      written in ([None] is a Go panic: a nil dereference or a negative
      [make]), Go's integer conversions ([wrapU]/[wrapS] at width [w]),
      the predicate [follows Q m] (every run of [m] moves the state along
      the preorder [Q]), and the shared automation (hint databases [boost]
      and [boost_rw], [psimpl], [run_step], [bool_hyps], [follows_tac]).
    - [Strconv]: Go's [strconv.ParseUint]/[ParseInt] (base 10, 64 bits,
      with their syntax and range errors) and [FormatUint]/[FormatInt];
      [ParseFloat]/[FormatFloat] are the class [FloatFormat] with the laws
      [FloatFormatLaws], and a decimal stand-in instance for the fixtures.
    - [Value]: reflect's kinds, types ([typ], the registry's keys) and
      values, zero values, typing ([type_of]) and decidable equality.
    - [Arch]: profiles, [Header], [TypeDescr], the registry (a [gmap]).
    - [Wire]: the archive format as a pure generator [wire a v], from the
      registry to bytes and the new registry: the specification the
      encoder refines and the decoder inverts; [codec_ok] says which
      values the codec supports.
    - [RBuffer]: [src/txtser/rbuffer.go], every method, over a
      [bytes.Reader] (the remaining bytes); [readUntilDelimiter] as the
      loop [delimLoop] on the remaining input; [Read] with the class
      [IOReader] and its law [IOReaderLaws], the [io.Reader] assertion of
      the file's last lines.
    - [ReadWire]: [reads m a g], the reader against the wire format, for
      any state that holds a reader (class [RView]).
    - [WBuffer]: the writer, modelled from the specification (its source
      is not staged), with a [bytes.Buffer] sink or a sink that fails
      every write.
    - [Encoder]: [src/txtser/encoder.go]: [newEncoder], [writeHeader]
      under its [sync.Once] flag, and [Encode] with its recursion over
      fields, elements and entries ([encodeAll], [encodeEntries]).
    - [Decoder]: the decoder, modelled from the specification as the
      mirror of [Encode] (its source is not staged): [NewDecoder],
      [Decode] by destination type, [DecodeValue] (what [dec.Decode]
      returns).
    - [Header]: the header bytes and [ReadHeader]'s error mapping.
    - [Codec]: sequences of [Encode] calls ([EncodeSeq]), the archive of a
      sequence, and the end-to-end theorems.
    - [Progress]: reads that consume input or latch an error ([advances],
      [stays]), lifted to the decoder through [onR].
    - [Session]: an encoder used for a whole archive, one [Encode] call
      after another, as the step relation [estep] closed under [rtc].
    - [Fixtures]: the tests' values and types ([typeTestCases], [animal],
      [manimal] with its own marshal methods, the archives of
      [TestInvalidArchive]) and the test runs, evaluated by [vm_compute];
      [TestRBufferReader], [TestWBufferWriter] and [TestEncoderError] are
      proved to pass for every input and every table of cases.

    ** What the theorems show
    - Refinement and round trip (Codec, Header): a fresh encoder writes
      exactly the archive [wire] describes ([Encode_stream]); the decoder
      reads every such archive back followed by any bytes
      ([Decode_stream]); together, what [Encode] writes [Decode] reads
      back in the 64-bit ([codec_roundtrip]) and the 32-bit profile
      ([codec_roundtrip32]); the header round trip ([header_roundtrip]).
      They rest on [Encoder.Encode_wire] and [Decoder.Decode_wire], proved
      by induction on the value against the interfaces [MarshalerLaws] and
      [UnmarshalerLaws], which [Fixtures] discharges for [manimal].
    - Liveness: a loop of [Decode] calls on a finite stream latches an
      error after at most one call more than there are bytes
      ([Decode_exhausts]).
    - Session (rule induction on [rtc]): on a sink that fails every
      write, the encoder reaches one state only, with the sink's error
      latched and nothing written, and every call returns that error
      ([failing_sink_session], the session form of the tests'
      [TestEncoderError]).
    - Errors: the sticky error slot ([run_rops_sticky],
      [run_rops_first_error], [Encode_sticky], [DecodeValue_sticky]); the
      header errors ([ReadHeader_truncated], [ReadHeader_mismatch]); the
      failing sink, unsupported kinds, array length mismatch and a
      string not followed by the delimiter ([ReadString_not_delimiter]).
    - The reader against reference definitions: the byte loop of
      [readUntilDelimiter] is the split at the first delimiter
      ([readUntilDelimiter_split]); [Read] keeps the [io.ReadFull]
      contract, with its error latched ([Read_contract]); a string cut
      short returns its declared length, zero-filled, with the end of
      stream latched ([ReadString_truncated]).
    - Token reads: the value of a digit token against the reference
      decimal value ([ReadU64_digits]), narrowing at each width ([ReadU_narrow],
      [ReadI_narrow]), and the behaviours listed as findings: a final
      token without delimiter is dropped ([ReadU64_final_token]), [ReadBool]
      tests a [uint8] ([ReadBool_token]), a length from [2^63] panics
      ([ReadString_negative_len]), [ReadTypeDescr] overwrites a latched
      error ([ReadTypeDescr_overwrites]) and so does [ReadHeader] on a nil
      reader ([ReadHeader_nil_overwrites]), the reader's profile is never
      set, so lengths are read at 64-bit width ([NewDecoder_arch]), an
      empty string leaves its last delimiter and breaks the next number
      read ([empty_string_stream]), a nested unsupported field is
      silently skipped ([Encode_unsupported_field]), and every source
      whose first byte is not a digit, as the binary archives of
      [TestInvalidArchive], is answered [ErrNotBoost]
      ([ReadHeader_not_digit]).

    ** Bounds and recursion
    Integers are [Z] with Go's wrap-around written out: a Go [int] is 64
    bits (a 64-bit host), so a length token is [int(uint64)] and wraps to
    a negative value from [2^63]; the 32-bit profile writes lengths as
    [uint32(n)].  The one definition with fuel is [Strconv.utoa], the
    digit loop of [FormatUint]: 20 rounds, enough for every [uint64]
    since [2^64 < 10^20] ([utoa_value], [ParseUint_FormatUint]).  The
    other loops are structural: the token loop on the remaining input, [Encode] and
    [Decode] on the value and the type, the element loops on the length
    read.

    ** Not modelled
    [reflect.Indirect] and pointers (values are given directly),
    unexported struct fields (the model's fields are all exported, so the
    panic of [rv.Field(i).Interface()] in [Encode], line 88, is not
    modelled and no theorem says that [Encode] never panics),
    [io.Reader]s other than [bytes.Reader], the float conversions of
    [strconv] (abstract), the tests that read [testdata] files, and the
    C++ compatibility harness (external processes). *)

From stdpp Require Export base list option strings gmap countable.
From Stdlib Require Export ZArith Lia.
From Stdlib Require String.
From Stdlib Require Strings.Byte.

(** Shared prelude: bytes and Go's delimiter, the error values of the
    package, the state-and-panic monad every stateful component is written
    in, Go's integer conversions, and the automation the components share. *)

Declare Scope boost_scope.
Delimit Scope boost_scope with boost.
Open Scope Z_scope.

Create HintDb boost.
Create Rewrite HintDb boost_rw.

(** ** Bytes *)

Abbreviation byte := Byte.byte.

#[export] Instance byte_eq_dec : EqDecision byte := Byte.byte_eq_dec.

(** A Go string literal as its bytes. *)
Definition bytes (s : string) : list byte := String.list_byte_of_string s.

(** The token delimiter of the text archive, the ASCII space. *)
Definition space : byte := Byte.x20.

Notation "'␣'" := space (at level 0) : boost_scope.

(** ** Error values

    The sentinel errors of the txtser package, the two [io] errors the
    reader produces, and [*strconv.NumError] (its [Func], its [Num] and
    whether it is a syntax or a range error). *)
Inductive num_err := NumSyntax | NumRange.

Inductive error :=
| ErrNotBoost
| ErrInvalidHeader
| ErrInvalidTypeDescr
| ErrInvalidArrayLen
| ErrTypeNotSupported
| ErrNotADelimiter
| EOF
| ErrUnexpectedEOF
| ErrNum (func : string) (num : list byte) (e : num_err).

#[export] Instance num_err_eq_dec : EqDecision num_err.
Proof. solve_decision. Defined.
#[export] Instance error_eq_dec : EqDecision error.
Proof. solve_decision. Defined.

(** ** The program monad

    A Go method on a buffer mutates the buffer and returns a value; a
    nil-pointer dereference or an out-of-range [make] panics.  A
    computation is a function from the state to [Some (result, state')],
    or [None] when the Go code panics. *)
Definition prog (S A : Type) : Type := S → option (A * S).

#[export] Instance prog_ret {S} : MRet (prog S) := λ A a s, Some (a, s).
#[export] Instance prog_bind {S} : MBind (prog S) := λ A B f m s,
  match m s with Some (a, s') => f a s' | None => None end.

#[export] Instance prog_fmap {S} : FMap (prog S) := λ A B f m, a ← m; mret (f a).

Definition get {S} : prog S S := λ s, Some (s, s).
Definition put {S} (s : S) : prog S unit := λ _, Some ((), s).
Definition modify {S} (f : S → S) : prog S unit := λ s, Some ((), f s).
Definition panic {S A} : prog S A := λ _, None.

(** Running a computation whose result is known. *)
Lemma bind_step {S A B} (m : prog S A) (f : A → prog S B) s a s' :
  m s = Some (a, s') → (m ≫= f) s = f a s'.
Proof. intros H. unfold mbind, prog_bind. by rewrite H. Qed.

Lemma fmap_step {S A B} (m : prog S A) (f : A → B) s a s' :
  m s = Some (a, s') → (f <$> m) s = Some (f a, s').
Proof. intros H. unfold fmap, prog_fmap. by rewrite (bind_step _ _ _ _ _ H). Qed.

Lemma bind_cong_head {S A B} (m m' : prog S A) (f : A → prog S B) s s' :
  m s = m' s' → (m ≫= f) s = (m' ≫= f) s'.
Proof. intros H. unfold mbind, prog_bind. by rewrite H. Qed.

Lemma bind_panic {S A B} (m : prog S A) (f : A → prog S B) s :
  m s = None → (m ≫= f) s = None.
Proof. intros H. unfold mbind, prog_bind. by rewrite H. Qed.

Lemma bind_Some {S A B} (m : prog S A) (f : A → prog S B) s b s'' :
  (m ≫= f) s = Some (b, s'') ↔ ∃ a s', m s = Some (a, s') ∧ f a s' = Some (b, s'').
Proof.
  unfold mbind, prog_bind. split.
  - destruct (m s) as [[a s']|]; [eauto | done].
  - intros (a & s' & -> & H). done.
Qed.

Lemma ret_run {S A} (a : A) (s : S) : (mret a : prog S A) s = Some (a, s).
Proof. reflexivity. Qed.

Lemma get_run {S} (s : S) : get s = Some (s, s).
Proof. reflexivity. Qed.

Lemma put_run {S} (s s0 : S) : put s s0 = Some ((), s).
Proof. reflexivity. Qed.

Lemma modify_run {S} (f : S → S) (s : S) : modify f s = Some ((), f s).
Proof. reflexivity. Qed.

Lemma bind_get {S B} (f : S → prog S B) s : (get ≫= f) s = f s s.
Proof. reflexivity. Qed.

Lemma bind_ret {S A B} (a : A) (f : A → prog S B) s : (mret a ≫= f) s = f a s.
Proof. reflexivity. Qed.

Lemma bind_put {S B} (s' : S) (f : unit → prog S B) s : (put s' ≫= f) s = f () s'.
Proof. reflexivity. Qed.

Lemma bind_modify {S B} (g : S → S) (f : unit → prog S B) s : (modify g ≫= f) s = f () (g s).
Proof. reflexivity. Qed.

Lemma bind_assoc {S A B C} (m : prog S A) (f : A → prog S B) (g : B → prog S C) s :
  ((m ≫= f) ≫= g) s = (m ≫= (λ a, f a ≫= g)) s.
Proof. unfold mbind, prog_bind. by destruct (m s) as [[]|]. Qed.

#[export] Hint Rewrite @ret_run @get_run @put_run @modify_run
  @bind_get @bind_ret @bind_put @bind_modify @bind_assoc : boost_rw.

(** [run_step H] rewrites the first step of a bind with a known result. *)
Ltac run_step H := rewrite (bind_step _ _ _ _ _ H).

(** Invert a bind that returned: [H : (m ≫= f) s = Some (b, s'')] becomes
    a run of [m] and [H] the run of [f] on its result. *)
Ltac bind_inv H := apply bind_Some in H as (? & ? & ?Hm & H); cbv beta in H.

(** Close [H : mret a s = Some (v, s')] by substituting [v] and [s']. *)
Ltac ret_inv H := rewrite ret_run in H; injection H as <- <-.

(** [estep L]: run the first step of a bind with lemma [L], whose
    hypotheses are left to [done]. *)
Ltac estep L := erewrite bind_step; [| eapply L; try done].

(** Run the state plumbing ([get], [put], [mret], binds) at the head of
    the goal. *)
Ltac psimpl := repeat (autorewrite with boost_rw; cbv beta).

(** Evaluate the monad's plumbing in the goal. *)
Ltac prog_simpl :=
  unfold mbind, prog_bind, mret, prog_ret, get, put, modify in *; simpl in *.

(** ** Computations that move the state along a preorder

    [follows Q m]: every run of [m] that returns ends in a state [Q]-after
    the one it started from.  With [Q] a preorder ([PreOrder]) this is
    closed under [mret], [get] and [≫=], so a component's invariant that
    only grows (an output that is only appended to, an input that only
    shrinks) is proved once for its primitives and then follows for every
    composite operation. *)
Definition follows {S A} (Q : relation S) (m : prog S A) : Prop :=
  ∀ s a s', m s = Some (a, s') → Q s s'.

Section follows.
Context {S : Type} (Q : relation S) `{!PreOrder Q}.

Lemma follows_ret {A} (a : A) : follows Q (mret a).
Proof. intros s b s' [= _ <-]. reflexivity. Qed.
Lemma follows_get : follows Q get.
Proof. intros s b s' [= _ <-]. reflexivity. Qed.
Lemma follows_panic {A} : follows Q (panic (A:=A)).
Proof. done. Qed.
Lemma follows_bind {A B} (m : prog S A) (k : A → prog S B) :
  follows Q m → (∀ a, follows Q (k a)) → follows Q (m ≫= k).
Proof. intros Hm Hk s b s' H. bind_inv H. etrans; [by eapply Hm | by eapply Hk]. Qed.
Lemma follows_fmap {A B} (f : A → B) (m : prog S A) : follows Q m → follows Q (f <$> m).
Proof. intros Hm. apply follows_bind; [done | intros; apply follows_ret]. Qed.

(** Runs chained by a relation that [Q] contains stay [Q]-related. *)
Lemma rtc_follows (step : relation S) : (∀ s s', step s s' → Q s s') → ∀ s s', rtc step s s' → Q s s'.
Proof. intros Hs s s' Hr. induction Hr as [|s1 s2 s3 H12 _ IH]; [reflexivity | etrans; eauto]. Qed.
End follows.

(** Prove [follows Q m] by walking the computation's binds and branches;
    the primitives are found in the hint database [boost]. *)
Ltac follows_tac :=
  repeat match goal with
  | |- PreOrder _ => typeclasses eauto
  | |- ∀ _, _ => intros ?
  | |- follows _ (_ ≫= _) => apply follows_bind
  | |- follows _ (_ <$> _) => apply follows_fmap
  | |- follows _ (mret _) => apply follows_ret
  | |- follows _ get => apply follows_get
  | |- follows _ panic => apply follows_panic
  | |- follows _ (match ?x with _ => _ end) => destruct x
  | H : ∀ _ _, follows _ _ |- follows _ _ => apply H
  | |- follows _ _ => solve [eauto with boost]
  end.

(** ** Go's integer conversions

    [wrapU w z] is Go's conversion to [uintw] ([z mod 2^w]); [wrapS w z] is
    the conversion to [intw] (two's complement).  [inU] and [inS] say that
    a value already has the width. *)
Definition wrapU (w z : Z) : Z := z mod 2 ^ w.
Definition wrapS (w z : Z) : Z := (z + 2 ^ (w - 1)) mod 2 ^ w - 2 ^ (w - 1).
Definition inU (w z : Z) : bool := (0 <=? z) && (z <? 2 ^ w).
Definition inS (w z : Z) : bool := (- 2 ^ (w - 1) <=? z) && (z <? 2 ^ (w - 1)).

Lemma inU_spec w z : inU w z = true ↔ 0 <= z < 2 ^ w.
Proof. unfold inU. rewrite andb_true_iff, Z.leb_le, Z.ltb_lt. done. Qed.

Lemma inS_spec w z : inS w z = true ↔ - 2 ^ (w - 1) <= z < 2 ^ (w - 1).
Proof. unfold inS. rewrite andb_true_iff, Z.leb_le, Z.ltb_lt. done. Qed.

Lemma wrapU_id w z : 0 <= z < 2 ^ w → wrapU w z = z.
Proof. intros. unfold wrapU. apply Z.mod_small. lia. Qed.

Lemma wrapU_range w z : 0 <= w → 0 <= wrapU w z < 2 ^ w.
Proof. intros. unfold wrapU. apply Z.mod_pos_bound. lia. Qed.

Lemma pow_pred_double w : 0 < w → 2 ^ w = 2 * 2 ^ (w - 1).
Proof.
  intros. replace w with (Z.succ (w - 1)) at 1 by lia.
  rewrite Z.pow_succ_r by lia. lia.
Qed.

Lemma wrapS_id w z : 0 < w → - 2 ^ (w - 1) <= z < 2 ^ (w - 1) → wrapS w z = z.
Proof.
  intros Hw Hz. unfold wrapS. rewrite (pow_pred_double w Hw).
  rewrite Z.mod_small; lia.
Qed.

Lemma wrapS_range w z : 0 < w → - 2 ^ (w - 1) <= wrapS w z < 2 ^ (w - 1).
Proof.
  intros Hw. unfold wrapS. rewrite (pow_pred_double w Hw).
  pose proof (Z.mod_pos_bound (z + 2 ^ (w - 1)) (2 * 2 ^ (w - 1))).
  assert (0 < 2 ^ (w - 1)) by (apply Z.pow_pos_nonneg; lia). lia.
Qed.

(** Narrowing twice is narrowing once to the smaller width. *)
Lemma wrapU_wrapU w1 w2 z :
  0 <= w1 <= w2 → wrapU w1 (wrapU w2 z) = wrapU w1 z.
Proof.
  intros Hw. unfold wrapU.
  replace (2 ^ w2) with (2 ^ w1 * 2 ^ (w2 - w1))
    by (rewrite <- Z.pow_add_r by lia; f_equal; lia).
  rewrite Z.rem_mul_r by (try apply Z.pow_nonzero; try apply Z.pow_pos_nonneg; lia).
  rewrite (Z.mul_comm (2 ^ w1)), Z.mod_add by (apply Z.pow_nonzero; lia).
  apply Z.mod_mod. apply Z.pow_nonzero; lia.
Qed.

Lemma wrapS_wrapU w1 w2 z :
  0 < w1 <= w2 → wrapS w1 (wrapU w2 z) = wrapS w1 z.
Proof.
  intros Hw. unfold wrapS.
  rewrite Zplus_mod, (Zplus_mod z).
  change ((wrapU w2 z) mod 2 ^ w1) with (wrapU w1 (wrapU w2 z)).
  rewrite wrapU_wrapU by lia. done.
Qed.

#[export] Hint Resolve wrapU_range wrapS_range : boost.

(** ** Lists of bytes *)

(** [no_space s] : the bytes contain no delimiter. *)
Definition no_space (s : list byte) : bool := forallb (λ b, bool_decide (b ≠ space)) s.

Lemma no_space_app s1 s2 : no_space (s1 ++ s2) = no_space s1 && no_space s2.
Proof. apply forallb_app. Qed.

#[export] Hint Rewrite no_space_app : boost_rw.

(** ** Boolean conditions *)
Lemma forallb_Forall {A} (f : A → bool) l : forallb f l = true ↔ Forall (λ x, f x = true) l.
Proof. rewrite forallb_forall, Forall_forall. done. Qed.

Lemma no_space_Forall s : no_space s = true ↔ Forall (λ b, b ≠ space) s.
Proof. unfold no_space. rewrite forallb_Forall. apply Forall_iff. intros b. apply bool_decide_eq_true. Qed.

Lemma Forall_impl2 {A} (P Q R : A → Prop) l :
  Forall P l → Forall Q l → (∀ x, P x → Q x → R x) → Forall R l.
Proof. rewrite !Forall_forall. naive_solver. Qed.

Lemma Forall_weaken {A} (P Q : A → Prop) l : Forall P l → (∀ x, P x → Q x) → Forall Q l.
Proof. rewrite !Forall_forall. naive_solver. Qed.

Lemma Forall_and_split {A} (P Q : A → Prop) l : Forall (λ x, P x ∧ Q x) l → Forall P l ∧ Forall Q l.
Proof. rewrite !Forall_forall. naive_solver. Qed.

(** Split boolean hypotheses ([&&], [bool_decide], [forallb]) into the
    propositions they test. *)
Ltac bool_hyps :=
  repeat match goal with
  | H : _ && _ = true |- _ => apply andb_true_iff in H as [? ?]
  | H : bool_decide _ = true |- _ => apply bool_decide_eq_true in H
  | H : forallb _ _ = true |- _ => apply forallb_Forall in H
  | H : negb _ = true |- _ => apply negb_true_iff in H
  end.

(** ** Decidable equality from an encoding with a left inverse *)
Lemma cancel_inj {A B} (f : A → B) (g : B → option A) :
  (∀ x, g (f x) = Some x) → ∀ x y, f x = f y → x = y.
Proof. intros H x y E. apply (inj Some). by rewrite <- H, E, H. Qed.

Definition inj_eq_dec {A B} `{EqDecision B} (f : A → B) (g : B → option A)
    (H : ∀ x, g (f x) = Some x) : EqDecision A := λ x y,
  match decide (f x = f y) with
  | left E => left (cancel_inj f g H x y E)
  | right E => right (λ e, E (f_equal f e))
  end.
