(* ===== verification/Strconv.v ===== *)
(** Go's [strconv] routines that the reader calls and the writer's decimal
    formatting: [ParseUint(s, 10, 64)] and [ParseInt(s, 10, 64)] with their
    overflow checks and error values, [FormatUint] and [FormatInt] in base
    10, and the interface ([FloatFormat]) of [ParseFloat]/[FormatFloat],
    whose decimal-to-binary conversion is not modelled.  These are library
    code, not code of the repository. *)

From S2P Require Import Prelude.

Module Strconv.

(** ** Digits *)

Definition digit_val (c : byte) : option Z :=
  let n := Z.of_N (Byte.to_N c) in
  if (48 <=? n) && (n <=? 57) then Some (n - 48) else None.

Definition digit_byte (d : Z) : byte :=
  match d with
  | 0 => Byte.x30 | 1 => Byte.x31 | 2 => Byte.x32 | 3 => Byte.x33 | 4 => Byte.x34
  | 5 => Byte.x35 | 6 => Byte.x36 | 7 => Byte.x37 | 8 => Byte.x38 | _ => Byte.x39
  end.

Definition minus_sign : byte := Byte.x2d.
Definition plus_sign : byte := Byte.x2b.

Definition maxUint64 : Z := 2 ^ 64 - 1.

(** [cutoff] is the smallest number such that [cutoff*10 > maxUint64]. *)
Definition cutoff10 : Z := maxUint64 / 10 + 1.

Definition syntaxError (fn : string) (s : list byte) : error := ErrNum fn s NumSyntax.
Definition rangeError (fn : string) (s : list byte) : error := ErrNum fn s NumRange.

(** ** ParseUint(s, 10, 64)

    The digit loop of [strconv.ParseUint]: a byte that is not a decimal
    digit is a syntax error; [n >= cutoff] (the multiplication would
    overflow) and [n1 > maxVal] (Go's [n1 < n || n1 > maxVal], the addition
    wrapped or passed the maximum) are range errors, which return [maxVal]. *)
Fixpoint parseUintLoop (s0 : list byte) (cs : list byte) (n : Z) : Z * option error :=
  match cs with
  | [] => (n, None)
  | c :: cs' =>
      match digit_val c with
      | None => (0, Some (syntaxError "ParseUint" s0))
      | Some d =>
          if cutoff10 <=? n then (maxUint64, Some (rangeError "ParseUint" s0))
          else
            let n1 := n * 10 + d in
            if maxUint64 <? n1 then (maxUint64, Some (rangeError "ParseUint" s0))
            else parseUintLoop s0 cs' n1
      end
  end.

Definition ParseUint (s : list byte) : Z * option error :=
  match s with
  | [] => (0, Some (syntaxError "ParseUint" s))
  | _ => parseUintLoop s s 0
  end.

(** ** ParseInt(s, 10, 64) *)
Definition ParseInt (s0 : list byte) : Z * option error :=
  match s0 with
  | [] => (0, Some (syntaxError "ParseInt" s0))
  | c :: rest =>
      let '(neg, s) :=
        if decide (c = plus_sign) then (false, rest)
        else if decide (c = minus_sign) then (true, rest) else (false, s0) in
      match ParseUint s with
      | (_, Some (ErrNum _ _ NumSyntax)) => (0, Some (syntaxError "ParseInt" s0))
      | (un, _) =>
          let cutoff := 2 ^ 63 in
          if negb neg && (cutoff <=? un) then (cutoff - 1, Some (rangeError "ParseInt" s0))
          else if neg && (cutoff <? un) then (- cutoff, Some (rangeError "ParseInt" s0))
          else ((if neg then - un else un), None)
      end
  end.

(** ** FormatUint(v, 10) and FormatInt(v, 10)

    Digits are produced least significant first into an accumulator.  A
    [uint64] has at most 20 decimal digits ([2^64 < 10^20]), so 20 rounds of
    fuel are enough for every value the writer formats ([utoa_value] with
    [ParseUint_FormatUint]). *)
Fixpoint utoa (fuel : nat) (v : Z) (acc : list byte) : list byte :=
  match fuel with
  | O => acc
  | S f =>
      let acc' := digit_byte (v mod 10) :: acc in
      if v <? 10 then acc' else utoa f (v / 10) acc'
  end.

Definition FormatUint (v : Z) : list byte := utoa 20 v [].

Definition FormatInt (v : Z) : list byte :=
  if v <? 0 then minus_sign :: FormatUint (- v) else FormatUint v.

(** ** Facts *)

(** [all_digits s]: every byte is a decimal digit; [dec_value s n] is the
    number the digits denote, read after the prefix whose value is [n]. *)
Definition all_digits (s : list byte) : bool := forallb (λ c, bool_decide (is_Some (digit_val c))) s.

Definition dec_value (cs : list byte) (n : Z) : Z :=
  fold_left (λ n c, n * 10 + default 0 (digit_val c)) cs n.

Lemma digit_val_byte d : 0 <= d <= 9 → digit_val (digit_byte d) = Some d.
Proof.
  intros Hd.
  assert (d = 0 ∨ d = 1 ∨ d = 2 ∨ d = 3 ∨ d = 4 ∨ d = 5 ∨ d = 6 ∨ d = 7 ∨ d = 8 ∨ d = 9)
    as Hc by lia.
  by destruct_or! Hc; subst.
Qed.

(** A token that does not start with a digit, the empty token included,
    is a syntax error. *)
Lemma ParseUint_not_digit s :
  match s with [] => True | c :: _ => digit_val c = None end →
  ParseUint s = (0, Some (syntaxError "ParseUint" s)).
Proof. destruct s as [|c s]; [done|]. intros Hc. unfold ParseUint; simpl. by rewrite Hc. Qed.

Lemma digit_val_range c d : digit_val c = Some d → 0 <= d <= 9.
Proof. unfold digit_val. case_match eqn:E; [|done]. intros [= <-]. apply andb_true_iff in E. lia. Qed.

Lemma digit_byte_is_digit d : is_Some (digit_val (digit_byte d)).
Proof. unfold digit_byte. repeat case_match; eexists; reflexivity. Qed.

Lemma all_digits_no_space s : all_digits s = true → no_space s = true.
Proof.
  unfold all_digits, no_space. rewrite !forallb_forall. intros H c Hc.
  specialize (H c Hc). apply bool_decide_eq_true in H. apply bool_decide_eq_true.
  intros ->. destruct H as [? H]. discriminate.
Qed.

Lemma dec_value_ge cs n : all_digits cs = true → 0 <= n → n <= dec_value cs n.
Proof.
  revert n. induction cs as [|c cs IH]; intros n Hd Hn; simpl in *; [lia|].
  apply andb_true_iff in Hd as [Hc Hd]. apply bool_decide_eq_true in Hc as [d Hc].
  rewrite Hc. simpl. pose proof (digit_val_range _ _ Hc).
  specialize (IH (n * 10 + d) Hd ltac:(lia)). lia.
Qed.

(** Within [uint64], the digit loop never trips its overflow checks. *)
Lemma parseUintLoop_ok s0 cs n :
  all_digits cs = true → 0 <= n → dec_value cs n <= maxUint64 →
  parseUintLoop s0 cs n = (dec_value cs n, None).
Proof.
  revert n. induction cs as [|c cs IH]; intros n Hd Hn Hmax; simpl in *; [done|].
  apply andb_true_iff in Hd as [Hc Hd]. apply bool_decide_eq_true in Hc as [d Hc].
  rewrite Hc in *. simpl in *. pose proof (digit_val_range _ _ Hc).
  pose proof (dec_value_ge cs (n * 10 + d) Hd ltac:(lia)).
  change cutoff10 with 1844674407370955162.
  change maxUint64 with 18446744073709551615 in *.
  rewrite (proj2 (Z.leb_gt _ _)) by lia. rewrite (proj2 (Z.ltb_ge _ _)) by lia.
  apply IH; [done|lia|lia].
Qed.

(** Past [uint64], the loop stops at an overflow check with the range
    error and [maxUint64]. *)
Lemma parseUintLoop_overflow s0 cs n :
  all_digits cs = true → 0 <= n <= maxUint64 → maxUint64 < dec_value cs n →
  parseUintLoop s0 cs n = (maxUint64, Some (rangeError "ParseUint" s0)).
Proof.
  revert n. induction cs as [|c cs IH]; intros n Hd Hn Hmax; simpl in *; [lia|].
  apply andb_true_iff in Hd as [Hc Hd]. apply bool_decide_eq_true in Hc as [d Hc].
  rewrite Hc in *. simpl in *. pose proof (digit_val_range _ _ Hc).
  destruct (cutoff10 <=? n) eqn:Ec; [done|].
  destruct (maxUint64 <? n * 10 + d) eqn:Em; [done|].
  apply Z.ltb_ge in Em. apply IH; [done | lia | done].
Qed.

(** [ParseUint] on decimal digits is the reference "the number the digits
    denote, or the range error above [maxUint64]". *)
Lemma ParseUint_digits s :
  s ≠ [] → all_digits s = true →
  ParseUint s = if dec_value s 0 <=? maxUint64 then (dec_value s 0, None)
                else (maxUint64, Some (rangeError "ParseUint" s)).
Proof.
  intros Hne Hd. unfold ParseUint. destruct s as [|c s']; [done|].
  destruct (dec_value (c :: s') 0 <=? maxUint64) eqn:E.
  - apply Z.leb_le in E. by apply parseUintLoop_ok.
  - apply Z.leb_gt in E. apply parseUintLoop_overflow; [done | unfold maxUint64; lia | done].
Qed.

Lemma utoa_digits fuel v acc :
  all_digits acc = true → all_digits (utoa fuel v acc) = true.
Proof.
  revert v acc. induction fuel as [|f IH]; intros v acc Hacc; simpl; [done|].
  assert (all_digits (digit_byte (v mod 10) :: acc) = true).
  { simpl. rewrite Hacc, andb_true_r. apply bool_decide_eq_true, digit_byte_is_digit. }
  case_match; [done | by apply IH].
Qed.

Lemma utoa_S f v acc :
  utoa (S f) v acc =
  if v <? 10 then digit_byte (v mod 10) :: acc else utoa f (v / 10) (digit_byte (v mod 10) :: acc).
Proof. reflexivity. Qed.

Lemma utoa_value fuel v acc :
  0 <= v < 10 ^ Z.of_nat (S fuel) →
  dec_value (utoa (S fuel) v acc) 0 = dec_value acc v.
Proof.
  revert v acc. induction fuel as [|f IH]; intros v acc Hv.
  - change (10 ^ Z.of_nat 1) with 10 in Hv. simpl. rewrite (proj2 (Z.ltb_lt _ _)) by lia. simpl.
    rewrite (Z.mod_small v 10), digit_val_byte by lia. done.
  - rewrite utoa_S. case_match eqn:E.
    + apply Z.ltb_lt in E. simpl. rewrite (Z.mod_small v 10), digit_val_byte by lia. done.
    + apply Z.ltb_ge in E.
      rewrite IH.
      * simpl. rewrite digit_val_byte by (pose proof (Z.mod_pos_bound v 10); lia). simpl.
        f_equal. pose proof (Z.div_mod v 10). lia.
      * split; [apply Z.div_pos; lia|].
        apply Z.div_lt_upper_bound; [lia|].
        rewrite Nat2Z.inj_succ, Z.pow_succ_r in Hv by lia. lia.
Qed.

Lemma utoa_nonempty fuel v acc : fuel ≠ O → utoa fuel v acc ≠ [].
Proof.
  revert v acc. induction fuel as [|f IH]; intros v acc Hf; [done|].
  rewrite utoa_S. case_match; [done|].
  destruct f; [done | by apply IH].
Qed.

Lemma FormatUint_digits v : all_digits (FormatUint v) = true.
Proof. by apply utoa_digits. Qed.

Lemma FormatUint_token v : no_space (FormatUint v) = true ∧ FormatUint v ≠ [].
Proof. split; [apply all_digits_no_space, FormatUint_digits | by apply utoa_nonempty]. Qed.

(** [FormatUint] then [ParseUint] is the identity on [uint64]. *)
Lemma ParseUint_FormatUint v : 0 <= v <= maxUint64 → ParseUint (FormatUint v) = (v, None).
Proof.
  intros Hv. unfold ParseUint.
  assert (Hval : dec_value (FormatUint v) 0 = v).
  { unfold FormatUint. rewrite utoa_value; [done|].
    change (10 ^ Z.of_nat 20) with 100000000000000000000.
    unfold maxUint64 in Hv. lia. }
  destruct (FormatUint v) eqn:E; [by destruct (FormatUint_token v) |].
  rewrite parseUintLoop_ok, Hval; [done | rewrite <- E; apply FormatUint_digits | lia | lia].
Qed.

Lemma sign_not_digit c : digit_val c ≠ None → c ≠ plus_sign ∧ c ≠ minus_sign.
Proof. intros H. split; intros ->; by apply H. Qed.

(** A token of [FormatUint] starts with a digit, not a sign. *)
Lemma FormatUint_head v : ∃ c rest, FormatUint v = c :: rest ∧ c ≠ plus_sign ∧ c ≠ minus_sign.
Proof.
  pose proof (FormatUint_digits v) as Hd. pose proof (FormatUint_token v) as [_ Hne].
  destruct (FormatUint v) as [|c rest]; [done|].
  simpl in Hd. apply andb_true_iff in Hd as [Hc _]. apply bool_decide_eq_true in Hc.
  exists c, rest. split; [done|]. apply sign_not_digit. by destruct Hc as [? ->].
Qed.

Lemma FormatInt_token v : no_space (FormatInt v) = true ∧ FormatInt v ≠ [].
Proof.
  unfold FormatInt. destruct (FormatUint_token (- v)) as [H1 _].
  case_match; [done | apply FormatUint_token].
Qed.

(** [FormatInt] then [ParseInt] is the identity on [int64]. *)
Lemma ParseInt_FormatInt z : - 2 ^ 63 <= z < 2 ^ 63 → ParseInt (FormatInt z) = (z, None).
Proof.
  intros Hz. unfold FormatInt. destruct (Z.ltb_spec z 0) as [Hneg|Hpos].
  - unfold ParseInt. simpl. rewrite ParseUint_FormatUint by (unfold maxUint64; lia).
    rewrite (proj2 (Z.ltb_ge _ _)) by lia. f_equal. lia.
  - destruct (FormatUint_head z) as (c & rest & E & Hp & Hm).
    unfold ParseInt. rewrite E. rewrite !decide_False by done. rewrite <- E.
    rewrite ParseUint_FormatUint by (unfold maxUint64; lia).
    simpl. rewrite (proj2 (Z.leb_gt _ _)) by lia. done.
Qed.

(** Whatever the input, [ParseUint] returns a [uint64]. *)
Lemma parseUintLoop_range s0 cs n : 0 <= n <= maxUint64 → 0 <= (parseUintLoop s0 cs n).1 <= maxUint64.
Proof.
  revert n. induction cs as [|c cs IH]; intros n Hn; simpl; [done|].
  destruct (digit_val c) as [d|] eqn:Hc; simpl; [|unfold maxUint64; lia].
  pose proof (digit_val_range _ _ Hc).
  destruct (cutoff10 <=? n); simpl; [unfold maxUint64; lia|].
  destruct (maxUint64 <? n * 10 + d) eqn:Em; simpl; [unfold maxUint64; lia|].
  apply Z.ltb_ge in Em. apply IH. lia.
Qed.

Lemma ParseUint_range s : 0 <= (ParseUint s).1 <= maxUint64.
Proof.
  unfold ParseUint. destruct s; [simpl; unfold maxUint64; lia|].
  apply parseUintLoop_range. unfold maxUint64; lia.
Qed.

(** A value [ParseInt] returns without error is an [int64]. *)
Lemma ParseInt_range s v : ParseInt s = (v, None) → - 2 ^ 63 <= v < 2 ^ 63.
Proof.
  unfold ParseInt. destruct s as [|c rest]; [done|].
  set (p := if decide (c = plus_sign) then _ else _).
  destruct p as [neg s']. pose proof (ParseUint_range s') as Hr.
  destruct (ParseUint s') as [un e]; simpl in Hr.
  intros Heq. repeat case_match; simplify_eq/=;
    rewrite ?andb_false_iff, ?negb_false_iff, ?Z.leb_gt, ?Z.ltb_ge, ?Z.leb_le, ?Z.ltb_lt in *;
    unfold maxUint64 in *; intuition (try discriminate; lia).
Qed.

End Strconv.

(** ** ParseFloat and FormatFloat

    A float is represented by its IEEE-754 bit pattern (a [Z] of 64 or 32
    bits).  [ParseFloat] is [strconv.ParseFloat(s, 64)], [FormatFloat64]
    and [FormatFloat32] the text the writer emits for a [float64] and a
    [float32], [float32_of_64] Go's conversion [float32(x)].  The laws are
    what the codec relies on: a formatted float is one non-empty token and
    parses back to itself, except for NaN, whose payload is not kept; and
    what [ParseFloat] and [float32(x)] return is a bit pattern of 64 and
    32 bits. *)
Class FloatFormat := {
  ParseFloat : list byte → Z * option error;
  FormatFloat64 : Z → list byte;
  FormatFloat32 : Z → list byte;
  float32_of_64 : Z → Z;
  is_nan64 : Z → bool;
  is_nan32 : Z → bool;
}.

Class FloatFormatLaws `{FloatFormat} := {
  format64_token x : no_space (FormatFloat64 x) = true ∧ FormatFloat64 x ≠ [];
  format32_token x : no_space (FormatFloat32 x) = true ∧ FormatFloat32 x ≠ [];
  parse_format64 x : inU 64 x = true → is_nan64 x = false →
    ParseFloat (FormatFloat64 x) = (x, None);
  parse_format32 x : inU 32 x = true → is_nan32 x = false →
    ∃ y, ParseFloat (FormatFloat32 x) = (y, None) ∧ float32_of_64 y = x;
  float32_of_64_zero : float32_of_64 0 = 0;
  parse_range s : inU 64 (ParseFloat s).1 = true;
  float32_range x : inU 32 (float32_of_64 x) = true;
}.

(** A concrete [FloatFormat] for evaluating the development on inputs:
    a float is written as the decimal text of its bit pattern.  It is not
    Go's [strconv] (no decimal-to-binary conversion); it satisfies the
    laws the codec relies on, which shows they are consistent. *)
Module DecimalFloat.
#[export] Instance format : FloatFormat := {|
  ParseFloat := Strconv.ParseUint;
  FormatFloat64 := Strconv.FormatUint;
  FormatFloat32 := Strconv.FormatUint;
  float32_of_64 := wrapU 32;
  is_nan64 := λ _, false;
  is_nan32 := λ _, false
|}.

#[export] Instance laws : FloatFormatLaws.
Proof.
  split; simpl.
  - intros x. apply Strconv.FormatUint_token.
  - intros x. apply Strconv.FormatUint_token.
  - intros x Hx _. apply inU_spec in Hx. apply Strconv.ParseUint_FormatUint. unfold Strconv.maxUint64. lia.
  - intros x Hx _. apply inU_spec in Hx. exists x.
    rewrite Strconv.ParseUint_FormatUint by (unfold Strconv.maxUint64; lia). by rewrite wrapU_id.
  - done.
  - intros s. apply inU_spec. pose proof (Strconv.ParseUint_range s). unfold Strconv.maxUint64 in *. lia.
  - intros x. apply inU_spec, wrapU_range. lia.
Qed.
End DecimalFloat.
