(* ===== verification/Value.v ===== *)
(** The values the codec encodes and decodes.  The Go code walks values by
    reflection and switches on [reflect.Kind]; here a value is a tagged
    variant whose constructor is its kind, and a type ([typ]) is what the
    decoder is given as destination and what the type-descriptor registry
    is keyed by ([reflect.Type]).  The file holds the kinds, types, values,
    their typing, the builtin-kind test of the slice layout, zero values,
    and decidable equality and countability of types and values. *)

From S2P Require Import Prelude.

#[local] Set Warnings "-register-all".

(** ** reflect.Kind *)
Module Kind.
Inductive t :=
| Invalid | Bool | Int | Int8 | Int16 | Int32 | Int64
| Uint | Uint8 | Uint16 | Uint32 | Uint64 | Uintptr
| Float32 | Float64 | Complex64 | Complex128
| Array | Chan | Func | Interface | Map | Pointer | Slice | String | Struct
| UnsafePointer.

Local Open Scope nat_scope.

Definition to_nat (k : t) : nat :=
  match k with
  | Invalid => 0 | Bool => 1 | Int => 2 | Int8 => 3 | Int16 => 4 | Int32 => 5 | Int64 => 6
  | Uint => 7 | Uint8 => 8 | Uint16 => 9 | Uint32 => 10 | Uint64 => 11 | Uintptr => 12
  | Float32 => 13 | Float64 => 14 | Complex64 => 15 | Complex128 => 16
  | Array => 17 | Chan => 18 | Func => 19 | Interface => 20 | Map => 21 | Pointer => 22
  | Slice => 23 | String => 24 | Struct => 25 | UnsafePointer => 26
  end.

Definition of_nat (n : nat) : t :=
  match n with
  | 1 => Bool | 2 => Int | 3 => Int8 | 4 => Int16 | 5 => Int32 | 6 => Int64
  | 7 => Uint | 8 => Uint8 | 9 => Uint16 | 10 => Uint32 | 11 => Uint64 | 12 => Uintptr
  | 13 => Float32 | 14 => Float64 | 15 => Complex64 | 16 => Complex128
  | 17 => Array | 18 => Chan | 19 => Func | 20 => Interface | 21 => Map | 22 => Pointer
  | 23 => Slice | 24 => String | 25 => Struct | 26 => UnsafePointer | _ => Invalid
  end.

Lemma of_to_nat k : of_nat (to_nat k) = k.
Proof. by destruct k. Qed.

#[global] Instance eq_dec : EqDecision t.
Proof. solve_decision. Defined.
#[global] Instance countable : Countable t :=
  inj_countable' to_nat of_nat of_to_nat.

Local Open Scope Z_scope.

(** The bit width of the sized integer kinds ([int8] ... [uint64]); the
    platform-sized [int], [uint] and [uintptr] have none here. *)
Definition int_width (k : t) : option Z :=
  match k with Int8 => Some 8 | Int16 => Some 16 | Int32 => Some 32 | Int64 => Some 64 | _ => None end.
Definition uint_width (k : t) : option Z :=
  match k with Uint8 => Some 8 | Uint16 => Some 16 | Uint32 => Some 32 | Uint64 => Some 64 | _ => None end.

(** Kinds with no structure the codec could determine. *)
Definition opaque (k : t) : bool :=
  match k with
  | Invalid | Chan | Func | Interface | Pointer | UnsafePointer => true
  | _ => false
  end.
End Kind.

(** ** Types

    [TKind k] is a type with nothing beyond its kind (the scalars and the
    opaque kinds); [TCustom name u] is a named type with methods (a
    [Marshaler]/[Unmarshaler]) whose underlying type is [u]. *)
Inductive typ :=
| TKind (k : Kind.t)
| TStruct (name : string) (fields : list typ)
| TSlice (elem : typ)
| TArray (len : nat) (elem : typ)
| TMap (key elem : typ)
| TCustom (name : string) (under : typ).

(** [rt.Kind()] *)
Fixpoint typ_kind (t : typ) : Kind.t :=
  match t with
  | TKind k => k
  | TStruct _ _ => Kind.Struct
  | TSlice _ => Kind.Slice
  | TArray _ _ => Kind.Array
  | TMap _ _ => Kind.Map
  | TCustom _ u => typ_kind u
  end.

(** ** Values *)
Inductive value :=
| VBool (b : bool)
| VInt (k : Kind.t) (z : Z)
| VUint (k : Kind.t) (z : Z)
| VFloat32 (x : Z)
| VFloat64 (x : Z)
| VComplex64 (re im : Z)
| VComplex128 (re im : Z)
| VString (s : list byte)
| VStruct (name : string) (fields : list value)
| VSlice (elem : typ) (xs : list value)
| VArray (elem : typ) (xs : list value)
| VMap (key elem : typ) (kvs : list (value * value))
| VCustom (name : string) (under : typ) (x : value)
| VOpaque (k : Kind.t).

Fixpoint type_of (v : value) : typ :=
  match v with
  | VBool _ => TKind Kind.Bool
  | VInt k _ | VUint k _ => TKind k
  | VFloat32 _ => TKind Kind.Float32
  | VFloat64 _ => TKind Kind.Float64
  | VComplex64 _ _ => TKind Kind.Complex64
  | VComplex128 _ _ => TKind Kind.Complex128
  | VString _ => TKind Kind.String
  | VStruct n fs => TStruct n (map type_of fs)
  | VSlice et _ => TSlice et
  | VArray et xs => TArray (length xs) et
  | VMap kt et _ => TMap kt et
  | VCustom n u _ => TCustom n u
  | VOpaque k => TKind k
  end.

(** [isCxxBoostBuiltin]: the kinds Boost serializes as primitives, whose
    collections carry no item version ([Encode]'s slice case). *)
Definition isCxxBoostBuiltin (k : Kind.t) : bool :=
  match k with
  | Kind.Bool | Kind.Int | Kind.Int8 | Kind.Int16 | Kind.Int32 | Kind.Int64
  | Kind.Uint | Kind.Uint8 | Kind.Uint16 | Kind.Uint32 | Kind.Uint64 | Kind.Uintptr
  | Kind.Float32 | Kind.Float64 | Kind.Complex64 | Kind.Complex128 | Kind.String => true
  | _ => false
  end.

(** The zero value of a type (what [reflect.New(t).Elem()] holds). *)
Fixpoint zero_value (t : typ) : value :=
  match t with
  | TKind k =>
      match k with
      | Kind.Bool => VBool false
      | Kind.Int | Kind.Int8 | Kind.Int16 | Kind.Int32 | Kind.Int64 => VInt k 0
      | Kind.Uint | Kind.Uint8 | Kind.Uint16 | Kind.Uint32 | Kind.Uint64 | Kind.Uintptr => VUint k 0
      | Kind.Float32 => VFloat32 0
      | Kind.Float64 => VFloat64 0
      | Kind.Complex64 => VComplex64 0 0
      | Kind.Complex128 => VComplex128 0 0
      | Kind.String => VString []
      | _ => VOpaque k
      end
  | TStruct n fs => VStruct n (map zero_value fs)
  | TSlice e => VSlice e []
  | TArray n e => VArray e (replicate n (zero_value e))
  | TMap k e => VMap k e []
  | TCustom n u => VCustom n u (zero_value u)
  end.

(** ** Induction on types and values through their lists *)
Section nested_induction.
Context (P : typ → Prop)
  (HKind : ∀ k, P (TKind k))
  (HStruct : ∀ n fs, Forall P fs → P (TStruct n fs))
  (HSlice : ∀ e, P e → P (TSlice e))
  (HArray : ∀ n e, P e → P (TArray n e))
  (HMap : ∀ k e, P k → P e → P (TMap k e))
  (HCustom : ∀ n u, P u → P (TCustom n u)).

Fixpoint typ_nested_ind (t : typ) : P t :=
  match t with
  | TKind k => HKind k
  | TStruct n fs =>
      HStruct n fs ((fix go (fs : list typ) : Forall P fs :=
        match fs with
        | [] => Forall_nil_2 _
        | f :: fs' => Forall_cons_2 _ _ _ (typ_nested_ind f) (go fs')
        end) fs)
  | TSlice e => HSlice e (typ_nested_ind e)
  | TArray n e => HArray n e (typ_nested_ind e)
  | TMap k e => HMap k e (typ_nested_ind k) (typ_nested_ind e)
  | TCustom n u => HCustom n u (typ_nested_ind u)
  end.
End nested_induction.

Section value_induction.
Context (P : value → Prop)
  (HBool : ∀ b, P (VBool b))
  (HInt : ∀ k z, P (VInt k z))
  (HUint : ∀ k z, P (VUint k z))
  (HF32 : ∀ x, P (VFloat32 x))
  (HF64 : ∀ x, P (VFloat64 x))
  (HC64 : ∀ re im, P (VComplex64 re im))
  (HC128 : ∀ re im, P (VComplex128 re im))
  (HString : ∀ s, P (VString s))
  (HStruct : ∀ n fs, Forall P fs → P (VStruct n fs))
  (HSlice : ∀ e xs, Forall P xs → P (VSlice e xs))
  (HArray : ∀ e xs, Forall P xs → P (VArray e xs))
  (HMap : ∀ k e kvs, Forall (λ kv, P kv.1 ∧ P kv.2) kvs → P (VMap k e kvs))
  (HCustom : ∀ n u x, P x → P (VCustom n u x))
  (HOpaque : ∀ k, P (VOpaque k)).

Fixpoint value_nested_ind (v : value) : P v :=
  let fix go (xs : list value) : Forall P xs :=
    match xs with
    | [] => Forall_nil_2 _
    | x :: xs' => Forall_cons_2 _ _ _ (value_nested_ind x) (go xs')
    end in
  match v with
  | VBool b => HBool b
  | VInt k z => HInt k z
  | VUint k z => HUint k z
  | VFloat32 x => HF32 x
  | VFloat64 x => HF64 x
  | VComplex64 re im => HC64 re im
  | VComplex128 re im => HC128 re im
  | VString s => HString s
  | VStruct n fs => HStruct n fs (go fs)
  | VSlice e xs => HSlice e xs (go xs)
  | VArray e xs => HArray e xs (go xs)
  | VMap k e kvs =>
      HMap k e kvs ((fix gom (kvs : list (value * value)) :
          Forall (λ kv, P kv.1 ∧ P kv.2) kvs :=
        match kvs with
        | [] => Forall_nil_2 _
        | (a, b) :: kvs' =>
            Forall_cons_2 (λ kv, P kv.1 ∧ P kv.2) (a, b) kvs'
              (conj (value_nested_ind a) (value_nested_ind b)) (gom kvs')
        end) kvs)
  | VCustom n u x => HCustom n u x (value_nested_ind x)
  | VOpaque k => HOpaque k
  end.
End value_induction.

(** ** Decidable equality and countability

    Types and values are encoded into stdpp's [gen_tree]; the decoding is a
    left inverse, which gives [EqDecision] and [Countable] (types key the
    registry's [gmap]; values are compared as map keys). *)
Fixpoint typ_to_tree (t : typ) : gen_tree (Kind.t + (nat + string)) :=
  match t with
  | TKind k => GenNode 0 [GenLeaf (inl k)]
  | TStruct n fs => GenNode 1 (GenLeaf (inr (inr n)) :: (typ_to_tree <$> fs))
  | TSlice e => GenNode 2 [typ_to_tree e]
  | TArray n e => GenNode 3 [GenLeaf (inr (inl n)); typ_to_tree e]
  | TMap k e => GenNode 4 [typ_to_tree k; typ_to_tree e]
  | TCustom n u => GenNode 5 [GenLeaf (inr (inr n)); typ_to_tree u]
  end.

Fixpoint typ_of_tree (g : gen_tree (Kind.t + (nat + string))) : option typ :=
  match g with
  | GenNode 0 [GenLeaf (inl k)] => Some (TKind k)
  | GenNode 1 (GenLeaf (inr (inr n)) :: gs) => TStruct n <$> mapM typ_of_tree gs
  | GenNode 2 [g] => TSlice <$> typ_of_tree g
  | GenNode 3 [GenLeaf (inr (inl n)); g] => TArray n <$> typ_of_tree g
  | GenNode 4 [g1; g2] => k ← typ_of_tree g1; e ← typ_of_tree g2; Some (TMap k e)
  | GenNode 5 [GenLeaf (inr (inr n)); g] => TCustom n <$> typ_of_tree g
  | _ => None
  end.

Lemma typ_of_to_tree t : typ_of_tree (typ_to_tree t) = Some t.
Proof.
  induction t using typ_nested_ind; simpl; try by rewrite ?IHt, ?IHt1, ?IHt2.
  by rewrite mapM_fmap_Forall_Some.
Qed.

#[export] Instance typ_eq_dec : EqDecision typ := inj_eq_dec typ_to_tree typ_of_tree typ_of_to_tree.
#[export] Instance typ_countable : Countable typ := inj_countable typ_to_tree typ_of_tree typ_of_to_tree.

Abbreviation vleaf := (gen_tree (Kind.t + (Z + (list byte + (string + typ))))) (only parsing).

Fixpoint value_to_tree (v : value) : vleaf :=
  let Zl z := GenLeaf (inr (inl z)) in
  let Sl n := GenLeaf (inr (inr (inr (inl n)))) in
  let Tl t := GenLeaf (inr (inr (inr (inr t)))) in
  match v with
  | VBool b => GenNode 0 [Zl (Z.b2z b)]
  | VInt k z => GenNode 1 [GenLeaf (inl k); Zl z]
  | VUint k z => GenNode 2 [GenLeaf (inl k); Zl z]
  | VFloat32 x => GenNode 3 [Zl x]
  | VFloat64 x => GenNode 4 [Zl x]
  | VComplex64 re im => GenNode 5 [Zl re; Zl im]
  | VComplex128 re im => GenNode 6 [Zl re; Zl im]
  | VString s => GenNode 7 [GenLeaf (inr (inr (inl s)))]
  | VStruct n fs => GenNode 8 (Sl n :: (value_to_tree <$> fs))
  | VSlice e xs => GenNode 9 (Tl e :: (value_to_tree <$> xs))
  | VArray e xs => GenNode 10 (Tl e :: (value_to_tree <$> xs))
  | VMap k e kvs =>
      GenNode 11 (Tl k :: Tl e :: ((λ '(a, b), GenNode 0 [value_to_tree a; value_to_tree b]) <$> kvs))
  | VCustom n u x => GenNode 12 [Sl n; Tl u; value_to_tree x]
  | VOpaque k => GenNode 13 [GenLeaf (inl k)]
  end.

Fixpoint value_of_tree (g : vleaf) : option value :=
  match g with
  | GenNode 0 [GenLeaf (inr (inl z))] => Some (VBool (z =? 1))
  | GenNode 1 [GenLeaf (inl k); GenLeaf (inr (inl z))] => Some (VInt k z)
  | GenNode 2 [GenLeaf (inl k); GenLeaf (inr (inl z))] => Some (VUint k z)
  | GenNode 3 [GenLeaf (inr (inl x))] => Some (VFloat32 x)
  | GenNode 4 [GenLeaf (inr (inl x))] => Some (VFloat64 x)
  | GenNode 5 [GenLeaf (inr (inl re)); GenLeaf (inr (inl im))] => Some (VComplex64 re im)
  | GenNode 6 [GenLeaf (inr (inl re)); GenLeaf (inr (inl im))] => Some (VComplex128 re im)
  | GenNode 7 [GenLeaf (inr (inr (inl s)))] => Some (VString s)
  | GenNode 8 (GenLeaf (inr (inr (inr (inl n)))) :: gs) => VStruct n <$> mapM value_of_tree gs
  | GenNode 9 (GenLeaf (inr (inr (inr (inr e)))) :: gs) => VSlice e <$> mapM value_of_tree gs
  | GenNode 10 (GenLeaf (inr (inr (inr (inr e)))) :: gs) => VArray e <$> mapM value_of_tree gs
  | GenNode 11 (GenLeaf (inr (inr (inr (inr k)))) :: GenLeaf (inr (inr (inr (inr e)))) :: gs) =>
      VMap k e <$> mapM (λ g, match g with
                              | GenNode 0 [g1; g2] => a ← value_of_tree g1; b ← value_of_tree g2; Some (a, b)
                              | _ => None
                              end) gs
  | GenNode 12 [GenLeaf (inr (inr (inr (inl n)))); GenLeaf (inr (inr (inr (inr u)))); g] =>
      VCustom n u <$> value_of_tree g
  | GenNode 13 [GenLeaf (inl k)] => Some (VOpaque k)
  | _ => None
  end.

Lemma value_of_to_tree v : value_of_tree (value_to_tree v) = Some v.
Proof.
  induction v using value_nested_ind; simpl; try by rewrite ?IHv.
  - by destruct b.
  - by rewrite mapM_fmap_Forall_Some.
  - by rewrite mapM_fmap_Forall_Some.
  - by rewrite mapM_fmap_Forall_Some.
  - rewrite mapM_fmap_Forall_Some; [done|].
    rewrite Forall_forall in *. intros [a b] Hin.
    destruct (H _ Hin) as [Ha Hb]; simpl in *. by rewrite Ha, Hb.
Qed.

#[export] Instance value_eq_dec : EqDecision value := inj_eq_dec value_to_tree value_of_tree value_of_to_tree.

(** ** Typing

    [wt v]: [v] is a Go value of [type_of v]: integers and float bit
    patterns within their width ([int], [uint] and [uintptr] are 64-bit),
    elements and entries of the collection's element types, map keys
    distinct, and opaque kinds only for [VOpaque]. *)
Definition int_ok (k : Kind.t) (z : Z) : bool :=
  match k with
  | Kind.Int => inS 64 z
  | _ => match Kind.int_width k with Some w => inS w z | None => false end
  end.

Definition uint_ok (k : Kind.t) (z : Z) : bool :=
  match k with
  | Kind.Uint | Kind.Uintptr => inU 64 z
  | _ => match Kind.uint_width k with Some w => inU w z | None => false end
  end.

Fixpoint wt (v : value) : bool :=
  match v with
  | VBool _ | VString _ => true
  | VInt k z => int_ok k z
  | VUint k z => uint_ok k z
  | VFloat32 x => inU 32 x
  | VFloat64 x => inU 64 x
  | VComplex64 re im => inU 32 re && inU 32 im
  | VComplex128 re im => inU 64 re && inU 64 im
  | VStruct _ fs => forallb wt fs
  | VSlice e xs | VArray e xs => forallb (λ x, wt x && bool_decide (type_of x = e)) xs
  | VMap k e kvs =>
      forallb (λ '(a, b), wt a && wt b && bool_decide (type_of a = k) && bool_decide (type_of b = e)) kvs
      && bool_decide (NoDup kvs.*1)
  | VCustom _ u x => wt x && bool_decide (type_of x = u)
  | VOpaque k => Kind.opaque k
  end.

Lemma type_of_zero_value t : type_of (zero_value t) = t.
Proof.
  induction t using typ_nested_ind; simpl; try by rewrite ?IHt.
  - by destruct k.
  - f_equal. rewrite map_map. induction H; simpl; [done|]. by f_equal.
  - by rewrite length_replicate.
Qed.
