(* ===== verification/Arch.v ===== *)
(** The archive's fixed data, which the reader and the writer share: the
    architecture profile ([Arch], a Go [int] whose value is the width of
    length fields), the header record and its per-profile default, the type
    descriptor record, the per-stream registry that caches descriptors by
    type, and the magic signature.  The Go declarations of these are not
    among the staged sources; they are modelled from the specification. *)

From S2P Require Import Prelude Value.

(** ** Architecture profile *)
Definition Arch := Z.

Definition Arch32 : Arch := 32.
Definition Arch64 : Arch := 64.
(** [8*unsafe.Sizeof(uintptr(0))]: the development assumes a 64-bit host. *)
Definition ArchHW : Arch := 64.

(** ** Header

    The version/flags record written once after the magic signature.  The
    zero header is the sentinel "not customized", replaced at the first
    write by the profile's default. *)
Record Header := mkHeader { hdrVersion : Z; hdrFlags : Z }.

#[export] Instance Header_eq_dec : EqDecision Header.
Proof. solve_decision. Defined.

Definition zeroHdr : Header := mkHeader 0 0.

(** [arch.Header()]: the default header of a profile (library version 17,
    no flags). *)
Definition archHeader (a : Arch) : Header := mkHeader 17 0.

(** ** Type descriptors and the registry *)
Record TypeDescr := mkTypeDescr { tdVersion : Z; tdFlags : Z }.

#[export] Instance TypeDescr_eq_dec : EqDecision TypeDescr.
Proof. solve_decision. Defined.

(** The descriptor the writer emits for a type seen for the first time. *)
Definition newTypeDescr (t : typ) : TypeDescr := mkTypeDescr 0 0.

(** [registry]: [map[reflect.Type]TypeDescr], one per reader or writer. *)
Abbreviation registry := (gmap typ TypeDescr).

Definition newRegistry : registry := ∅.

(** ** The magic signature, a length-prefixed string token. *)
Definition magicHeaderSignature : list byte := bytes "serialization::archive".
