(* ===== verification/Wire.v ===== *)
(** The wire format as a pure function: [wire a v] is the generator of the
    bytes that encoding [v] appends to the archive under profile [a], as a
    function of the registry of types already described (it returns the
    bytes and the registry after).  It is the specification the encoder
    refines ([Encoder.Encode_wire]) and the decoder inverts
    ([Decoder.Decode_wire]): each number is its decimal text and one
    delimiter, a string its length, its bytes and one delimiter, and a
    struct, slice, array or map its type descriptor (first occurrence
    only), its length and reserved fields, and its elements.  The bytes of
    a named type with its own [MarshalBoost] are given by the interface
    [CustomWire]. *)

From S2P Require Import Prelude Strconv Value Arch.

(** ** Byte generators threading the registry *)
Definition wgen := registry → list byte * registry.

Definition emit (bs : list byte) : wgen := λ reg, (bs, reg).

Definition wcat (f g : wgen) : wgen := λ reg,
  let '(b1, r1) := f reg in let '(b2, r2) := g r1 in (b1 ++ b2, r2).

Definition tok (s : list byte) : list byte := s ++ [space].
Definition utok (z : Z) : list byte := tok (Strconv.FormatUint z).
Definition itok (z : Z) : list byte := tok (Strconv.FormatInt z).

(** A length field: [uint32(n)] in the 32-bit profile, [uint64(n)]
    otherwise ([writeLen]). *)
Definition lenTok (a : Arch) (n : Z) : list byte :=
  utok (if a =? 32 then wrapU 32 n else wrapU 64 n).

(** A type descriptor, written at the type's first occurrence only. *)
Definition descW (t : typ) : wgen := λ reg,
  match reg !! t with
  | Some _ => ([], reg)
  | None => let d := newTypeDescr t in (utok (tdVersion d) ++ utok (tdFlags d), <[t := d]> reg)
  end.

(** ** The contract of named types with their own methods

    [cwire a n x] is what [MarshalBoost] of the named type [n] writes for
    its underlying value [x]; [custom_ok n u x] says that [x] is a value
    the type's [UnmarshalBoost] reads back. *)
Class CustomWire := {
  cwire : Arch → string → value → wgen;
  custom_ok : string → typ → value → bool
}.

Section wire.
Context `{FloatFormat} `{CustomWire}.

Fixpoint wire (a : Arch) (v : value) : wgen :=
  let fix wireAll (xs : list value) : wgen :=
    match xs with
    | [] => emit []
    | x :: xs' => wcat (wire a x) (wireAll xs')
    end in
  let fix wireEntries (kvs : list (value * value)) : wgen :=
    match kvs with
    | [] => emit []
    | (k, x) :: kvs' => wcat (wire a k) (wcat (wire a x) (wireEntries kvs'))
    end in
  match v with
  | VCustom n _ x => cwire a n x
  | VBool b => emit (utok (if b then 1 else 0))
  | VInt Kind.Int8 z => emit (itok (wrapS 8 z))
  | VInt Kind.Int16 z => emit (itok (wrapS 16 z))
  | VInt Kind.Int32 z => emit (itok (wrapS 32 z))
  | VInt Kind.Int64 z => emit (itok z)
  | VUint Kind.Uint8 z => emit (utok (wrapU 8 z))
  | VUint Kind.Uint16 z => emit (utok (wrapU 16 z))
  | VUint Kind.Uint32 z => emit (utok (wrapU 32 z))
  | VUint Kind.Uint64 z => emit (utok z)
  | VFloat32 x => emit (tok (FormatFloat32 x))
  | VFloat64 x => emit (tok (FormatFloat64 x))
  | VComplex64 re im => emit (tok (FormatFloat32 re) ++ tok (FormatFloat32 im))
  | VComplex128 re im => emit (tok (FormatFloat64 re) ++ tok (FormatFloat64 im))
  | VString s => emit (lenTok a (Z.of_nat (length s)) ++ tok s)
  | VStruct _ fs => wcat (descW (type_of v)) (wireAll fs)
  | VSlice et xs =>
      wcat (descW (TSlice et))
        (wcat (emit (lenTok a (Z.of_nat (length xs)) ++
                     if isCxxBoostBuiltin (typ_kind et) then [] else utok 0))
              (wireAll xs))
  | VArray et xs =>
      wcat (descW (TArray (length xs) et))
        (wcat (emit (lenTok a (Z.of_nat (length xs)))) (wireAll xs))
  | VMap kt et kvs =>
      wcat (descW (TMap kt et))
        (wcat (emit (lenTok a (Z.of_nat (length kvs)) ++ utok 0 ++ utok 0))
              (wireEntries kvs))
  | _ => emit []
  end.

(** The lists of values, as [wire] walks them. *)
Definition wireAll (a : Arch) : list value → wgen :=
  fix go xs :=
    match xs with
    | [] => emit []
    | x :: xs' => wcat (wire a x) (go xs')
    end.

Definition wireEntries (a : Arch) : list (value * value) → wgen :=
  fix go kvs :=
    match kvs with
    | [] => emit []
    | (k, x) :: kvs' => wcat (wire a k) (wcat (wire a x) (go kvs'))
    end.

(** What [Encode] returns when the sink accepts every write: [nil], or
    [ErrTypeNotSupported] for a top-level kind outside the dispatch. *)
Definition enc_result (v : value) : option error :=
  match v with
  | VInt k _ => match Kind.int_width k with Some _ => None | None => Some ErrTypeNotSupported end
  | VUint k _ => match Kind.uint_width k with Some _ => None | None => Some ErrTypeNotSupported end
  | VOpaque _ => Some ErrTypeNotSupported
  | _ => None
  end.

(** ** The values that survive a round trip

    Every kind is one the dispatch handles, numbers are in their kind's
    range, floats are not NaN, strings are not empty (an empty string is
    read without its trailing delimiter), collection lengths are below
    [2^63] (the reader's [int]), element and entry types agree with the
    collection's, map keys are distinct, and named types satisfy their
    own contract. *)
Definition len_ok {A} (xs : list A) : bool := bool_decide (Z.of_nat (length xs) < 2 ^ 63).

Fixpoint codec_ok (v : value) : bool :=
  match v with
  | VBool _ => true
  | VInt k z => bool_decide (is_Some (Kind.int_width k)) && int_ok k z
  | VUint k z => bool_decide (is_Some (Kind.uint_width k)) && uint_ok k z
  | VFloat32 x => inU 32 x && negb (is_nan32 x)
  | VFloat64 x => inU 64 x && negb (is_nan64 x)
  | VComplex64 re im => inU 32 re && negb (is_nan32 re) && inU 32 im && negb (is_nan32 im)
  | VComplex128 re im => inU 64 re && negb (is_nan64 re) && inU 64 im && negb (is_nan64 im)
  | VString s => bool_decide (s ≠ []) && len_ok s
  | VStruct _ fs => forallb codec_ok fs
  | VSlice et xs | VArray et xs =>
      len_ok xs && forallb (λ x, codec_ok x && bool_decide (type_of x = et)) xs
  | VMap kt et kvs =>
      len_ok kvs && bool_decide (NoDup kvs.*1) &&
      forallb (λ '(k, x), codec_ok k && codec_ok x &&
                          bool_decide (type_of k = kt) && bool_decide (type_of x = et)) kvs
  | VCustom n u x => custom_ok n u x
  | VOpaque _ => false
  end.

(** Every length in [v] is below [B], and [v] holds no named type with
    its own methods. *)
Fixpoint lens_lt (B : Z) (v : value) : bool :=
  match v with
  | VString s => bool_decide (Z.of_nat (length s) < B)
  | VStruct _ fs => forallb (lens_lt B) fs
  | VSlice _ xs | VArray _ xs => bool_decide (Z.of_nat (length xs) < B) && forallb (lens_lt B) xs
  | VMap _ _ kvs =>
      bool_decide (Z.of_nat (length kvs) < B) && forallb (λ '(k, x), lens_lt B k && lens_lt B x) kvs
  | VCustom _ _ _ => false
  | _ => true
  end.
End wire.

(** ** Facts about the generators

    [wgen_eq] proves two compositions of generators pointwise equal by
    running both on the registry and normalizing the concatenations. *)
Ltac wgen_eq :=
  let reg := fresh "reg" in
  intros reg; unfold wcat, emit; repeat case_match; simplify_eq/=;
  rewrite <- ?app_assoc, ?app_nil_r; done.

Lemma wcat_ext (f f' g g' : wgen) :
  (∀ r, f r = f' r) → (∀ r, g r = g' r) → ∀ r, wcat f g r = wcat f' g' r.
Proof. intros Hf Hg r. unfold wcat. rewrite Hf. destruct (f' r). by rewrite Hg. Qed.

Lemma lenTok_width n : 0 <= n < 2 ^ 32 → lenTok 32 n = lenTok 64 n.
Proof.
  intros Hn. unfold lenTok. rewrite Z.eqb_refl. change (64 =? 32) with false. cbv iota.
  change (2 ^ 32) with 4294967296 in *.
  rewrite !wrapU_id; [done | change (2 ^ 64) with 18446744073709551616; lia | lia].
Qed.

Section wire_facts.
Context `{FloatFormat} `{CustomWire}.

(** The equations of [wire] on the collections, with the walk over the
    elements as [wireAll] and [wireEntries]. *)
Lemma wire_struct a n fs :
  wire a (VStruct n fs) = wcat (descW (TStruct n (map type_of fs))) (wireAll a fs).
Proof. reflexivity. Qed.
Lemma wire_slice a et xs :
  wire a (VSlice et xs) =
    wcat (descW (TSlice et))
      (wcat (emit (lenTok a (Z.of_nat (length xs)) ++
                   if isCxxBoostBuiltin (typ_kind et) then [] else utok 0)) (wireAll a xs)).
Proof. reflexivity. Qed.
Lemma wire_array a et xs :
  wire a (VArray et xs) =
    wcat (descW (TArray (length xs) et)) (wcat (emit (lenTok a (Z.of_nat (length xs)))) (wireAll a xs)).
Proof. reflexivity. Qed.
Lemma wire_map a kt et kvs :
  wire a (VMap kt et kvs) =
    wcat (descW (TMap kt et))
      (wcat (emit (lenTok a (Z.of_nat (length kvs)) ++ utok 0 ++ utok 0)) (wireEntries a kvs)).
Proof. reflexivity. Qed.

Lemma wireAll_nil a : wireAll a [] = emit [].
Proof. reflexivity. Qed.
Lemma wireAll_cons a x xs : wireAll a (x :: xs) = wcat (wire a x) (wireAll a xs).
Proof. reflexivity. Qed.
Lemma wireEntries_nil a : wireEntries a [] = emit [].
Proof. reflexivity. Qed.
Lemma wireEntries_cons a k x kvs :
  wireEntries a ((k, x) :: kvs) = wcat (wire a k) (wcat (wire a x) (wireEntries a kvs)).
Proof. reflexivity. Qed.

Lemma wireAll_ext a a' xs :
  Forall (λ x, ∀ r, wire a x r = wire a' x r) xs → ∀ r, wireAll a xs r = wireAll a' xs r.
Proof. induction 1; [done|]. by apply wcat_ext. Qed.

Lemma wireEntries_ext a a' kvs :
  Forall (λ kv, (∀ r, wire a kv.1 r = wire a' kv.1 r) ∧ (∀ r, wire a kv.2 r = wire a' kv.2 r)) kvs →
  ∀ r, wireEntries a kvs r = wireEntries a' kvs r.
Proof. induction 1 as [|[k x] kvs [Hk Hx]]; [done|]. simpl in *. repeat apply wcat_ext; auto. Qed.

(** The length fields are the only bytes that depend on the profile:
    a value whose lengths are all below [2^32] has the same encoding in
    the 32-bit and the 64-bit profile. *)
Theorem wire_width v reg :
  lens_lt (2 ^ 32) v = true → wire Arch32 v reg = wire Arch64 v reg.
Proof.
  revert reg. induction v using value_nested_ind; intros reg Hl; simpl in Hl; bool_hyps.
  1-7,14: by try destruct k.
  - cbn [wire]. by rewrite lenTok_width by lia.
  - rewrite !wire_struct. apply wcat_ext; [done|]. apply (wireAll_ext _ _ fs).
    apply (Forall_impl2 _ _ _ _ H1 Hl). naive_solver.
  - rewrite !wire_slice, lenTok_width by lia. do 2 (apply wcat_ext; [done|]).
    apply (wireAll_ext _ _ xs). apply (Forall_impl2 _ _ _ _ H1 H3). naive_solver.
  - rewrite !wire_array, lenTok_width by lia. do 2 (apply wcat_ext; [done|]).
    apply (wireAll_ext _ _ xs). apply (Forall_impl2 _ _ _ _ H1 H3). naive_solver.
  - rewrite !wire_map, lenTok_width by lia. do 2 (apply wcat_ext; [done|]).
    apply (wireEntries_ext _ _ kvs). apply (Forall_impl2 _ _ _ _ H1 H3).
    intros [a b] [Ha Hb] Hab. apply andb_true_iff in Hab as [? ?]. naive_solver.
  - discriminate.
Qed.
End wire_facts.
