(* ===== verification/RBuffer.v ===== *)
(** The primitive reader, [src/txtser/rbuffer.go]: the [RBuffer] state,
    the byte-level reads from the source, the token loop
    [readUntilDelimiter], the numeric, boolean, float, complex and string
    reads, the header read with its error mapping, and the type-descriptor
    read with its cache.  The source is a [bytes.Reader] over the remaining
    bytes ([None] is a nil [io.Reader]); a method that dereferences a nil
    reader or allocates a negative length panics ([None] result).  The
    facts include the token loop against the reference split [splitDelim],
    [Read] against [io.ReadFull]'s contract (and the [io.Reader] class it
    instantiates), the sticky error over sequences of reads, and that
    every read moves the reader along the preorder [rgrows]: same
    profile, a source that only shrinks, a registry that only grows. *)

From S2P Require Import Prelude Strconv Value Arch.

(** ** State ([type RBuffer struct]; the unused [buf] field is left out) *)
Record RBuffer := mkRBuffer {
  r_r : option (list byte);
  r_err : option error;
  r_arch : Arch;
  r_types : registry
}.

Definition set_r (x : option (list byte)) (r : RBuffer) : RBuffer :=
  mkRBuffer x (r_err r) (r_arch r) (r_types r).
Definition set_err (e : option error) (r : RBuffer) : RBuffer :=
  mkRBuffer (r_r r) e (r_arch r) (r_types r).
Definition set_types (ts : registry) (r : RBuffer) : RBuffer :=
  mkRBuffer (r_r r) (r_err r) (r_arch r) ts.

Abbreviation R := (prog RBuffer).

(** [NewRBuffer(r)] *)
Definition NewRBuffer (r : option (list byte)) : RBuffer := mkRBuffer r None 0 newRegistry.

(** [r.Err()] *)
Definition Err : R (option error) := r ← get; mret (r_err r).

(** [r.err = e] *)
Definition setErr (e : option error) : R unit := modify (set_err e).

(** [if r.err != nil { return dflt }; k] *)
Definition unlessErr {A} (dflt : A) (k : R A) : R A :=
  r ← get; match r_err r with Some _ => mret dflt | None => k end.

(** ** The source

    [r.r.Read(b)] with a one-byte [b]: [Some b] for [(1, nil)], [None] for
    [(0, io.EOF)]. *)
Definition readByte : R (option byte) := λ r,
  match r_r r with
  | None => None
  | Some [] => Some (None, r)
  | Some (b :: rest) => Some (Some b, set_r (Some rest) r)
  end.

(** [io.ReadFull(r.r, make([]byte, n))]: the bytes obtained, and [nil],
    [io.EOF] (none obtained) or [io.ErrUnexpectedEOF] (some). *)
Definition readFull (n : Z) : R (list byte * option error) := λ r,
  match r_r r with
  | None => None
  | Some inp =>
      if n <=? Z.of_nat (length inp)
      then Some ((take (Z.to_nat n) inp, None), set_r (Some (drop (Z.to_nat n) inp)) r)
      else Some ((inp, Some (if inp is [] then EOF else ErrUnexpectedEOF)), set_r (Some []) r)
  end.

(** [r.Read(p)] (lines 101-108), [n = len(p)]: the bytes read into [p],
    the count and the error. *)
Definition Read (n : Z) : R (list byte * Z * option error) :=
  r ← get;
  match r_err r with
  | Some e => mret ([], 0, Some e)
  | None => '(got, e) ← readFull n; setErr e;; mret (got, Z.of_nat (length got), e)
  end.

(** ** [readUntilDelimiter] (lines 259-286)

    The loop reads one byte at a time; [ret] holds the token so far and
    [n] the last [Read]'s count, incremented after a byte was read: it is
    [0] when the loop stopped at the end of the source, [2] when it stopped
    at a delimiter.  The result is the token, the final [n] and the bytes
    left. *)
Fixpoint delimLoop (inp : list byte) (ret : list byte) : list byte * Z * list byte :=
  match inp with
  | [] => (ret, 0, [])
  | b :: rest => if decide (b = space) then (ret, 2, rest) else delimLoop rest (ret ++ [b])
  end.

Definition readUntilDelimiter : R (list byte) :=
  unlessErr [] (
    r ← get;
    match r_r r with
    | None => panic
    | Some inp =>
        let '(ret, n, rest) := delimLoop inp [] in
        put (set_r (Some rest) r);;
        if n =? 0 then setErr (Some ErrUnexpectedEOF);; mret [] else mret ret
    end).

(** The reference reading of one token, against which the loop is
    proved: the bytes before the first delimiter and the bytes after it,
    or [None] when no delimiter is left. *)
Definition splitDelim (inp : list byte) : option (list byte * list byte) :=
  match list_find (λ b, b = space) inp with
  | Some (i, _) => Some (take i inp, drop (S i) inp)
  | None => None
  end.

(** [skipDelimiter] (lines 119-129): reads one byte straight from the
    source (no sticky check); a byte other than the delimiter is an error,
    the end of the source is not. *)
Definition skipDelimiter : R unit :=
  ob ← readByte;
  match ob with
  | Some b => if decide (b = space) then mret () else setErr (Some ErrNotADelimiter)
  | None => mret ()
  end.

(** ** Numbers (lines 142-206) *)
Definition ReadU64 : R Z :=
  unlessErr 0 (
    s ← readUntilDelimiter;
    unlessErr 0 (
      let '(v, e) := Strconv.ParseUint s in
      match e with Some err => setErr (Some err);; mret 0 | None => mret v end)).

Definition ReadU8 : R Z := v ← ReadU64; mret (wrapU 8 v).
Definition ReadU16 : R Z := v ← ReadU64; mret (wrapU 16 v).
Definition ReadU32 : R Z := v ← ReadU64; mret (wrapU 32 v).

Definition ReadI64 : R Z :=
  unlessErr 0 (
    s ← readUntilDelimiter;
    unlessErr 0 (
      let '(v, e) := Strconv.ParseInt s in
      match e with Some err => setErr (Some err);; mret 0 | None => mret v end)).

Definition ReadI8 : R Z := v ← ReadI64; mret (wrapS 8 v).
Definition ReadI16 : R Z := v ← ReadI64; mret (wrapS 16 v).
Definition ReadI32 : R Z := v ← ReadI64; mret (wrapS 32 v).

(** [ReadBool]: [switch r.ReadU8() { case 0: false; default: true }]. *)
Definition ReadBool : R bool := v ← ReadU8; mret (negb (v =? 0)).

(** ** Lengths and strings (lines 110-140)

    [readLen] returns a Go [int] (64-bit): [int(r.ReadU32())] for the
    32-bit profile, [int(r.ReadU64())], which wraps above [2^63-1],
    otherwise. *)
Definition readLen : R Z :=
  r ← get;
  if r_arch r =? 32 then ReadU32 else v ← ReadU64; mret (wrapS 64 v).

(** [ReadString]: an empty or failed length returns [""] before the
    payload and its delimiter; a negative length panics in [make]; the
    payload buffer is zero-filled where [io.ReadFull] came up short. *)
Definition ReadString : R (list byte) :=
  n ← readLen;
  r ← get;
  if (n =? 0) || bool_decide (is_Some (r_err r)) then mret []
  else if n <? 0 then panic
  else
    '(got, e) ← readFull n;
    setErr e;;
    skipDelimiter;;
    mret (got ++ replicate (Z.to_nat n - length got)%nat Byte.x00).

(** ** Header and type descriptors

    [Header.UnmarshalBoost] and [TypeDescr.UnmarshalBoost] are not among
    the staged sources; they read the records' fields in order (the header:
    its [uint16] version, then its [uint32] flags; a descriptor: its
    [uint32] version, then its [uint8] flags) and return [r.Err()]. *)
Definition Header_UnmarshalBoost : R (Header * option error) :=
  v ← ReadU16; f ← ReadU32; e ← Err; mret (mkHeader v f, e).

Definition TypeDescr_UnmarshalBoost : R (TypeDescr * option error) :=
  v ← ReadU32; f ← ReadU8; e ← Err; mret (mkTypeDescr v f, e).

(** [ReadHeader] (lines 34-83) *)
Definition ReadHeader : R Header :=
  r ← get;
  match r_r r with
  | None => setErr (Some ErrNotBoost);; mret zeroHdr
  | Some _ =>
      unlessErr zeroHdr (
        v ← ReadString;
        e ← Err;
        match e with
        | Some _ => setErr (Some ErrNotBoost);; mret zeroHdr
        | None =>
            if decide (v ≠ magicHeaderSignature) then setErr (Some ErrNotBoost);; mret zeroHdr
            else
              '(hdr, _) ← Header_UnmarshalBoost;
              e ← Err;
              match e with
              | Some _ => setErr (Some ErrInvalidHeader);; mret hdr
              | None => mret hdr
              end
        end)
  end.

(** [ReadTypeDescr] (lines 85-99): a cached descriptor is returned without
    reading; otherwise one is read and cached when no error is set. *)
Definition ReadTypeDescr (t : typ) : R TypeDescr :=
  r ← get;
  match r_types r !! t with
  | Some d => mret d
  | None =>
      '(d, _) ← TypeDescr_UnmarshalBoost;
      r ← get;
      match r_err r with
      | None => put (set_types (<[t := d]> (r_types r)) r);; mret d
      | Some _ => setErr (Some ErrInvalidTypeDescr);; mret d
      end
  end.

(** ** Floats and complex numbers (lines 208-239) *)
Section floats.
Context `{FloatFormat}.

Definition ReadF64 : R Z :=
  unlessErr 0 (
    s ← readUntilDelimiter;
    unlessErr 0 (
      let '(v, e) := ParseFloat s in
      match e with Some err => setErr (Some err);; mret 0 | None => mret v end)).

Definition ReadF32 : R Z := v ← ReadF64; mret (float32_of_64 v).

Definition ReadC64 : R (Z * Z) := v0 ← ReadF32; v1 ← ReadF32; mret (v0, v1).
Definition ReadC128 : R (Z * Z) := v0 ← ReadF64; v1 ← ReadF64; mret (v0, v1).
End floats.

(** ** Facts about the reader *)

Lemma unlessErr_ok {A} (d : A) k r : r_err r = None → unlessErr d k r = k r.
Proof. intros H. unfold unlessErr. prog_simpl. by rewrite H. Qed.

Lemma unlessErr_err {A} (d : A) k r e : r_err r = Some e → unlessErr d k r = Some (d, r).
Proof. intros H. unfold unlessErr. prog_simpl. by rewrite H. Qed.

Lemma delimLoop_token tok rest ret :
  no_space tok = true → delimLoop (tok ++ space :: rest) ret = (ret ++ tok, 2, rest).
Proof.
  revert ret. induction tok as [|b tok IH]; intros ret H; simpl in *.
  - by rewrite app_nil_r.
  - apply andb_true_iff in H as [Hb H]. apply bool_decide_eq_true in Hb.
    rewrite decide_False by done. rewrite IH by done. by rewrite <- app_assoc.
Qed.

Lemma delimLoop_eof inp ret : no_space inp = true → delimLoop inp ret = (ret ++ inp, 0, []).
Proof.
  revert ret. induction inp as [|b inp IH]; intros ret H; simpl in *.
  - by rewrite app_nil_r.
  - apply andb_true_iff in H as [Hb H]. apply bool_decide_eq_true in Hb.
    rewrite decide_False by done. rewrite IH by done. by rewrite <- app_assoc.
Qed.

(** A token followed by the delimiter is read, and the delimiter consumed. *)
Lemma readUntilDelimiter_token r tok rest :
  r_err r = None → r_r r = Some (tok ++ space :: rest) → no_space tok = true →
  readUntilDelimiter r = Some (tok, set_r (Some rest) r).
Proof.
  intros He Hr Hs. unfold readUntilDelimiter. rewrite unlessErr_ok by done.
  prog_simpl. rewrite Hr, delimLoop_token by done. done.
Qed.

(** A parse of a token read from the source: the value, or the parse
    error latched and zero. *)
Lemma parsed_token (parse : list byte → Z * option error) r tok rest v :
  r_err r = None → r_r r = Some (tok ++ space :: rest) → no_space tok = true →
  parse tok = (v, None) →
  unlessErr 0 (s ← readUntilDelimiter;
    unlessErr 0 (let '(v, e) := parse s in
                 match e with Some err => setErr (Some err);; mret 0 | None => mret v end)) r
  = Some (v, set_r (Some rest) r).
Proof.
  intros He Hr Hs Hp. rewrite unlessErr_ok by done.
  run_step (readUntilDelimiter_token r tok rest He Hr Hs).
  rewrite unlessErr_ok by done. by rewrite Hp.
Qed.

Lemma ReadU64_token r v rest :
  r_err r = None → r_r r = Some (Strconv.FormatUint v ++ space :: rest) →
  0 <= v <= Strconv.maxUint64 →
  ReadU64 r = Some (v, set_r (Some rest) r).
Proof.
  intros. apply (parsed_token _ _ (Strconv.FormatUint v)); try done.
  - apply Strconv.FormatUint_token.
  - by apply Strconv.ParseUint_FormatUint.
Qed.

Lemma ReadI64_token r z rest :
  r_err r = None → r_r r = Some (Strconv.FormatInt z ++ space :: rest) →
  - 2 ^ 63 <= z < 2 ^ 63 →
  ReadI64 r = Some (z, set_r (Some rest) r).
Proof.
  intros. apply (parsed_token _ _ (Strconv.FormatInt z)); try done.
  - apply Strconv.FormatInt_token.
  - by apply Strconv.ParseInt_FormatInt.
Qed.

Lemma set_r_r x y r : set_r x (set_r y r) = set_r x r.
Proof. done. Qed.
Lemma set_err_same e r : r_err r = e → set_err e r = r.
Proof. destruct r; simpl. by intros ->. Qed.
Lemma set_r_same x r : r_r r = x → set_r x r = r.
Proof. destruct r; simpl. by intros ->. Qed.
Lemma set_err_r e x r : set_err e (set_r x r) = set_r x (set_err e r).
Proof. done. Qed.

Lemma bind_setErr {B} e (f : unit → R B) r : (setErr e ≫= f) r = f () (set_err e r).
Proof. reflexivity. Qed.

Lemma bind_Err {B} (f : option error → R B) r : (Err ≫= f) r = f (r_err r) r.
Proof. reflexivity. Qed.

Lemma r_err_set_r x r : r_err (set_r x r) = r_err r.
Proof. done. Qed.
Lemma r_err_set_err e r : r_err (set_err e r) = e.
Proof. done. Qed.
Lemma r_r_set_r x r : r_r (set_r x r) = x.
Proof. done. Qed.

#[export] Hint Rewrite set_r_r set_err_r @bind_setErr @bind_Err r_err_set_r r_err_set_err r_r_set_r : boost_rw.

(** Go's conversions after the 64-bit parse: [uint8(v)], [int8(v)], ...
    never fail; they keep the low bits. *)
Lemma narrow_token (m : R Z) (f : Z → Z) r r' v :
  m r = Some (v, r') → (x ← m; mret (f x)) r = Some (f v, r').
Proof. intros H. by run_step H. Qed.

Lemma readLen_token r n rest :
  r_err r = None → r_r r = Some (Strconv.FormatUint n ++ space :: rest) →
  0 <= n → (if r_arch r =? 32 then n < 2 ^ 32 else n < 2 ^ 63) →
  readLen r = Some (n, set_r (Some rest) r).
Proof.
  intros He Hr Hn Hb. unfold readLen. psimpl.
  assert (Hu : ReadU64 r = Some (n, set_r (Some rest) r)).
  { apply ReadU64_token; try done. destruct (r_arch r =? 32); unfold Strconv.maxUint64; lia. }
  destruct (r_arch r =? 32).
  - unfold ReadU32. rewrite (narrow_token _ (wrapU 32) _ _ _ Hu). by rewrite wrapU_id by lia.
  - run_step Hu. psimpl. by rewrite wrapS_id by lia.
Qed.

Lemma readFull_ok r s rest :
  r_r r = Some (s ++ rest) →
  readFull (Z.of_nat (length s)) r = Some ((s, None), set_r (Some rest) r).
Proof.
  intros Hr. unfold readFull. rewrite Hr, length_app.
  rewrite (proj2 (Z.leb_le _ _)) by lia. by rewrite Nat2Z.id, take_app_length, drop_app_length.
Qed.

Lemma skipDelimiter_space r rest :
  r_r r = Some (space :: rest) → skipDelimiter r = Some ((), set_r (Some rest) r).
Proof.
  intros Hr. unfold skipDelimiter.
  assert (readByte r = Some (Some space, set_r (Some rest) r)) as Hb by (unfold readByte; by rewrite Hr).
  run_step Hb. done.
Qed.

Lemma skipDelimiter_other r b rest :
  r_r r = Some (b :: rest) → b ≠ space →
  skipDelimiter r = Some ((), set_err (Some ErrNotADelimiter) (set_r (Some rest) r)).
Proof.
  intros Hr Hb. unfold skipDelimiter.
  assert (readByte r = Some (Some b, set_r (Some rest) r)) as Hrb by (unfold readByte; by rewrite Hr).
  run_step Hrb. by rewrite decide_False.
Qed.

Lemma skipDelimiter_eof r : r_r r = Some [] → skipDelimiter r = Some ((), r).
Proof. intros Hr. unfold skipDelimiter. assert (readByte r = Some (None, r)) as Hb by (unfold readByte; by rewrite Hr). by run_step Hb. Qed.

(** [io.ReadFull] with fewer bytes left than asked for: all of them, and
    [io.EOF] when there were none, [io.ErrUnexpectedEOF] otherwise. *)
Lemma readFull_short n r inp :
  r_r r = Some inp → Z.of_nat (length inp) < n →
  readFull n r = Some ((inp, Some (if inp is [] then EOF else ErrUnexpectedEOF)), set_r (Some []) r).
Proof. intros Hr Hn. unfold readFull. rewrite Hr. by rewrite (proj2 (Z.leb_gt _ _)). Qed.

Lemma Read_err n r e : r_err r = Some e → Read n r = Some (([], 0, Some e), r).
Proof. intros He. unfold Read. psimpl. by rewrite He. Qed.

(** [r.Read(p)] with no error latched: [io.ReadFull] on the source, its
    error latched. *)
Lemma Read_full n r inp :
  r_err r = None → r_r r = Some inp →
  Read n r =
    if n <=? Z.of_nat (length inp)
    then Some ((take (Z.to_nat n) inp, Z.of_nat (length (take (Z.to_nat n) inp)), None),
               set_r (Some (drop (Z.to_nat n) inp)) r)
    else Some ((inp, Z.of_nat (length inp), Some (if inp is [] then EOF else ErrUnexpectedEOF)),
               set_err (Some (if inp is [] then EOF else ErrUnexpectedEOF)) (set_r (Some []) r)).
Proof.
  intros He Hr. unfold Read, readFull, setErr. prog_simpl. rewrite He, Hr.
  destruct (n <=? _); simpl; [by rewrite (set_err_same None) | done].
Qed.

(** A non-empty string token: its length, its bytes and the delimiter. *)
Lemma ReadString_token r s rest :
  r_err r = None → r_r r = Some (Strconv.FormatUint (Z.of_nat (length s)) ++ space :: s ++ space :: rest) →
  s ≠ [] → (if r_arch r =? 32 then Z.of_nat (length s) < 2 ^ 32 else Z.of_nat (length s) < 2 ^ 63) →
  ReadString r = Some (s, set_r (Some rest) r).
Proof.
  intros He Hr Hne Hb. unfold ReadString.
  run_step (readLen_token r _ _ He Hr ltac:(lia) Hb). psimpl. simpl.
  assert (Hl : Z.of_nat (length s) ≠ 0) by (destruct s; simpl; [done | lia]).
  rewrite He, (proj2 (Z.eqb_neq _ _) Hl), (proj2 (Z.ltb_ge _ _)) by lia. simpl.
  run_step (readFull_ok (set_r (Some (s ++ space :: rest)) r) s (space :: rest) eq_refl).
  psimpl. rewrite (set_err_same None r) by done.
  run_step (skipDelimiter_space (set_r (Some (space :: rest)) r) rest eq_refl).
  psimpl. by rewrite ?Nat2Z.id, ?Nat.sub_diag, ?app_nil_r.
Qed.

(** A token that runs into the end of the source without a delimiter is
    [io.ErrUnexpectedEOF] and is dropped, even when bytes were read: the
    loop's [n] holds the last [Read]'s count, which is 0 at the end. *)
Lemma readUntilDelimiter_unterminated r inp :
  r_err r = None → r_r r = Some inp → no_space inp = true →
  readUntilDelimiter r = Some ([], set_err (Some ErrUnexpectedEOF) (set_r (Some []) r)).
Proof.
  intros He Hr Hs. unfold readUntilDelimiter. rewrite unlessErr_ok by done.
  psimpl. rewrite Hr, delimLoop_eof by done. done.
Qed.

Lemma splitDelim_Some inp tok rest :
  splitDelim inp = Some (tok, rest) → inp = tok ++ space :: rest ∧ no_space tok = true.
Proof.
  unfold splitDelim. destruct (list_find _ inp) as [[i x]|] eqn:F; [|done]. intros [= <- <-].
  apply list_find_Some in F as (Hi & -> & Hmin). split; [by rewrite take_drop_middle|].
  rewrite no_space_Forall, Forall_forall. intros b Hb ->.
  apply list_elem_of_In, elem_of_take in Hb as (j & Hj & Hlt). by apply (Hmin j space).
Qed.

Lemma splitDelim_None inp : splitDelim inp = None → no_space inp = true.
Proof.
  unfold splitDelim. destruct (list_find _ inp) as [[i x]|] eqn:F; [done|]. intros _.
  apply no_space_Forall. by apply list_find_None in F.
Qed.

(** C9: [readUntilDelimiter] is the reference split: its byte loop, with the
    count [n] that is [0] at the end of the source, reads the token before
    the first delimiter and consumes the delimiter, and reports
    [io.ErrUnexpectedEOF] with nothing read when no delimiter is left. *)
Theorem readUntilDelimiter_split r inp :
  r_err r = None → r_r r = Some inp →
  readUntilDelimiter r =
    match splitDelim inp with
    | Some (tok, rest) => Some (tok, set_r (Some rest) r)
    | None => Some ([], set_err (Some ErrUnexpectedEOF) (set_r (Some []) r))
    end.
Proof.
  intros He Hr. destruct (splitDelim inp) as [[tok rest]|] eqn:E.
  - destruct (splitDelim_Some _ _ _ E) as [-> Hs]. by apply readUntilDelimiter_token.
  - by apply (readUntilDelimiter_unterminated r inp), splitDelim_None.
Qed.

(** A source that does not start with a digit: [ReadU64] latches an error
    (a syntax error on the first token, or [io.ErrUnexpectedEOF] when no
    delimiter is left) and returns [0]. *)
Lemma ReadU64_not_digit r b rest :
  r_err r = None → r_r r = Some (b :: rest) → Strconv.digit_val b = None →
  ∃ r', ReadU64 r = Some (0, r') ∧ is_Some (r_err r').
Proof.
  intros He Hr Hb. unfold ReadU64. rewrite unlessErr_ok by done.
  destruct (splitDelim (b :: rest)) as [[tok rest']|] eqn:E.
  - destruct (splitDelim_Some _ _ _ E) as [Heq Hs]. rewrite Heq in Hr.
    run_step (readUntilDelimiter_token r tok rest' He Hr Hs). rewrite unlessErr_ok by done.
    rewrite Strconv.ParseUint_not_digit; [by eexists; split|].
    destruct tok as [|c tok]; [done|]. simpl in Heq. injection Heq as Hc _. by subst.
  - run_step (readUntilDelimiter_unterminated r (b :: rest) He Hr (splitDelim_None _ E)).
    rewrite unlessErr_err with (e := ErrUnexpectedEOF) by done. by eexists; split.
Qed.

Lemma readLen_zero r r' : ReadU64 r = Some (0, r') → readLen r = Some (0, r').
Proof. intros H. unfold readLen, ReadU32. psimpl. destruct (_ =? 32); by run_step H. Qed.

(** A length of [0], or a failed one: [ReadString] returns [""] at once. *)
Lemma ReadString_len_zero r r' : readLen r = Some (0, r') → ReadString r = Some ([], r').
Proof. intros H. unfold ReadString. run_step H. by prog_simpl. Qed.

Lemma ReadU64_unterminated r inp :
  r_err r = None → r_r r = Some inp → no_space inp = true →
  ReadU64 r = Some (0, set_err (Some ErrUnexpectedEOF) (set_r (Some []) r)).
Proof.
  intros He Hr Hs. unfold ReadU64. rewrite unlessErr_ok by done.
  run_step (readUntilDelimiter_unterminated r inp He Hr Hs). by apply unlessErr_err with ErrUnexpectedEOF.
Qed.

(** A byte string cut somewhere in [t ␣ rest], [t] without delimiter: the
    cut is inside [t] or after its delimiter. *)
Lemma app_eq_token p k t rest :
  no_space t = true → p ++ k = t ++ space :: rest →
  no_space p = true ∨ ∃ q, p = t ++ space :: q ∧ q ++ k = rest.
Proof.
  revert p. induction t as [|c t IH]; intros p Ht Hpk.
  - destruct p as [|b p]; [by left|]. right. injection Hpk as -> Hq. by exists p.
  - destruct p as [|b p]; [by left|]. simpl in Ht. apply andb_true_iff in Ht as [Hc Ht].
    injection Hpk as -> Hpk. destruct (IH p Ht Hpk) as [Hp | (q & -> & Hq)].
    + left. simpl. by rewrite Hc, Hp.
    + right. by exists q.
Qed.

(** C31: [ReadU8], [ReadU16] and [ReadU32] are [uint8(r.ReadU64())],
    [uint16(...)] and [uint32(...)]: each returns the token's value modulo
    [2^8], [2^16] and [2^32] respectively, and consumes the token. *)
Theorem ReadU_narrow r v rest :
  r_err r = None → r_r r = Some (Strconv.FormatUint v ++ space :: rest) →
  0 <= v <= Strconv.maxUint64 →
  ReadU8 r = Some (v mod 256, set_r (Some rest) r) ∧
  ReadU16 r = Some (v mod 65536, set_r (Some rest) r) ∧
  ReadU32 r = Some (v mod 4294967296, set_r (Some rest) r).
Proof.
  intros He Hr Hv. pose proof (ReadU64_token r v rest He Hr Hv) as H.
  unfold ReadU8, ReadU16, ReadU32. split_and!; by rewrite (narrow_token _ _ _ _ _ H).
Qed.

(** C32: [ReadI8], [ReadI16] and [ReadI32] are [int8(r.ReadI64())],
    [int16(...)] and [int32(...)]: each returns the token's value wrapped
    to 8-, 16- and 32-bit two's complement respectively. *)
Theorem ReadI_narrow r z rest :
  r_err r = None → r_r r = Some (Strconv.FormatInt z ++ space :: rest) →
  - 2 ^ 63 <= z < 2 ^ 63 →
  ReadI8 r = Some ((z + 128) mod 256 - 128, set_r (Some rest) r) ∧
  ReadI16 r = Some ((z + 32768) mod 65536 - 32768, set_r (Some rest) r) ∧
  ReadI32 r = Some ((z + 2147483648) mod 4294967296 - 2147483648, set_r (Some rest) r).
Proof.
  intros He Hr Hz. pose proof (ReadI64_token r z rest He Hr Hz) as H.
  unfold ReadI8, ReadI16, ReadI32. split_and!; by rewrite (narrow_token _ _ _ _ _ H).
Qed.

(** C30: [ReadBool] tests the [uint8] narrowing of the token, not the token. *)
Lemma ReadBool_token r v rest :
  r_err r = None → r_r r = Some (Strconv.FormatUint v ++ space :: rest) →
  0 <= v <= Strconv.maxUint64 →
  ReadBool r = Some (negb (wrapU 8 v =? 0), set_r (Some rest) r).
Proof. intros. unfold ReadBool, ReadU8. rewrite bind_assoc. run_step (ReadU64_token r v rest H H0 H1). done. Qed.

(** C26: The length token of a string is read as a Go [int]: from [2^63] up it
    wraps negative and [make([]byte, n)] panics. *)
Lemma ReadString_negative_len r v rest :
  r_err r = None → r_r r = Some (Strconv.FormatUint v ++ space :: rest) →
  r_arch r ≠ 32 → 2 ^ 63 <= v <= Strconv.maxUint64 →
  ReadString r = None.
Proof.
  intros He Hr Ha Hv. unfold ReadString, readLen. psimpl.
  rewrite (proj2 (Z.eqb_neq _ _) Ha). psimpl. run_step (ReadU64_token r v rest He Hr ltac:(lia)).
  psimpl. simpl. rewrite He.
  assert (wrapS 64 v = v - 2 ^ 64) as ->.
  { unfold wrapS, Strconv.maxUint64 in *. change (2 ^ (64 - 1)) with 9223372036854775808.
    change (2 ^ 64) with 18446744073709551616 in *. change (2 ^ 63) with 9223372036854775808 in *.
    replace (v + 9223372036854775808) with
      ((v + 9223372036854775808 - 18446744073709551616) + 1 * 18446744073709551616) by lia.
    rewrite Z.mod_add, Z.mod_small by lia. lia. }
  rewrite (proj2 (Z.eqb_neq _ _)), (proj2 (Z.ltb_lt _ _)) by (unfold Strconv.maxUint64 in Hv; lia).
  done.
Qed.

(** An empty string returns before its payload: the delimiter that follows
    the payload in the archive grammar is left unread. *)
Lemma ReadString_empty r rest :
  r_err r = None → r_r r = Some (Strconv.FormatUint 0 ++ space :: rest) →
  ReadString r = Some ([], set_r (Some rest) r).
Proof.
  intros He Hr. unfold ReadString.
  run_step (readLen_token r 0 rest He Hr ltac:(lia) ltac:(by destruct (_ =? 32))).
  psimpl. done.
Qed.

(** The string's trailing delimiter may be missing at the end of the
    source: running out there is not an error. *)
Lemma ReadString_eof r s :
  r_err r = None → r_r r = Some (Strconv.FormatUint (Z.of_nat (length s)) ++ space :: s) →
  s ≠ [] → (if r_arch r =? 32 then Z.of_nat (length s) < 2 ^ 32 else Z.of_nat (length s) < 2 ^ 63) →
  ReadString r = Some (s, set_r (Some []) r).
Proof.
  intros He Hr Hne Hb. unfold ReadString.
  run_step (readLen_token r _ _ He Hr ltac:(lia) Hb). psimpl. simpl.
  assert (Hl : Z.of_nat (length s) ≠ 0) by (destruct s; simpl; [done | lia]).
  rewrite He, (proj2 (Z.eqb_neq _ _) Hl), (proj2 (Z.ltb_ge _ _)) by lia. simpl.
  run_step (readFull_ok (set_r (Some s) r) s [] ltac:(by rewrite app_nil_r)).
  psimpl. rewrite (set_err_same None r) by done.
  by rewrite ?Nat2Z.id, ?Nat.sub_diag, ?app_nil_r.
Qed.

(** C10: [r.Read(p)] keeps [io.Reader]'s contract: with no error latched it
    fills [p] from the source as [io.ReadFull] does, returning the bytes
    read and their count; the error is [nil] exactly when the source held
    [len(p)] bytes, [io.EOF] when it was empty and [io.ErrUnexpectedEOF]
    when it came up short; the error is latched and every later [Read]
    returns it with nothing read. *)
Theorem Read_contract r inp n :
  r_err r = None → r_r r = Some inp → 0 <= n →
  ∃ got e r', Read n r = Some ((got, Z.of_nat (length got), e), r') ∧
    got = take (Z.to_nat n) inp ∧ r_r r' = Some (drop (length got) inp) ∧ r_err r' = e ∧
    r_arch r' = r_arch r ∧ r_types r' = r_types r ∧
    (e = None ↔ n <= Z.of_nat (length inp)) ∧
    (e = None ∨ e = Some (if inp is [] then EOF else ErrUnexpectedEOF)) ∧
    (∀ m err, e = Some err → Read m r' = Some (([], 0, Some err), r')).
Proof.
  intros He Hr Hn. rewrite (Read_full n r inp He Hr).
  destruct (Z.leb_spec n (Z.of_nat (length inp))) as [Hle | Hlt].
  - eexists _, None, _. split_and!; try done; [| by left].
    by rewrite length_take_le by lia.
  - rewrite take_ge by lia. eexists _, _, _. split_and!; try done.
    + by rewrite drop_all.
    + split; [done | lia].
    + by right.
    + intros m err [= <-]. by apply Read_err.
Qed.

(** The two ways [r.Read(p)] returns: the latched error with nothing
    read, or [io.ReadFull] on the source. *)
Lemma Read_cases n r got k e r' :
  Read n r = Some ((got, k, e), r') →
  (∃ err, r_err r = Some err ∧ got = [] ∧ k = 0 ∧ e = Some err ∧ r' = r) ∨
  (∃ inp, r_err r = None ∧ r_r r = Some inp ∧ got = take (Z.to_nat n) inp ∧
          k = Z.of_nat (length got) ∧ (e = None ↔ n <= Z.of_nat (length inp))).
Proof.
  destruct (r_err r) as [err|] eqn:He.
  - rewrite (Read_err n r err He). intros [= <- <- <- <-]. left. by exists err.
  - destruct (r_r r) as [inp|] eqn:Hr; [| unfold Read, readFull; prog_simpl; by rewrite He, Hr].
    rewrite (Read_full n r inp He Hr). intros H. right. exists inp.
    destruct (Z.leb_spec n (Z.of_nat (length inp))); simplify_eq.
    + split_and!; done.
    + split_and!; try done; [by rewrite take_ge by lia | split; [done | lia]].
Qed.

(** The assertion of lines 288-290, [var _ io.Reader = ...]: a pointer
    to [RBuffer] is an [io.Reader].  The interface's method, and the part of its contract
    callers rely on: the count is the number of bytes placed in [p], at
    most [len(p)]. *)
Class IOReader (S : Type) := io_read : Z → prog S (list byte * Z * option error).
Class IOReaderLaws (S : Type) `{!IOReader S} :=
  io_read_count : ∀ n s got k e s', 0 <= n → io_read n s = Some ((got, k, e), s') →
    k = Z.of_nat (length got) ∧ 0 <= k <= n.

#[export] Instance RBuffer_IOReader : IOReader RBuffer := Read.

#[export] Instance RBuffer_IOReaderLaws : IOReaderLaws RBuffer.
Proof.
  intros n r got k e r' Hn H. apply Read_cases in H as [(err & _ & -> & -> & _) | (inp & _ & _ & -> & -> & _)].
  - simpl. lia.
  - rewrite length_take. lia.
Qed.

(** C11: A string whose declared length runs past the end of the source
    returns [string(raw)] of the declared length: the bytes that were left,
    then zero bytes where [io.ReadFull] came up short; the error latched
    is [io.ErrUnexpectedEOF], or [io.EOF] when no byte of the payload was
    left. *)
Theorem ReadString_truncated r n s :
  r_err r = None → r_r r = Some (Strconv.FormatUint n ++ space :: s) →
  Z.of_nat (length s) < n → (if r_arch r =? 32 then n < 2 ^ 32 else n < 2 ^ 63) →
  ReadString r = Some (s ++ replicate (Z.to_nat n - length s) Byte.x00,
    set_err (Some (if s is [] then EOF else ErrUnexpectedEOF)) (set_r (Some []) r)).
Proof.
  intros He Hr Hs Hb. unfold ReadString.
  run_step (readLen_token r _ _ He Hr ltac:(lia) Hb). psimpl. simpl.
  rewrite He, (proj2 (Z.eqb_neq _ _)), (proj2 (Z.ltb_ge _ _)) by lia. simpl.
  run_step (readFull_short n (set_r (Some s) r) s eq_refl Hs). psimpl.
  by run_step (skipDelimiter_eof (set_r (Some []) (set_err (Some (if s is [] then EOF else ErrUnexpectedEOF)) r)) eq_refl).
Qed.

(** C22: An empty string breaks the stream after it: the token of an empty
    string is its length [0], its delimiter, no byte and the delimiter
    that ends every string; [ReadString] returns [""] on [n == 0] before
    [skipDelimiter] (line 133), so that last delimiter is left and the
    next number is read as an empty token and latches a syntax error,
    whatever follows in the stream. *)
Theorem empty_string_stream r rest :
  r_err r = None → r_r r = Some (Strconv.FormatUint 0 ++ space :: space :: rest) →
  (s ← ReadString; n ← ReadU64; mret (s, n)) r =
    Some (([], 0), set_err (Some (ErrNum "ParseUint" [] NumSyntax)) (set_r (Some rest) r)).
Proof.
  intros He Hr. run_step (ReadString_empty r (space :: rest) He Hr).
  assert (Hu : ReadU64 (set_r (Some (space :: rest)) r) =
                Some (0, set_err (Some (ErrNum "ParseUint" [] NumSyntax)) (set_r (Some rest) r))).
  { unfold ReadU64. rewrite unlessErr_ok by done.
    run_step (readUntilDelimiter_token (set_r (Some (space :: rest)) r) [] rest He eq_refl eq_refl).
    by rewrite unlessErr_ok. }
  by run_step Hu.
Qed.

(** C24: A final number token is read only when a delimiter follows it: the
    same digits at the end of the source are dropped with
    [io.ErrUnexpectedEOF], although the specification's grammar lets the
    last token end at the end of the stream. *)
Theorem ReadU64_final_token r v :
  r_err r = None → 0 <= v <= Strconv.maxUint64 →
  ReadU64 (set_r (Some (Strconv.FormatUint v ++ [space])) r) = Some (v, set_r (Some []) r) ∧
  ReadU64 (set_r (Some (Strconv.FormatUint v)) r) =
    Some (0, set_err (Some ErrUnexpectedEOF) (set_r (Some []) r)).
Proof.
  intros He Hv. split.
  - rewrite (ReadU64_token _ v []); [by rewrite set_r_r | done | done | done].
  - rewrite (ReadU64_unterminated _ (Strconv.FormatUint v)); [by rewrite set_r_r | done | done |].
    by apply Strconv.all_digits_no_space, Strconv.FormatUint_digits.
Qed.

(** ** Sequences of primitive reads

    The primitive reads as commands, so that properties of any sequence
    of them can be stated: the sticky error makes every read after it a
    no-op, so the error a sequence ends with is the first one raised. *)
Inductive rop :=
| OpU8 | OpU16 | OpU32 | OpU64 | OpI8 | OpI16 | OpI32 | OpI64
| OpBool | OpF32 | OpF64 | OpC64 | OpC128 | OpString.

Inductive rval := RZ (z : Z) | RB (b : bool) | RC (re im : Z) | RS (s : list byte).

Definition rop_zero (o : rop) : rval :=
  match o with
  | OpBool => RB false
  | OpC64 | OpC128 => RC 0 0
  | OpString => RS []
  | _ => RZ 0
  end.

Section rops.
Context `{FloatFormat}.

Definition run_rop (o : rop) : R rval :=
  match o with
  | OpU8 => RZ <$> ReadU8 | OpU16 => RZ <$> ReadU16 | OpU32 => RZ <$> ReadU32
  | OpU64 => RZ <$> ReadU64 | OpI8 => RZ <$> ReadI8 | OpI16 => RZ <$> ReadI16
  | OpI32 => RZ <$> ReadI32 | OpI64 => RZ <$> ReadI64 | OpBool => RB <$> ReadBool
  | OpF32 => RZ <$> ReadF32 | OpF64 => RZ <$> ReadF64
  | OpC64 => (λ '(a, b), RC a b) <$> ReadC64 | OpC128 => (λ '(a, b), RC a b) <$> ReadC128
  | OpString => RS <$> ReadString
  end.

Fixpoint run_rops (ops : list rop) : R (list rval) :=
  match ops with
  | [] => mret []
  | o :: ops' => v ← run_rop o; vs ← run_rops ops'; mret (v :: vs)
  end.
End rops.

Section sticky.
Context `{FloatFormatLaws}.

Lemma ReadU64_sticky r e : r_err r = Some e → ReadU64 r = Some (0, r).
Proof. apply unlessErr_err. Qed.
Lemma ReadI64_sticky r e : r_err r = Some e → ReadI64 r = Some (0, r).
Proof. apply unlessErr_err. Qed.
Lemma ReadF64_sticky r e : r_err r = Some e → ReadF64 r = Some (0, r).
Proof. apply unlessErr_err. Qed.

Lemma readLen_sticky r e : r_err r = Some e → readLen r = Some (0, r).
Proof.
  intros He. unfold readLen, ReadU32. psimpl.
  destruct (_ =? 32); psimpl; by run_step (ReadU64_sticky r e He).
Qed.

(** Once the error is latched, a primitive read returns the zero value and
    neither consumes input nor changes the error. *)
Lemma run_rop_sticky o r e : r_err r = Some e → run_rop o r = Some (rop_zero o, r).
Proof.
  intros He. pose proof (ReadU64_sticky r e He) as HU. pose proof (ReadI64_sticky r e He) as HI.
  pose proof (ReadF64_sticky r e He) as HF.
  destruct o; simpl; unfold fmap, prog_fmap;
    repeat first [ run_step HU | run_step HI | run_step HF | progress psimpl
                 | progress unfold ReadBool, ReadC64, ReadC128, ReadU8, ReadU16, ReadU32,
                     ReadI8, ReadI16, ReadI32, ReadF32 ];
    rewrite ?float32_of_64_zero; try done.
  unfold ReadString. psimpl. run_step (readLen_sticky r e He). psimpl. by rewrite He.
Qed.

(** C12: Once the reader's error slot is set, any sequence of primitive
    reads returns zero values and leaves the reader unchanged: no byte of
    the source is consumed and the error is kept. *)
Theorem run_rops_sticky ops r e :
  r_err r = Some e → run_rops ops r = Some (rop_zero <$> ops, r).
Proof.
  intros He. induction ops as [|o ops IH]; simpl; [done|].
  run_step (run_rop_sticky o r e He). by run_step IH.
Qed.

(** C13: First error wins: when a sequence of primitive reads from a
    reader without error ends with error [e], then [e] is the error raised
    by the first read that failed, every read before it having succeeded. *)
Theorem run_rops_first_error ops r vs r' e :
  r_err r = None → run_rops ops r = Some (vs, r') → r_err r' = Some e →
  ∃ ops1 o ops2 vs1 r1 v r2,
    ops = ops1 ++ o :: ops2 ∧ run_rops ops1 r = Some (vs1, r1) ∧ r_err r1 = None ∧
    run_rop o r1 = Some (v, r2) ∧ r_err r2 = Some e.
Proof.
  revert r vs. induction ops as [|o ops IH]; intros r vs He Hrun He'; simpl in Hrun.
  - injection Hrun as <- <-. congruence.
  - apply bind_Some in Hrun as (v & r1 & Ho & Hrun).
    apply bind_Some in Hrun as (vs' & r2 & Hops & [= <- <-]).
    destruct (r_err r1) as [e1|] eqn:He1.
    + rewrite (run_rops_sticky ops r1 e1 He1) in Hops. injection Hops as <- <-.
      exists [], o, ops, [], r, v, r1. rewrite He1 in He'. by injection He' as ->.
    + destruct (IH r1 vs' He1 Hops He') as (ops1 & o' & ops2 & vs1 & r3 & v' & r4 & -> & H1 & H2 & H3 & H4).
      exists (o :: ops1), o', ops2, (v :: vs1), r3, v', r4. simpl. run_step Ho. by run_step H1.
Qed.
End sticky.

(** ** The reader on concrete input *)
(** ** Numbers past [uint64] and the descriptor cache *)

(** C25: [ReadU64] on a decimal token is the reference reading: the number the
    digits denote when it fits [uint64], and otherwise the range error of
    [strconv.ParseUint] latched with the result [0]. *)
Theorem ReadU64_digits r tok rest :
  r_err r = None → r_r r = Some (tok ++ space :: rest) → tok ≠ [] → Strconv.all_digits tok = true →
  ReadU64 r =
    if Strconv.dec_value tok 0 <=? Strconv.maxUint64
    then Some (Strconv.dec_value tok 0, set_r (Some rest) r)
    else Some (0, set_err (Some (Strconv.rangeError "ParseUint" tok)) (set_r (Some rest) r)).
Proof.
  intros He Hr Hne Hd. unfold ReadU64. rewrite unlessErr_ok by done.
  run_step (readUntilDelimiter_token r tok rest He Hr (Strconv.all_digits_no_space _ Hd)).
  rewrite unlessErr_ok by done. rewrite Strconv.ParseUint_digits by done.
  by destruct (_ <=? _); psimpl.
Qed.

(** A type already described is read from the cache, without a byte. *)
Lemma ReadTypeDescr_cached r t d : r_types r !! t = Some d → ReadTypeDescr t r = Some (d, r).
Proof. intros Hd. unfold ReadTypeDescr. psimpl. by rewrite Hd. Qed.

(** C27: [ReadTypeDescr] replaces an error already latched by
    [ErrInvalidTypeDescr] when the type is not cached: the descriptor
    read fails on the sticky slot and its failure is latched over the
    first error, against "first error wins". *)
Theorem ReadTypeDescr_overwrites r t e :
  r_err r = Some e → r_types r !! t = None →
  ReadTypeDescr t r = Some (mkTypeDescr 0 0, set_err (Some ErrInvalidTypeDescr) r).
Proof.
  intros He Ht. unfold ReadTypeDescr, TypeDescr_UnmarshalBoost, ReadU32, ReadU8. psimpl. rewrite Ht.
  rewrite !bind_assoc. run_step (ReadU64_sticky r e He). psimpl.
  run_step (ReadU64_sticky r e He). psimpl. simpl. by rewrite He.
Qed.

(** C28: [ReadHeader] on a nil reader sets [ErrNotBoost] before it looks at
    [r.err] (lines 36-38): an error already latched is replaced, against
    the specification's "first error wins". *)
Theorem ReadHeader_nil_overwrites r e :
  r_r r = None → r_err r = Some e → ReadHeader r = Some (zeroHdr, set_err (Some ErrNotBoost) r).
Proof. intros Hr _. unfold ReadHeader. psimpl. by rewrite Hr. Qed.

(** C29: A string payload followed by a byte other than the delimiter:
    [skipDelimiter] latches [ErrNotADelimiter] after consuming that byte,
    and [ReadString] still returns the payload. *)
Theorem ReadString_not_delimiter r s b rest :
  r_err r = None → r_r r = Some (Strconv.FormatUint (Z.of_nat (length s)) ++ space :: s ++ b :: rest) →
  s ≠ [] → b ≠ space →
  (if r_arch r =? 32 then Z.of_nat (length s) < 2 ^ 32 else Z.of_nat (length s) < 2 ^ 63) →
  ReadString r = Some (s, set_err (Some ErrNotADelimiter) (set_r (Some rest) r)).
Proof.
  intros He Hr Hne Hb Hl. unfold ReadString.
  run_step (readLen_token r _ _ He Hr ltac:(lia) Hl). psimpl. simpl.
  assert (Hz : Z.of_nat (length s) ≠ 0) by (destruct s; simpl; [done | lia]).
  rewrite He, (proj2 (Z.eqb_neq _ _) Hz), (proj2 (Z.ltb_ge _ _)) by lia. simpl.
  run_step (readFull_ok (set_r (Some (s ++ b :: rest)) r) s (b :: rest) eq_refl).
  psimpl. rewrite (set_err_same None r) by done.
  run_step (skipDelimiter_other (set_r (Some (b :: rest)) r) b rest eq_refl Hb).
  psimpl. by rewrite ?Nat2Z.id, ?Nat.sub_diag, ?app_nil_r.
Qed.

(** ** The reader only moves forward

    [rgrows r r']: [r'] has the same profile ([r.arch] is never assigned:
    the detection of [ReadHeader] is commented out, line 57), every type
    [r] has a descriptor for, and what is left of the source is a suffix
    of what [r] had left.  Every read [follows] it. *)
Definition rgrows (r r' : RBuffer) : Prop :=
  r_arch r' = r_arch r ∧
  (∀ t, is_Some (r_types r !! t) → is_Some (r_types r' !! t)) ∧
  (∀ inp, r_r r = Some inp → ∃ inp', r_r r' = Some inp' ∧ inp' `suffix_of` inp).

#[export] Instance rgrows_preorder : PreOrder rgrows.
Proof.
  split.
  - intros r. split_and!; [done | done |]. intros inp ->. by exists inp.
  - intros r1 r2 r3 (Ha1 & Ht1 & Hs1) (Ha2 & Ht2 & Hs2). split_and!; [congruence | eauto |].
    intros inp Hr. destruct (Hs1 inp Hr) as (i2 & Hr2 & Hs). destruct (Hs2 i2 Hr2) as (i3 & Hr3 & Hs').
    exists i3. split; [done | by etrans].
Qed.

Lemma rgrows_set_err e r : rgrows r (set_err e r).
Proof. split_and!; [done | done |]. intros inp Hr. by exists inp. Qed.

Lemma rgrows_set_r r inp rest : r_r r = Some inp → rest `suffix_of` inp → rgrows r (set_r (Some rest) r).
Proof. intros Hr Hs. split_and!; [done | done |]. intros ? Hr'. rewrite Hr in Hr'. simplify_eq. by exists rest. Qed.

Lemma delimLoop_suffix inp ret : (delimLoop inp ret).2 `suffix_of` inp.
Proof.
  revert ret. induction inp as [|b inp IH]; intros ret; simpl; [done|].
  case_decide; [by apply suffix_cons_r|]. apply suffix_cons_r, IH.
Qed.

Lemma setErr_follows e : follows rgrows (setErr e).
Proof. intros r a r' [= _ <-]. apply rgrows_set_err. Qed.

Lemma unlessErr_follows {A} (d : A) k : follows rgrows k → follows rgrows (unlessErr d k).
Proof. intros Hk. unfold unlessErr. follows_tac. Qed.

Lemma readUntilDelimiter_follows : follows rgrows readUntilDelimiter.
Proof.
  apply unlessErr_follows. intros r b r' H. rewrite bind_get in H.
  destruct (r_r r) as [inp|] eqn:Hr; [|done]. pose proof (delimLoop_suffix inp []) as Hs.
  destruct (delimLoop inp []) as [[t n] rest]. rewrite bind_put in H.
  assert (Hg : rgrows r (set_r (Some rest) r)) by (by eapply rgrows_set_r).
  case_match; [rewrite bind_setErr in H|]; ret_inv H; [etrans; [exact Hg | apply rgrows_set_err] | exact Hg].
Qed.

Lemma readFull_follows n : follows rgrows (readFull n).
Proof.
  intros r b r' H. unfold readFull in H. destruct (r_r r) as [inp|] eqn:Hr; [|done].
  case_match; simplify_eq; eapply rgrows_set_r; eauto using suffix_drop, suffix_nil.
Qed.

Lemma readByte_follows : follows rgrows readByte.
Proof.
  intros r b r' H. unfold readByte in H. destruct (r_r r) as [[|c inp]|] eqn:Hr; simplify_eq; [reflexivity|].
  eapply rgrows_set_r; [done | by apply suffix_cons_r].
Qed.

#[export] Hint Resolve setErr_follows unlessErr_follows readUntilDelimiter_follows readFull_follows
  readByte_follows : boost.

(** [follows_tac] through the sticky checks of the reader. *)
Ltac rfollows_tac := repeat (progress (follows_tac; try apply unlessErr_follows)).

(** The reads built on them. *)
Lemma ReadU64_follows : follows rgrows ReadU64.
Proof. unfold ReadU64. rfollows_tac. Qed.
Lemma ReadI64_follows : follows rgrows ReadI64.
Proof. unfold ReadI64. rfollows_tac. Qed.
#[export] Hint Resolve ReadU64_follows ReadI64_follows : boost.

Lemma readLen_follows : follows rgrows readLen.
Proof. unfold readLen, ReadU32. rfollows_tac. Qed.
#[export] Hint Resolve readLen_follows : boost.
Lemma ReadString_follows : follows rgrows ReadString.
Proof. unfold ReadString, skipDelimiter. rfollows_tac. Qed.
Lemma Err_follows : follows rgrows Err.
Proof. unfold Err. follows_tac. Qed.
#[export] Hint Resolve ReadString_follows Err_follows : boost.

Lemma ReadHeader_follows : follows rgrows ReadHeader.
Proof. unfold ReadHeader, Header_UnmarshalBoost, ReadU16, ReadU32. rfollows_tac. Qed.

Lemma TypeDescr_UnmarshalBoost_follows : follows rgrows TypeDescr_UnmarshalBoost.
Proof. unfold TypeDescr_UnmarshalBoost, ReadU32, ReadU8. rfollows_tac. Qed.

(** A descriptor read records the type: the registry's domain grows. *)
Lemma ReadTypeDescr_follows t : follows rgrows (ReadTypeDescr t).
Proof.
  intros r d r' H. unfold ReadTypeDescr in H. rewrite bind_get in H.
  destruct (r_types r !! t); [by ret_inv H|].
  bind_inv H. pose proof (TypeDescr_UnmarshalBoost_follows _ _ _ Hm) as H1. destruct x as [d0 e0].
  rewrite bind_get in H. destruct (r_err x0); [rewrite bind_setErr in H | rewrite bind_put in H]; ret_inv H;
    etrans; [exact H1 | apply rgrows_set_err | exact H1 |].
  split_and!; [done | | by intros inp Hr; exists inp]. intros t' Ht'. apply lookup_insert_is_Some'. by right.
Qed.

Section floats_follows.
Context `{FloatFormat}.
Lemma ReadF64_follows : follows rgrows ReadF64.
Proof. unfold ReadF64. rfollows_tac. Qed.
End floats_follows.
#[export] Hint Resolve ReadHeader_follows ReadTypeDescr_follows ReadF64_follows : boost.

Section witnesses.
#[local] Existing Instances DecimalFloat.format DecimalFloat.laws.

Definition rb (s : string) : RBuffer := NewRBuffer (Some (bytes s)).

Lemma run_rops_sticky_witness :
  r_err (set_err (Some EOF) (rb "1 ")) = Some EOF ∧
  run_rops [OpU64; OpString; OpBool] (set_err (Some EOF) (rb "1 ")) =
    Some (rop_zero <$> [OpU64; OpString; OpBool], set_err (Some EOF) (rb "1 ")).
Proof. split; [reflexivity | apply (run_rops_sticky _ _ EOF); reflexivity]. Defined.

Lemma run_rops_first_error_witness :
  ∃ ops1 o ops2 vs1 r1 v r2,
    [OpU64; OpU64; OpBool] = ops1 ++ o :: ops2 ∧ run_rops ops1 (rb "1 x 2 ") = Some (vs1, r1) ∧
    r_err r1 = None ∧ run_rop o r1 = Some (v, r2) ∧
    r_err r2 = Some (ErrNum "ParseUint" (bytes "x") NumSyntax).
Proof. eapply run_rops_first_error; vm_compute; reflexivity. Defined.

Lemma ReadU64_final_token_witness :
  ReadU64 (rb "12 ") = Some (12, set_r (Some []) (rb "")) ∧
  ReadU64 (rb "12") = Some (0, set_err (Some ErrUnexpectedEOF) (set_r (Some []) (rb ""))).
Proof. apply (ReadU64_final_token (rb "") 12); [reflexivity | unfold Strconv.maxUint64; lia]. Defined.

Lemma ReadU_narrow_witness :
  ReadU8 (rb "70000 7 ") = Some (70000 mod 256, set_r (Some (bytes "7 ")) (rb "70000 7 ")) ∧
  ReadU16 (rb "70000 7 ") = Some (70000 mod 65536, set_r (Some (bytes "7 ")) (rb "70000 7 ")) ∧
  ReadU32 (rb "70000 7 ") = Some (70000 mod 4294967296, set_r (Some (bytes "7 ")) (rb "70000 7 ")).
Proof. apply (ReadU_narrow _ 70000 (bytes "7 ")); [reflexivity | reflexivity | unfold Strconv.maxUint64; lia]. Defined.

Lemma ReadI_narrow_witness :
  ReadI8 (rb "-40000 ") = Some ((-40000 + 128) mod 256 - 128, set_r (Some []) (rb "-40000 ")) ∧
  ReadI16 (rb "-40000 ") = Some ((-40000 + 32768) mod 65536 - 32768, set_r (Some []) (rb "-40000 ")) ∧
  ReadI32 (rb "-40000 ") =
    Some ((-40000 + 2147483648) mod 4294967296 - 2147483648, set_r (Some []) (rb "-40000 ")).
Proof. apply (ReadI_narrow _ (-40000) []); [reflexivity | reflexivity | lia]. Defined.

Lemma ReadBool_token_witness :
  ReadBool (rb "256 ") = Some (false, set_r (Some []) (rb "256 ")).
Proof. apply (ReadBool_token _ 256 []); [reflexivity | reflexivity | unfold Strconv.maxUint64; lia]. Defined.

Lemma ReadString_negative_len_witness :
  ReadString (rb "9223372036854775808 abc ") = None.
Proof.
  apply (ReadString_negative_len _ 9223372036854775808 (bytes "abc "));
    [reflexivity | reflexivity | discriminate | unfold Strconv.maxUint64; lia].
Defined.
Lemma ReadU64_digits_witness :
  ReadU64 (rb "18446744073709551616 7 ") =
    Some (0, set_err (Some (Strconv.rangeError "ParseUint" (bytes "18446744073709551616")))
                     (set_r (Some (bytes "7 ")) (rb "18446744073709551616 7 "))).
Proof.
  rewrite (ReadU64_digits _ (bytes "18446744073709551616") (bytes "7 "));
    [reflexivity | reflexivity | reflexivity | discriminate | reflexivity].
Defined.

Lemma ReadTypeDescr_overwrites_witness :
  ReadTypeDescr (TKind Kind.Bool) (set_err (Some EOF) (rb "1 2 ")) =
    Some (mkTypeDescr 0 0, set_err (Some ErrInvalidTypeDescr) (set_err (Some EOF) (rb "1 2 "))).
Proof. apply (ReadTypeDescr_overwrites _ _ EOF); reflexivity. Defined.

Lemma ReadHeader_nil_overwrites_witness :
  ReadHeader (set_err (Some EOF) (NewRBuffer None)) =
    Some (zeroHdr, set_err (Some ErrNotBoost) (set_err (Some EOF) (NewRBuffer None))).
Proof. apply (ReadHeader_nil_overwrites _ EOF); reflexivity. Defined.

Lemma ReadString_not_delimiter_witness :
  ReadString (rb "3 abcX7 ") = Some (bytes "abc", set_err (Some ErrNotADelimiter) (set_r (Some (bytes "7 ")) (rb "3 abcX7 "))).
Proof.
  apply (ReadString_not_delimiter _ (bytes "abc") (Byte.x58) (bytes "7 "));
    [reflexivity | reflexivity | discriminate | discriminate | reflexivity].
Defined.
Lemma readUntilDelimiter_split_witness :
  readUntilDelimiter (rb "12 ab") =
    match splitDelim (bytes "12 ab") with
    | Some (tok, rest) => Some (tok, set_r (Some rest) (rb "12 ab"))
    | None => Some ([], set_err (Some ErrUnexpectedEOF) (set_r (Some []) (rb "12 ab")))
    end.
Proof. apply (readUntilDelimiter_split _ (bytes "12 ab")); reflexivity. Defined.

Lemma Read_contract_witness :
  ∃ got e r', Read 5 (rb "hel") = Some ((got, Z.of_nat (length got), e), r') ∧
    got = take (Z.to_nat 5) (bytes "hel") ∧ r_r r' = Some (drop (length got) (bytes "hel")) ∧
    r_err r' = e ∧ r_arch r' = r_arch (rb "hel") ∧ r_types r' = r_types (rb "hel") ∧
    (e = None ↔ 5 <= Z.of_nat (length (bytes "hel"))) ∧
    (e = None ∨ e = Some ErrUnexpectedEOF) ∧
    (∀ m err, e = Some err → Read m r' = Some (([], 0, Some err), r')).
Proof. apply (Read_contract _ (bytes "hel") 5); [reflexivity | reflexivity | lia]. Defined.

Lemma ReadString_truncated_witness :
  ReadString (rb "5 he") =
    Some (bytes "he" ++ replicate 3 Byte.x00, set_err (Some ErrUnexpectedEOF) (set_r (Some []) (rb "5 he"))).
Proof. apply (ReadString_truncated _ 5 (bytes "he")); [reflexivity | reflexivity | simpl; lia | simpl; lia]. Defined.
Lemma empty_string_stream_witness :
  (s ← ReadString; n ← ReadU64; mret (s, n)) (rb "0  1 ") =
    Some (([], 0), set_err (Some (ErrNum "ParseUint" [] NumSyntax)) (set_r (Some (bytes "1 ")) (rb "0  1 "))).
Proof. apply (empty_string_stream _ (bytes "1 ")); reflexivity. Defined.
End witnesses.
