(* ===== verification/ReadWire.v ===== *)
(** The reader against the wire format: [reads m a g] says that the read
    [m], run on a reader with no error whose source starts with the bytes
    [g] generates from the reader's registry, returns [a], consumes those
    bytes exactly and leaves the registry [g] gives.  It is stated for any
    state that holds a reader ([RView]: the reader itself, or the
    decoder's [dec.r]) and composes along [≫=], so that the decoder's
    correctness ([Decoder.Decode_wire]) is assembled from the token reads
    proved here. *)

From S2P Require Import Prelude Strconv Value Arch Wire RBuffer.

(** ** States that hold a reader *)
Class RView (S : Type) := {
  rview : S → RBuffer;
  rset : RBuffer → S → S;
  rview_rset r s : rview (rset r s) = r;
  rset_rset r r' s : rset r (rset r' s) = rset r s;
  rset_rview s : rset (rview s) s = s
}.

#[export] Instance RBuffer_view : RView RBuffer.
Proof. by refine {| rview := id; rset := λ r _, r |}. Defined.

(** The reader after the bytes before [rest] are consumed and the registry
    became [reg]. *)
Definition radv (rest : list byte) (reg : registry) (r : RBuffer) : RBuffer :=
  set_types reg (set_r (Some rest) r).

Section reads.
Context {St : Type} `{RView St}.

Definition reads {A} (m : prog St A) (a : A) (g : wgen) : Prop :=
  ∀ s rest, r_err (rview s) = None → r_arch (rview s) ≠ 32 →
    r_r (rview s) = Some ((g (r_types (rview s))).1 ++ rest) →
    m s = Some (a, rset (radv rest (g (r_types (rview s))).2 (rview s)) s).

(** The same when the value read is not used. *)
Definition skips {A} (m : prog St A) (g : wgen) : Prop :=
  ∀ s rest, r_err (rview s) = None → r_arch (rview s) ≠ 32 →
    r_r (rview s) = Some ((g (r_types (rview s))).1 ++ rest) →
    ∃ a, m s = Some (a, rset (radv rest (g (r_types (rview s))).2 (rview s)) s).

Lemma radv_same r rest : r_r r = Some rest → radv rest (r_types r) r = r.
Proof. destruct r; simpl. by intros ->. Qed.

Lemma reads_ret {A} (a : A) : reads (mret a) a (emit []).
Proof. intros s rest _ _ Hr. simpl in *. rewrite radv_same, rset_rview by done. done. Qed.

Lemma radv_err rest reg r : r_err (radv rest reg r) = r_err r.
Proof. done. Qed.
Lemma radv_arch rest reg r : r_arch (radv rest reg r) = r_arch r.
Proof. done. Qed.
Lemma radv_r rest reg r : r_r (radv rest reg r) = Some rest.
Proof. done. Qed.
Lemma radv_types rest reg r : r_types (radv rest reg r) = reg.
Proof. done. Qed.
Lemma radv_radv rest rest' reg reg' r : radv rest reg (radv rest' reg' r) = radv rest reg r.
Proof. done. Qed.

Lemma reads_bind {A B} (m : prog St A) (k : A → prog St B) a b f g :
  reads m a f → reads (k a) b g → reads (m ≫= k) b (wcat f g).
Proof.
  intros Hm Hk s rest He Ha Hr. unfold wcat in *.
  destruct (f (r_types (rview s))) as [b1 r1] eqn:Ef.
  destruct (g r1) as [b2 r2] eqn:Eg. simpl in *.
  rewrite <- app_assoc in Hr.
  rewrite (bind_step _ _ _ _ _ (Hm s (b2 ++ rest) He Ha ltac:(by rewrite Ef))), Ef. simpl.
  rewrite Hk; rewrite ?rview_rset, ?radv_err, ?radv_arch, ?radv_r, ?radv_types, ?Eg; try done.
  by rewrite rset_rset, radv_radv.
Qed.

Lemma skips_bind {A B} (m : prog St A) (k : prog St B) b f g :
  skips m f → reads k b g → reads (m;; k) b (wcat f g).
Proof.
  intros Hm Hk s rest He Ha Hr. unfold wcat in *.
  destruct (f (r_types (rview s))) as [b1 r1] eqn:Ef.
  destruct (g r1) as [b2 r2] eqn:Eg. simpl in *.
  rewrite <- app_assoc in Hr.
  destruct (Hm s (b2 ++ rest) He Ha ltac:(by rewrite Ef)) as [a Ha'].
  rewrite (bind_step _ _ _ _ _ Ha'), Ef. simpl.
  rewrite Hk; rewrite ?rview_rset, ?radv_err, ?radv_arch, ?radv_r, ?radv_types, ?Eg; try done.
  by rewrite rset_rset, radv_radv.
Qed.

Lemma reads_skips {A} (m : prog St A) a g : reads m a g → skips m g.
Proof. intros Hm s rest He Ha Hr. eexists. by apply Hm. Qed.

Lemma reads_fmap {A B} (f : A → B) (m : prog St A) a g : reads m a g → reads (f <$> m) (f a) g.
Proof. intros Hm s rest He Ha Hr. by rewrite (fmap_step _ _ _ _ _ (Hm s rest He Ha Hr)). Qed.

Lemma reads_ext {A} (m : prog St A) a g g' : (∀ reg, g reg = g' reg) → reads m a g → reads m a g'.
Proof. intros E Hm s rest. rewrite <- !E. apply Hm. Qed.

Lemma reads_ext' {A} (m : prog St A) a g g' : reads m a g → (∀ reg, g reg = g' reg) → reads m a g'.
Proof. intros Hm E. by apply (reads_ext m a g). Qed.

Lemma reads_emit_app {A} (m : prog St A) a b1 b2 :
  reads m a (wcat (emit b1) (emit b2)) → reads m a (emit (b1 ++ b2)).
Proof. done. Qed.
End reads.

(** A read of the reader itself, as a read of any state holding one. *)
Definition liftR {St} `{RView St} {A} (m : R A) : prog St A := λ s,
  match m (rview s) with
  | Some (a, r') => Some (a, rset r' s)
  | None => None
  end.

Lemma liftR_reads {St} `{RView St} {A} (m : R A) a g : reads m a g → reads (liftR m) a g.
Proof.
  intros Hm s rest He Ha Hr. unfold liftR. simpl in Hm.
  by rewrite (Hm (rview s) rest He Ha Hr).
Qed.

(** ** The token reads *)
Lemma set_types_same r : set_types (r_types r) r = r.
Proof. by destruct r. Qed.

Lemma radv_keep rest r : radv rest (r_types r) r = set_r (Some rest) r.
Proof. by destruct r. Qed.

Lemma wcat_emit_nil g reg : wcat g (emit []) reg = g reg.
Proof. unfold wcat, emit. destruct (g reg). simpl. by rewrite app_nil_r. Qed.

(** A read that returns [v] on the token [bs] and its delimiter. *)
Lemma token_reads {A} (m : R A) v bs :
  (∀ r rest, r_err r = None → r_r r = Some (bs ++ space :: rest) → m r = Some (v, set_r (Some rest) r)) →
  reads m v (emit (tok bs)).
Proof.
  intros Hm r rest He _ Hr. simpl in *. rewrite radv_keep.
  apply Hm; [done | by rewrite Hr; unfold tok; rewrite <- app_assoc].
Qed.

(** [x ← m; return f(x)]: the conversions after a read. *)
Lemma reads_conv {St A B} `{RView St} (m : prog St A) (f : A → B) a g :
  reads m a g → reads (x ← m; mret (f x)) (f a) g.
Proof.
  intros Hm. eapply reads_ext; [apply wcat_emit_nil|]. eapply reads_bind; [exact Hm | apply reads_ret].
Qed.

Lemma reads_conv_eq {St A B} `{RView St} (m : prog St A) (f : A → B) a b g :
  reads m a g → f a = b → reads (x ← m; mret (f x)) b g.
Proof. intros Hm <-. by apply reads_conv. Qed.

Lemma Err_reads : reads Err None (emit []).
Proof. intros r rest He _ Hr. unfold Err. psimpl. simpl in *. rewrite He. by rewrite radv_same. Qed.

Lemma ReadU64_reads v : 0 <= v <= Strconv.maxUint64 → reads ReadU64 v (emit (utok v)).
Proof. intros Hv. apply token_reads. intros. by apply ReadU64_token. Qed.

Lemma ReadI64_reads z : - 2 ^ 63 <= z < 2 ^ 63 → reads ReadI64 z (emit (itok z)).
Proof. intros Hz. apply token_reads. intros. by apply ReadI64_token. Qed.

Lemma readLen_reads n : 0 <= n < 2 ^ 63 → reads readLen n (emit (lenTok 64 n)).
Proof.
  intros Hn. unfold lenTok. simpl. rewrite wrapU_id by (split; [lia | etrans; [apply Hn | done]]).
  intros r rest He Ha Hr. simpl in *. rewrite radv_keep.
  apply readLen_token; try done; [by rewrite Hr; unfold utok, tok; rewrite <- app_assoc | lia |].
  rewrite (proj2 (Z.eqb_neq _ _) Ha). lia.
Qed.

Lemma ReadString_reads s :
  s ≠ [] → Z.of_nat (length s) < 2 ^ 63 →
  reads ReadString s (emit (lenTok 64 (Z.of_nat (length s)) ++ tok s)).
Proof.
  intros Hne Hl. unfold lenTok. simpl. rewrite wrapU_id by (split; [lia | etrans; [apply Hl | done]]).
  intros r rest He Ha Hr. simpl in *. rewrite radv_keep.
  apply ReadString_token; try done.
  - rewrite Hr. unfold utok, tok. by rewrite <- !app_assoc.
  - by rewrite (proj2 (Z.eqb_neq _ _) Ha).
Qed.

(** The narrowed reads ([int8(r.ReadI64())] and the like) of a value in
    range. *)
Lemma ReadI_reads w z :
  0 < w <= 64 → inS w z = true → reads (v ← ReadI64; mret (wrapS w v)) z (emit (itok (wrapS w z))).
Proof.
  intros Hw Hz. apply inS_spec in Hz. apply (reads_conv_eq _ _ (wrapS w z)); [apply ReadI64_reads |].
  - pose proof (wrapS_range w z ltac:(lia)). assert (2 ^ (w - 1) <= 2 ^ 63) by (apply Z.pow_le_mono_r; lia). lia.
  - by rewrite !(wrapS_id w z) by lia.
Qed.

Lemma ReadI_reads_in w z :
  0 < w <= 64 → inS w z = true → reads (v ← ReadI64; mret (wrapS w v)) z (emit (itok z)).
Proof.
  intros Hw Hz. pose proof (ReadI_reads w z Hw Hz) as H. apply inS_spec in Hz.
  by rewrite (wrapS_id w z) in H by lia.
Qed.

Lemma ReadU_reads w z :
  0 <= w <= 64 → inU w z = true → reads (v ← ReadU64; mret (wrapU w v)) z (emit (utok (wrapU w z))).
Proof.
  intros Hw Hz. apply inU_spec in Hz. apply (reads_conv_eq _ _ (wrapU w z)); [apply ReadU64_reads |].
  - pose proof (wrapU_range w z ltac:(lia)). assert (2 ^ w <= 2 ^ 64) by (apply Z.pow_le_mono_r; lia).
    unfold Strconv.maxUint64. lia.
  - by rewrite !(wrapU_id w z) by lia.
Qed.

Lemma ReadI64_reads_in z : inS 64 z = true → reads ReadI64 z (emit (itok z)).
Proof. intros Hz. apply inS_spec in Hz. by apply ReadI64_reads. Qed.

Lemma ReadU64_reads_in z : inU 64 z = true → reads ReadU64 z (emit (utok z)).
Proof. intros Hz. apply inU_spec in Hz. apply ReadU64_reads. unfold Strconv.maxUint64. lia. Qed.

Lemma ReadBool_reads b : reads ReadBool b (emit (utok (if b then 1 else 0))).
Proof.
  assert (H : reads ReadBool (negb (wrapU 8 (if b then 1 else 0) =? 0)) (emit (utok (if b then 1 else 0)))).
  { unfold ReadBool, ReadU8. apply (reads_conv _ (λ v, negb (v =? 0))), (reads_conv _ (wrapU 8)), ReadU64_reads.
    unfold Strconv.maxUint64. destruct b; lia. }
  by destruct b.
Qed.

Lemma ReadTypeDescr_skips t : skips (ReadTypeDescr t) (descW t).
Proof.
  intros r rest He Ha Hr. simpl in *. unfold descW in *. unfold ReadTypeDescr. psimpl.
  destruct (r_types r !! t) as [d|] eqn:E; simpl in *.
  - exists d. psimpl. by rewrite radv_same.
  - assert (Hu : reads TypeDescr_UnmarshalBoost (newTypeDescr t, None)
                   (wcat (emit (utok 0)) (wcat (emit (utok 0)) (emit [])))).
    { unfold TypeDescr_UnmarshalBoost, ReadU32, ReadU8.
      eapply reads_bind; [apply reads_conv, ReadU64_reads; unfold Strconv.maxUint64; lia|].
      eapply reads_bind; [apply reads_conv, ReadU64_reads; unfold Strconv.maxUint64; lia|].
      eapply reads_ext; [apply wcat_emit_nil|]. eapply reads_bind; [apply Err_reads | apply reads_ret]. }
    exists (newTypeDescr t).
    rewrite (bind_step _ _ _ _ _ (Hu r rest He Ha ltac:(simpl; rewrite Hr; by rewrite ?app_nil_r, ?app_assoc))). simpl.
    psimpl. simpl. rewrite He. psimpl. done.
Qed.

Section float_reads.
Context `{FloatFormatLaws}.

Lemma ReadF64_parse s v : no_space s = true → ParseFloat s = (v, None) → reads ReadF64 v (emit (tok s)).
Proof. intros Hs Hp. apply token_reads. intros. by apply (parsed_token _ _ s). Qed.

Lemma ReadF64_reads x : inU 64 x = true → is_nan64 x = false → reads ReadF64 x (emit (tok (FormatFloat64 x))).
Proof. intros. apply ReadF64_parse; [apply format64_token | by apply parse_format64]. Qed.

Lemma ReadF32_reads x : inU 32 x = true → is_nan32 x = false → reads ReadF32 x (emit (tok (FormatFloat32 x))).
Proof.
  intros Hx Hn. destruct (parse_format32 x Hx Hn) as (y & Hp & <-).
  apply reads_conv, ReadF64_parse; [apply format32_token | done].
Qed.

(** Two reads in a row and their pair. *)
Lemma reads_pair {St A} `{RView St} (m1 m2 : prog St A) a1 a2 b1 b2 :
  reads m1 a1 (emit b1) → reads m2 a2 (emit b2) →
  reads (v0 ← m1; v1 ← m2; mret (v0, v1)) (a1, a2) (emit (b1 ++ b2)).
Proof.
  intros Hm1 Hm2. apply reads_emit_app. eapply reads_bind; [exact Hm1|].
  eapply reads_ext; [apply wcat_emit_nil|]. eapply reads_bind; [exact Hm2 | apply reads_ret].
Qed.

Lemma ReadC64_reads re im :
  inU 32 re = true → is_nan32 re = false → inU 32 im = true → is_nan32 im = false →
  reads ReadC64 (re, im) (emit (tok (FormatFloat32 re) ++ tok (FormatFloat32 im))).
Proof. intros. apply reads_pair; by apply ReadF32_reads. Qed.

Lemma ReadC128_reads re im :
  inU 64 re = true → is_nan64 re = false → inU 64 im = true → is_nan64 im = false →
  reads ReadC128 (re, im) (emit (tok (FormatFloat64 re) ++ tok (FormatFloat64 im))).
Proof. intros. apply reads_pair; by apply ReadF64_reads. Qed.
End float_reads.
