(* ===== verification/WBuffer.v ===== *)
(** The primitive writer ([WBuffer]).  Its Go source is not among the
    staged files; it is modelled from the specification's token grammar:
    every number is its decimal text followed by one delimiter, a string is
    its length token (of the profile's width), its bytes and one delimiter,
    and every write goes through the sticky error slot.  The sink is a
    [bytes.Buffer] (accepts everything) or a writer that fails every write
    with a fixed error (the tests' [errWriter]).  The type-descriptor write
    caches by type like the reader's [ReadTypeDescr]. *)

From S2P Require Import Prelude Strconv Value Arch Wire.

Record WBuffer := mkWBuffer {
  w_out : list byte;
  w_sink : option error;
  w_err : option error;
  w_arch : Arch;
  w_types : registry
}.

Definition set_out (o : list byte) (w : WBuffer) : WBuffer :=
  mkWBuffer o (w_sink w) (w_err w) (w_arch w) (w_types w).
Definition set_werr (e : option error) (w : WBuffer) : WBuffer :=
  mkWBuffer (w_out w) (w_sink w) e (w_arch w) (w_types w).
Definition set_wtypes (ts : registry) (w : WBuffer) : WBuffer :=
  mkWBuffer (w_out w) (w_sink w) (w_err w) (w_arch w) ts.

Abbreviation W := (prog WBuffer).

(** [newWBuffer(w, arch)] and [NewWBuffer(w)] (64-bit profile). *)
Definition newWBuffer (sink : option error) (arch : Arch) : WBuffer :=
  mkWBuffer [] sink None arch newRegistry.
Definition NewWBuffer (sink : option error) : WBuffer := newWBuffer sink Arch64.

(** [w.Err()] *)
Definition WErr : W (option error) := w ← get; mret (w_err w).

(** [if w.err != nil { return }; k] *)
Definition wunlessErr (k : W unit) : W unit :=
  w ← get; match w_err w with Some _ => mret () | None => k end.

(** One write to the sink: the bytes are appended, or the sink's error is
    latched. *)
Definition write (bs : list byte) : W unit :=
  wunlessErr (
    w ← get;
    match w_sink w with
    | Some e => put (set_werr (Some e) w)
    | None => put (set_out (w_out w ++ bs) w)
    end).

(** [w.Write(p)] ([io.Writer]) *)
Definition WWrite (p : list byte) : W (Z * option error) :=
  write p;; w ← get;
  match w_err w with
  | None => mret (Z.of_nat (length p), None)
  | Some e => mret (0, Some e)
  end.

(** ** Numbers: the decimal text and one delimiter *)
Definition WriteU64 (v : Z) : W unit := write (Strconv.FormatUint v ++ [space]).
Definition WriteU8 (v : Z) : W unit := WriteU64 v.
Definition WriteU16 (v : Z) : W unit := WriteU64 v.
Definition WriteU32 (v : Z) : W unit := WriteU64 v.

Definition WriteI64 (v : Z) : W unit := write (Strconv.FormatInt v ++ [space]).
Definition WriteI8 (v : Z) : W unit := WriteI64 v.
Definition WriteI16 (v : Z) : W unit := WriteI64 v.
Definition WriteI32 (v : Z) : W unit := WriteI64 v.

Definition WriteBool (b : bool) : W unit := WriteU8 (if b then 1 else 0).

(** ** Lengths and strings

    [writeLen(n)]: [WriteU32(uint32(n))] for the 32-bit profile,
    [WriteU64(uint64(n))] otherwise. *)
Definition writeLen (n : Z) : W unit :=
  w ← get; if w_arch w =? 32 then WriteU32 (wrapU 32 n) else WriteU64 (wrapU 64 n).

Definition WriteString (s : list byte) : W unit :=
  writeLen (Z.of_nat (length s));; write (s ++ [space]).

(** ** Header and type descriptors *)
Definition Header_MarshalBoost (hdr : Header) : W (option error) :=
  WriteU16 (hdrVersion hdr);; WriteU32 (hdrFlags hdr);; WErr.

Definition WriteHeader (hdr : Header) : W unit := _ ← Header_MarshalBoost hdr; mret ().

Definition TypeDescr_MarshalBoost (d : TypeDescr) : W (option error) :=
  WriteU32 (tdVersion d);; WriteU8 (tdFlags d);; WErr.

(** [WriteTypeDescr(t)]: the first occurrence of a type writes its
    descriptor and records it; later ones write nothing. *)
Definition WriteTypeDescr (t : typ) : W unit :=
  w ← get;
  match w_types w !! t with
  | Some _ => mret ()
  | None =>
      let d := newTypeDescr t in
      _ ← TypeDescr_MarshalBoost d;
      w ← get;
      match w_err w with
      | None => put (set_wtypes (<[t := d]> (w_types w)) w)
      | Some _ => mret ()
      end
  end.

(** ** Floats *)
Section floats.
Context `{FloatFormat}.
Definition WriteF64 (x : Z) : W unit := write (FormatFloat64 x ++ [space]).
Definition WriteF32 (x : Z) : W unit := write (FormatFloat32 x ++ [space]).
Definition WriteC64 (re im : Z) : W unit := WriteF32 re;; WriteF32 im.
Definition WriteC128 (re im : Z) : W unit := WriteF64 re;; WriteF64 im.
End floats.

(** ** Facts about the writer

    [writing w]: the writer has no error and its sink accepts writes. *)
Definition writing (w : WBuffer) : Prop := w_err w = None ∧ w_sink w = None.

Lemma bind_write {B} bs (f : unit → W B) w :
  writing w → (write bs ≫= f) w = f () (set_out (w_out w ++ bs) w).
Proof. intros [He Hs]. unfold write, wunlessErr. psimpl. rewrite He. psimpl. by rewrite Hs. Qed.

Lemma write_ok bs w : writing w → write bs w = Some ((), set_out (w_out w ++ bs) w).
Proof. intros [He Hs]. unfold write, wunlessErr. psimpl. rewrite He. psimpl. by rewrite Hs. Qed.

Lemma writing_set_out o w : writing w → writing (set_out o w).
Proof. done. Qed.

Lemma set_out_out o1 o2 w : set_out o1 (set_out o2 w) = set_out o1 w.
Proof. done. Qed.

Lemma w_out_set_out o w : w_out (set_out o w) = o.
Proof. done. Qed.

#[export] Hint Resolve writing_set_out : boost.
#[export] Hint Rewrite set_out_out w_out_set_out : boost_rw.

(** A sticky error or a failing sink: the write appends nothing. *)
Lemma write_sticky bs w e : w_err w = Some e → write bs w = Some ((), w).
Proof. intros He. unfold write, wunlessErr. psimpl. by rewrite He. Qed.

Lemma writeLen_ok n w :
  writing w → 0 <= n < (if w_arch w =? 32 then 2 ^ 32 else 2 ^ 64) →
  writeLen n w = Some ((), set_out (w_out w ++ Strconv.FormatUint n ++ [space]) w).
Proof.
  intros Hw Hn. unfold writeLen, WriteU32, WriteU64. psimpl.
  destruct (_ =? 32); rewrite write_ok by done; by rewrite wrapU_id by lia.
Qed.

Lemma WriteString_ok s w :
  writing w → Z.of_nat (length s) < (if w_arch w =? 32 then 2 ^ 32 else 2 ^ 64) →
  WriteString s w = Some ((), set_out (w_out w ++ Strconv.FormatUint (Z.of_nat (length s)) ++ space :: s ++ [space]) w).
Proof.
  intros Hw Hn. unfold WriteString.
  run_step (writeLen_ok (Z.of_nat (length s)) w Hw ltac:(lia)).
  rewrite write_ok by auto with boost. psimpl. by rewrite <- !app_assoc.
Qed.

(** ** The writes as generators of [Wire]

    [wapply g w]: the writer after [g]'s bytes are appended and its
    registry is replaced by [g]'s. *)
Definition wapply (g : wgen) (w : WBuffer) : WBuffer :=
  let '(bs, reg) := g (w_types w) in set_wtypes reg (set_out (w_out w ++ bs) w).

Lemma wapply_emit bs w : wapply (emit bs) w = set_out (w_out w ++ bs) w.
Proof. by destruct w. Qed.

Lemma wapply_wcat f g w : wapply (wcat f g) w = wapply g (wapply f w).
Proof.
  unfold wapply, wcat. destruct (f (w_types w)) as [b1 r1]. simpl.
  destruct (g r1) as [b2 r2]. by rewrite app_assoc.
Qed.

Lemma wapply_nil w : wapply (emit []) w = w.
Proof. rewrite wapply_emit, app_nil_r. by destruct w. Qed.

Lemma writing_wapply g w : writing w → writing (wapply g w).
Proof. unfold wapply. by destruct (g (w_types w)). Qed.

Lemma w_arch_wapply g w : w_arch (wapply g w) = w_arch w.
Proof. unfold wapply. by destruct (g (w_types w)). Qed.

#[export] Hint Resolve writing_wapply : boost.
#[export] Hint Rewrite wapply_wcat w_arch_wapply : boost_rw.

Lemma write_wire bs w : writing w → write bs w = Some ((), wapply (emit bs) w).
Proof. intros. rewrite wapply_emit. by apply write_ok. Qed.

Lemma WriteU64_wire v w : writing w → WriteU64 v w = Some ((), wapply (emit (utok v)) w).
Proof. apply write_wire. Qed.

Lemma WriteI64_wire v w : writing w → WriteI64 v w = Some ((), wapply (emit (itok v)) w).
Proof. apply write_wire. Qed.

Lemma writeLen_wire n w : writing w → writeLen n w = Some ((), wapply (emit (lenTok (w_arch w) n)) w).
Proof. intros. unfold writeLen, lenTok. psimpl. by destruct (_ =? 32); apply write_wire. Qed.

(** A sequence of two writes, each appending a generator's bytes. *)
Lemma seq_wire {A B} (m : W A) (k : A → W B) f g a b w :
  m w = Some (a, wapply f w) → (∀ w', writing w' → k a w' = Some (b, wapply g w')) →
  writing w → (m ≫= k) w = Some (b, wapply (wcat f g) w).
Proof. intros Hm Hk Hw. rewrite (bind_step _ _ _ _ _ Hm), wapply_wcat. auto with boost. Qed.

Lemma wapply_emit_app b1 b2 w : wapply (emit (b1 ++ b2)) w = wapply (wcat (emit b1) (emit b2)) w.
Proof. reflexivity. Qed.

(** In the 32-bit profile a length field is [uint32(n)]: a length of
    [2^32] or more is written modulo [2^32], without an error. *)
Theorem writeLen_arch32_wraps n w :
  writing w → w_arch w = 32 →
  writeLen n w = Some ((), set_out (w_out w ++ Strconv.FormatUint (n mod 2 ^ 32) ++ [space]) w).
Proof. intros Hw Ha. rewrite writeLen_wire, wapply_emit by done. unfold lenTok. by rewrite Ha. Qed.

Lemma WriteString_wire s w :
  writing w → WriteString s w = Some ((), wapply (emit (lenTok (w_arch w) (Z.of_nat (length s)) ++ tok s)) w).
Proof.
  intros Hw. unfold WriteString. rewrite wapply_emit_app.
  apply (seq_wire _ _ _ _ () ()); [by apply writeLen_wire | intros; by apply write_wire | done].
Qed.

Lemma WriteTypeDescr_wire t w : writing w → WriteTypeDescr t w = Some ((), wapply (descW t) w).
Proof.
  intros Hw. unfold WriteTypeDescr, descW, wapply. psimpl. destruct (w_types w !! t) eqn:E.
  - psimpl. rewrite app_nil_r. by destruct w.
  - unfold TypeDescr_MarshalBoost, WriteU32, WriteU8. rewrite !bind_assoc.
    rewrite (bind_step _ _ _ _ _ (WriteU64_wire _ _ Hw)).
    rewrite bind_assoc, (bind_step _ _ _ _ _ (WriteU64_wire _ _ (writing_wapply _ _ Hw))).
    rewrite !wapply_emit. unfold WErr. psimpl.
    destruct w as [o sk er ar ty]; destruct Hw as [He Hs]; simpl in *; subst. psimpl.
    by rewrite <- app_assoc.
Qed.

Section floats_wire.
Context `{FloatFormat}.

Lemma WriteF64_wire x w : writing w → WriteF64 x w = Some ((), wapply (emit (tok (FormatFloat64 x))) w).
Proof. apply write_wire. Qed.

Lemma WriteF32_wire x w : writing w → WriteF32 x w = Some ((), wapply (emit (tok (FormatFloat32 x))) w).
Proof. apply write_wire. Qed.

Lemma WriteC64_wire re im w :
  writing w → WriteC64 re im w = Some ((), wapply (emit (tok (FormatFloat32 re) ++ tok (FormatFloat32 im))) w).
Proof.
  intros Hw. rewrite wapply_emit_app.
  apply (seq_wire _ _ _ _ () ()); [by apply WriteF32_wire | intros; by apply WriteF32_wire | done].
Qed.

Lemma WriteC128_wire re im w :
  writing w → WriteC128 re im w = Some ((), wapply (emit (tok (FormatFloat64 re) ++ tok (FormatFloat64 im))) w).
Proof.
  intros Hw. rewrite wapply_emit_app.
  apply (seq_wire _ _ _ _ () ()); [by apply WriteF64_wire | intros; by apply WriteF64_wire | done].
Qed.
End floats_wire.

Lemma writeLen_arch32_wraps_witness :
  writeLen (2 ^ 32 + 5) (newWBuffer None Arch32) =
    Some ((), set_out (bytes "5 ") (newWBuffer None Arch32)).
Proof. apply (writeLen_arch32_wraps (2 ^ 32 + 5)); [split; reflexivity | reflexivity]. Defined.
