(* ===== verification/Encoder.v ===== *)
(** The encoder, [src/txtser/encoder.go]: the [Encoder] state (its
    writer, its [Header] and the [sync.Once] flag of the header write),
    [writeHeader], and [Encode], the dispatcher that walks a value by kind
    and drives the writer, recursively for struct fields, slice and array
    elements and map entries.  A value whose type implements [Marshaler]
    is handed to its [MarshalBoost] ([Marshaler] below is that interface). *)

From S2P Require Import Prelude Strconv Value Arch Wire WBuffer.

(** [type Marshaler interface { MarshalBoost(w *WBuffer) error }]: the
    method of the named type [name] applied to its underlying value. *)
Class Marshaler := { MarshalBoost : string → value → W (option error) }.

(** ** State ([type Encoder struct]) *)
Record Encoder := mkEncoder {
  enc_w : WBuffer;
  enc_Header : Header;
  enc_hdr : bool
}.

Definition set_w (w : WBuffer) (e : Encoder) : Encoder := mkEncoder w (enc_Header e) (enc_hdr e).
Definition set_Header (h : Header) (e : Encoder) : Encoder := mkEncoder (enc_w e) h (enc_hdr e).
Definition set_hdr_done (e : Encoder) : Encoder := mkEncoder (enc_w e) (enc_Header e) true.

Abbreviation E := (prog Encoder).

(** A writer method called on [enc.w]. *)
Definition onW {A} (m : W A) : E A := λ e,
  match m (enc_w e) with
  | Some (a, w') => Some (a, set_w w' e)
  | None => None
  end.

(** [newEncoder(w, arch)] and [NewEncoder(w)] *)
Definition newEncoder (sink : option error) (arch : Arch) : Encoder :=
  mkEncoder (newWBuffer sink arch) zeroHdr false.
Definition NewEncoder (sink : option error) : Encoder := newEncoder sink Arch64.

(** [writeHeader]: a zero [Header] is replaced by the profile's default;
    then the magic signature and the header are written. *)
Definition writeHeader : E unit :=
  e ← get;
  (if decide (enc_Header e = zeroHdr)
   then put (set_Header (archHeader (w_arch (enc_w e))) e) else mret ());;
  onW (WriteString magicHeaderSignature);;
  e ← get;
  onW (WriteHeader (enc_Header e)).

(** [enc.hdr.Do(enc.writeHeader)] *)
Definition onceWriteHeader : E unit :=
  e ← get; if enc_hdr e then mret () else put (set_hdr_done e);; writeHeader.

(** [return enc.w.err] *)
Definition retErr : E (option error) := e ← get; mret (w_err (enc_w e)).

Section encode.
Context `{FloatFormat} `{Marshaler}.

(** [Encode(v)].  The results of the recursive calls are dropped, as in
    the source; an unsupported kind returns [ErrTypeNotSupported] without
    latching it. *)
Fixpoint Encode (v : value) : E (option error) :=
  let fix encodeAll (xs : list value) : E unit :=
    match xs with
    | [] => mret ()
    | x :: xs' => _ ← Encode x; encodeAll xs'
    end in
  let fix encodeEntries (kvs : list (value * value)) : E unit :=
    match kvs with
    | [] => mret ()
    | (k, x) :: kvs' => _ ← Encode k; _ ← Encode x; encodeEntries kvs'
    end in
  onceWriteHeader;;
  e ← get;
  match w_err (enc_w e) with
  | Some err => mret (Some err)
  | None =>
      match v with
      | VCustom n _ x => onW (MarshalBoost n x)
      | VBool b => onW (WriteBool b);; retErr
      | VInt Kind.Int8 z => onW (WriteI8 (wrapS 8 z));; retErr
      | VInt Kind.Int16 z => onW (WriteI16 (wrapS 16 z));; retErr
      | VInt Kind.Int32 z => onW (WriteI32 (wrapS 32 z));; retErr
      | VInt Kind.Int64 z => onW (WriteI64 z);; retErr
      | VUint Kind.Uint8 z => onW (WriteU8 (wrapU 8 z));; retErr
      | VUint Kind.Uint16 z => onW (WriteU16 (wrapU 16 z));; retErr
      | VUint Kind.Uint32 z => onW (WriteU32 (wrapU 32 z));; retErr
      | VUint Kind.Uint64 z => onW (WriteU64 z);; retErr
      | VFloat32 x => onW (WriteF32 x);; retErr
      | VFloat64 x => onW (WriteF64 x);; retErr
      | VComplex64 re im => onW (WriteC64 re im);; retErr
      | VComplex128 re im => onW (WriteC128 re im);; retErr
      | VString s => onW (WriteString s);; retErr
      | VStruct n fs =>
          onW (WriteTypeDescr (type_of v));;
          encodeAll fs;;
          retErr
      | VSlice et xs =>
          onW (WriteTypeDescr (TSlice et));;
          onW (writeLen (Z.of_nat (length xs)));;
          (if isCxxBoostBuiltin (typ_kind et) then mret () else onW (WriteU32 0));;
          encodeAll xs;;
          retErr
      | VArray et xs =>
          onW (WriteTypeDescr (TArray (length xs) et));;
          onW (writeLen (Z.of_nat (length xs)));;
          encodeAll xs;;
          retErr
      | VMap kt et kvs =>
          onW (WriteTypeDescr (TMap kt et));;
          onW (writeLen (Z.of_nat (length kvs)));;
          onW (WriteU64 0);;
          onW (WriteU8 0);;
          encodeEntries kvs;;
          retErr
      | _ => mret (Some ErrTypeNotSupported)
      end
  end.
End encode.

(** ** Facts about the encoder's plumbing *)
Lemma onW_step {A} (m : W A) e a w' :
  m (enc_w e) = Some (a, w') → onW m e = Some (a, set_w w' e).
Proof. intros H. unfold onW. by rewrite H. Qed.

Lemma enc_w_set_w w e : enc_w (set_w w e) = w.
Proof. done. Qed.
Lemma enc_Header_set_w w e : enc_Header (set_w w e) = enc_Header e.
Proof. done. Qed.
Lemma set_w_w w1 w2 e : set_w w1 (set_w w2 e) = set_w w1 e.
Proof. done. Qed.

Lemma bind_retErr {B} (f : option error → E B) e : (retErr ≫= f) e = f (w_err (enc_w e)) e.
Proof. reflexivity. Qed.

#[export] Hint Rewrite enc_w_set_w enc_Header_set_w set_w_w @bind_retErr : boost_rw.

(** The sticky-error check [Encode] makes once the header is written. *)
Abbreviation checked k :=
  (onceWriteHeader;; e ← get; match w_err (enc_w e) with Some err => mret (Some err) | None => k end).

(** ** [Encode] refines [wire]

    The walks over fields, elements and entries ([for] loops of lines
    87-89, 98-101, 107-110 and 119-123), as [Encode] runs them. *)
Section encode_wire.
Context `{FloatFormat} `{Marshaler}.

Definition encodeAll : list value → E unit :=
  fix go xs := match xs with [] => mret () | x :: xs' => _ ← Encode x; go xs' end.

Definition encodeEntries : list (value * value) → E unit :=
  fix go kvs := match kvs with [] => mret () | (k, x) :: kvs' => _ ← Encode k; _ ← Encode x; go kvs' end.

Lemma Encode_struct n fs :
  Encode (VStruct n fs) = checked (onW (WriteTypeDescr (TStruct n (map type_of fs)));; encodeAll fs;; retErr).
Proof. reflexivity. Qed.

Lemma Encode_slice et xs :
  Encode (VSlice et xs) =
    checked (onW (WriteTypeDescr (TSlice et));; onW (writeLen (Z.of_nat (length xs)));;
             (if isCxxBoostBuiltin (typ_kind et) then mret () else onW (WriteU32 0));;
             encodeAll xs;; retErr).
Proof. reflexivity. Qed.

Lemma Encode_array et xs :
  Encode (VArray et xs) =
    checked (onW (WriteTypeDescr (TArray (length xs) et));; onW (writeLen (Z.of_nat (length xs)));;
             encodeAll xs;; retErr).
Proof. reflexivity. Qed.

Lemma Encode_map kt et kvs :
  Encode (VMap kt et kvs) =
    checked (onW (WriteTypeDescr (TMap kt et));; onW (writeLen (Z.of_nat (length kvs)));;
             onW (WriteU64 0);; onW (WriteU8 0);; encodeEntries kvs;; retErr).
Proof. reflexivity. Qed.

Lemma checked_ready (k : E (option error)) e :
  enc_hdr e = true → w_err (enc_w e) = None → checked k e = k e.
Proof.
  intros Hh He. unfold onceWriteHeader. psimpl. rewrite Hh. psimpl. by rewrite He.
Qed.

Lemma onW_wire {A B} (m : W A) (k : A → E B) g a e :
  m (enc_w e) = Some (a, wapply g (enc_w e)) → (onW m ≫= k) e = k a (set_w (wapply g (enc_w e)) e).
Proof. intros Hm. by rewrite (bind_step _ _ _ _ _ (onW_step _ _ _ _ Hm)). Qed.

Lemma retErr_wire g e :
  writing (enc_w e) → retErr (set_w (wapply g (enc_w e)) e) = Some (None, set_w (wapply g (enc_w e)) e).
Proof. intros Hw. unfold retErr. psimpl. by destruct (writing_wapply g _ Hw) as [-> _]. Qed.

Lemma retErr_ok e : w_err (enc_w e) = None → retErr e = Some (None, e).
Proof. intros He. unfold retErr. psimpl. by rewrite He. Qed.

Lemma set_w_wapply_nil e : set_w (wapply (emit []) (enc_w e)) e = e.
Proof. rewrite wapply_nil. by destruct e. Qed.
End encode_wire.

#[export] Hint Rewrite @checked_ready using done : boost_rw.

(** The contract of a named type's [MarshalBoost] with [Wire]: on a
    writer that accepts writes it appends the bytes [cwire] gives and
    returns [nil]. *)
Class MarshalerLaws `{FloatFormat} `{Marshaler} `{CustomWire} := {
  marshal_wire n x w : writing w → MarshalBoost n x w = Some (None, wapply (cwire (w_arch w) n x) w)
}.

Section encode_refinement.
Context `{FloatFormat} `{Marshaler} `{CustomWire} `{!MarshalerLaws}.

Lemma enc_hdr_set_w w e : enc_hdr (set_w w e) = enc_hdr e.
Proof. done. Qed.

Lemma encodeAll_nil : encodeAll [] = mret ().
Proof. reflexivity. Qed.
Lemma encodeEntries_nil : encodeEntries [] = mret ().
Proof. reflexivity. Qed.
Lemma encodeAll_cons x xs : encodeAll (x :: xs) = (_ ← Encode x; encodeAll xs).
Proof. reflexivity. Qed.
Lemma encodeEntries_cons k x kvs :
  encodeEntries ((k, x) :: kvs) = (_ ← Encode k; _ ← Encode x; encodeEntries kvs).
Proof. reflexivity. Qed.

(** What the induction carries for each element. *)
Definition encodes (x : value) : Prop :=
  ∀ e, enc_hdr e = true → writing (enc_w e) →
    ∃ r, Encode x e = Some (r, set_w (wapply (wire (w_arch (enc_w e)) x) (enc_w e)) e).

Lemma encodeAll_wire xs e :
  Forall encodes xs → enc_hdr e = true → writing (enc_w e) →
  encodeAll xs e = Some ((), set_w (wapply (wireAll (w_arch (enc_w e)) xs) (enc_w e)) e).
Proof.
  intros Hxs. revert e. induction Hxs as [|x xs Hx Hxs IH]; intros e Hh Hw.
  - rewrite encodeAll_nil, wireAll_nil, set_w_wapply_nil. done.
  - destruct (Hx e Hh Hw) as [r Hr]. rewrite encodeAll_cons, (bind_step _ _ _ _ _ Hr).
    rewrite IH by (simpl; auto with boost). rewrite wireAll_cons. by psimpl.
Qed.

Lemma encodeEntries_wire kvs e :
  Forall (λ kv, encodes kv.1 ∧ encodes kv.2) kvs → enc_hdr e = true → writing (enc_w e) →
  encodeEntries kvs e = Some ((), set_w (wapply (wireEntries (w_arch (enc_w e)) kvs) (enc_w e)) e).
Proof.
  intros Hkvs. revert e. induction Hkvs as [|[k x] kvs [Hk Hx] Hkvs IH]; intros e Hh Hw.
  - rewrite encodeEntries_nil, wireEntries_nil, set_w_wapply_nil. done.
  - simpl in Hk, Hx. destruct (Hk e Hh Hw) as [r1 Hr1].
    rewrite encodeEntries_cons, (bind_step _ _ _ _ _ Hr1).
    edestruct Hx as [r2 Hr2]; [| | rewrite (bind_step _ _ _ _ _ Hr2)]; [done | simpl; auto with boost |].
    rewrite IH by (simpl; auto with boost). rewrite wireEntries_cons. by psimpl.
Qed.

(** One step of the dispatch that writes with [m] and returns [w.err]. *)
Lemma onW_retErr_wire (m : W unit) g e :
  writing (enc_w e) → m (enc_w e) = Some ((), wapply g (enc_w e)) →
  (onW m;; retErr) e = Some (None, set_w (wapply g (enc_w e)) e).
Proof. intros Hw Hm. rewrite (onW_wire _ _ _ _ _ Hm). by apply retErr_wire. Qed.

Ltac wstep L := erewrite onW_wire; [| apply L; simpl; auto with boost].

Lemma encodes_of xs :
  Forall (λ x, ∀ e, enc_hdr e = true → writing (enc_w e) →
     Encode x e = Some (enc_result x, set_w (wapply (wire (w_arch (enc_w e)) x) (enc_w e)) e)) xs →
  Forall encodes xs.
Proof. apply Forall_impl. intros x Hx e Hh Hw. eexists. by apply Hx. Qed.

Lemma entries_of kvs :
  Forall (λ kv,
    (∀ e, enc_hdr e = true → writing (enc_w e) →
       Encode kv.1 e = Some (enc_result kv.1, set_w (wapply (wire (w_arch (enc_w e)) kv.1) (enc_w e)) e)) ∧
    (∀ e, enc_hdr e = true → writing (enc_w e) →
       Encode kv.2 e = Some (enc_result kv.2, set_w (wapply (wire (w_arch (enc_w e)) kv.2) (enc_w e)) e))) kvs →
  Forall (λ kv, encodes kv.1 ∧ encodes kv.2) kvs.
Proof. apply Forall_impl. intros kv [Hk Hx]. split; intros e Hh Hw; eexists; auto. Qed.

Ltac all_step IH :=
  erewrite bind_step; [| apply encodeAll_wire; [exact (encodes_of _ IH) | done | simpl; auto with boost]].

Ltac enc_scalar Hw :=
  unfold WriteBool, WriteU8, WriteU16, WriteU32, WriteI8, WriteI16, WriteI32;
  first
  [ apply (onW_retErr_wire _ _ _ Hw);
    first [ apply WriteU64_wire | apply WriteI64_wire | apply WriteF32_wire | apply WriteF64_wire
          | apply WriteC64_wire | apply WriteC128_wire | apply WriteString_wire ]; done
  | psimpl; by rewrite set_w_wapply_nil ].

(** Refinement: on an encoder whose header is written and whose writer
    accepts writes, [Encode v] appends exactly the bytes [wire] gives for
    [v], updates the registry as [wire] does, and returns [enc_result v]. *)
Theorem Encode_wire v e :
  enc_hdr e = true → writing (enc_w e) →
  Encode v e = Some (enc_result v, set_w (wapply (wire (w_arch (enc_w e)) v) (enc_w e)) e).
Proof.
  revert e. induction v as [b|k z|k z|x|x|re im|re im|s|n fs IH|et xs IH|et xs IH|kt et kvs IH|n u x IH|k]
    using value_nested_ind; intros e Hh Hw; pose proof Hw as [He _].
  1-8: cbn [Encode wire enc_result]; rewrite checked_ready by done; try destruct k; enc_scalar Hw.
  - rewrite Encode_struct, checked_ready by done. wstep WriteTypeDescr_wire.
    all_step IH.
    rewrite retErr_ok by (simpl; apply writing_wapply; auto with boost).
    rewrite wire_struct. by psimpl.
  - rewrite Encode_slice, checked_ready by done. wstep WriteTypeDescr_wire. wstep writeLen_wire.
    rewrite wire_slice, !wapply_wcat, wapply_emit_app, wapply_wcat.
    destruct (isCxxBoostBuiltin (typ_kind et)); psimpl; [rewrite wapply_nil | wstep WriteU64_wire];
      all_step IH; rewrite retErr_ok by (simpl; repeat apply writing_wapply; done); by psimpl.
  - rewrite Encode_array, checked_ready by done. wstep WriteTypeDescr_wire. wstep writeLen_wire.
    all_step IH.
    rewrite retErr_ok by (simpl; repeat apply writing_wapply; done).
    rewrite wire_array. by psimpl.
  - rewrite Encode_map, checked_ready by done. wstep WriteTypeDescr_wire. wstep writeLen_wire.
    unfold WriteU8. wstep WriteU64_wire. wstep WriteU64_wire.
    erewrite bind_step; [| apply encodeEntries_wire; [exact (entries_of _ IH) | done | simpl; auto with boost]].
    rewrite retErr_ok by (simpl; repeat apply writing_wapply; done).
    rewrite wire_map, !wapply_wcat. repeat rewrite wapply_emit_app, wapply_wcat. by psimpl.
  - cbn [Encode wire enc_result]. rewrite checked_ready by done.
    rewrite (onW_step _ _ _ _ (marshal_wire _ _ _ Hw)). done.
  - cbn [Encode wire enc_result]. rewrite checked_ready by done. by rewrite set_w_wapply_nil.
Qed.
End encode_refinement.

(** ** Errors: the sticky slot, a failing sink, unsupported kinds *)
Section encode_errors.
Context `{FloatFormat} `{Marshaler}.

Lemma onceWriteHeader_done e : enc_hdr e = true → onceWriteHeader e = Some ((), e).
Proof. intros Hh. unfold onceWriteHeader. psimpl. by rewrite Hh. Qed.

Lemma checked_err (k : E (option error)) e err :
  enc_hdr e = true → w_err (enc_w e) = Some err → checked k e = Some (Some err, e).
Proof. intros Hh He. rewrite (bind_step _ _ _ _ _ (onceWriteHeader_done e Hh)). psimpl. by rewrite He. Qed.

(** Every [Encode] case starts with [checked]: a state on which every
    continuation of [checked] gives the same result gives it for every value. *)
Lemma Encode_checked v e res : (∀ k, checked k e = res) → Encode v e = res.
Proof. intros Hc. destruct v; cbn [Encode]; apply Hc. Qed.

(** C14: Once the writer's error is set, [Encode] returns it for every
    value and neither writes nor changes any state. *)
Theorem Encode_sticky v e err :
  enc_hdr e = true → w_err (enc_w e) = Some err → Encode v e = Some (Some err, e).
Proof. intros Hh He. apply Encode_checked. intros k. by apply checked_err. Qed.

(** The encoder after its header write failed on a sink that fails every
    write: the first write latched the sink's error. *)
Definition failedHeader (err : error) (a : Arch) : Encoder :=
  mkEncoder (set_werr (Some err) (newWBuffer (Some err) a)) (archHeader a) true.

Lemma onceWriteHeader_fail err a : onceWriteHeader (newEncoder (Some err) a) = Some ((), failedHeader err a).
Proof.
  unfold onceWriteHeader, writeHeader, onW, WriteString, writeLen, WriteHeader, Header_MarshalBoost,
    WriteU32, WriteU16, WriteU64, write, wunlessErr, WErr, mbind, prog_bind, mret, prog_ret, get, put.
  rewrite decide_True by done. cbn. by destruct (a =? 32).
Qed.


(** C21: An unsupported kind is an error at the top level only: [Encode]
    of a Go [int] returns [ErrTypeNotSupported], but the same value as a
    struct field is skipped without a byte written and the struct's
    [Encode] returns [nil], so the archive silently lacks the field. *)
Theorem Encode_unsupported_field n z e :
  enc_hdr e = true → writing (enc_w e) →
  Encode (VInt Kind.Int z) e = Some (Some ErrTypeNotSupported, e) ∧
  Encode (VStruct n [VInt Kind.Int z]) e =
    Some (None, set_w (wapply (descW (TStruct n [TKind Kind.Int])) (enc_w e)) e).
Proof.
  intros Hh Hw. pose proof Hw as [He _].
  assert (Hi : ∀ e', enc_hdr e' = true → w_err (enc_w e') = None →
            Encode (VInt Kind.Int z) e' = Some (Some ErrTypeNotSupported, e')).
  { intros e' Hh' He'. cbn [Encode]. by rewrite checked_ready. }
  split; [by apply Hi|].
  rewrite Encode_struct, checked_ready by done.
  rewrite (onW_wire _ _ _ _ _ (WriteTypeDescr_wire _ _ Hw)).
  pose proof (writing_wapply (descW (TStruct n [TKind Kind.Int])) _ Hw) as [He' _].
  rewrite encodeAll_cons, bind_assoc. erewrite bind_step; [| apply Hi; done].
  rewrite encodeAll_nil. psimpl. by apply retErr_ok.
Qed.
End encode_errors.

