(* ===== verification/Decoder.v ===== *)
(** The decoder.  Its Go source ([decoder.go]) is not among the staged
    files; it is modelled from the specification as the mirror of
    [Encode]: [NewDecoder] reads the header once, as the stream's first
    operation; [Decode] checks the sticky error, hands a type with an
    [Unmarshaler] to it, and otherwise reads by the destination's kind
    (descriptor, length, reserved fields, elements or entries).  Following
    the specification's error design, [ErrTypeNotSupported] and
    [ErrInvalidArrayLen] are latched, so the first error is the one
    returned.  A decoded map entry replaces an earlier one with an equal
    key ([reflect.Value.SetMapIndex]). *)

From S2P Require Import Prelude Strconv Value Arch Wire RBuffer ReadWire.

(** [type Unmarshaler interface { UnmarshalBoost(r *RBuffer) error }]:
    the method of the named type [name] with underlying type [u], reading
    its underlying value. *)
Class Unmarshaler := { UnmarshalBoost : string → typ → R (value * option error) }.

Record Decoder := mkDecoder { dec_r : RBuffer; dec_hdr : Header }.

Definition set_dr (r : RBuffer) (d : Decoder) : Decoder := mkDecoder r (dec_hdr d).

Abbreviation D := (prog Decoder).

(** A reader method called on [dec.r]. *)
Definition onR {A} (m : R A) : D A := λ d,
  match m (dec_r d) with
  | Some (a, r') => Some (a, set_dr r' d)
  | None => None
  end.

(** [NewDecoder(r)]: the header is read when the decoder is made. *)
Definition NewDecoder (src : option (list byte)) : option Decoder :=
  match ReadHeader (NewRBuffer src) with
  | Some (h, r) => Some (mkDecoder r h)
  | None => None
  end.

(** [rv.SetMapIndex(k, x)] on an association list kept in insertion
    order: an equal key has its value replaced in place. *)
Fixpoint map_set (k x : value) (kvs : list (value * value)) : list (value * value) :=
  match kvs with
  | [] => [(k, x)]
  | (k', x') :: kvs' => if decide (k = k') then (k, x) :: kvs' else (k', x') :: map_set k x kvs'
  end.

(** Latch an error: [r.err = err]. *)
Definition latch (err : error) : D unit := onR (setErr (Some err)).

Section decode.
Context `{FloatFormat} `{Unmarshaler}.

Fixpoint Decode (t : typ) : D value :=
  let fix decodeAll (ts : list typ) : D (list value) :=
    match ts with
    | [] => mret []
    | t' :: ts' => x ← Decode t'; xs ← decodeAll ts'; mret (x :: xs)
    end in
  d ← get;
  match r_err (dec_r d) with
  | Some _ => mret (zero_value t)
  | None =>
      match t with
      | TCustom n u => '(x, _) ← onR (UnmarshalBoost n u); mret (VCustom n u x)
      | TKind k =>
          match k with
          | Kind.Bool => VBool <$> onR ReadBool
          | Kind.Int8 => VInt k <$> onR ReadI8
          | Kind.Int16 => VInt k <$> onR ReadI16
          | Kind.Int32 => VInt k <$> onR ReadI32
          | Kind.Int64 => VInt k <$> onR ReadI64
          | Kind.Uint8 => VUint k <$> onR ReadU8
          | Kind.Uint16 => VUint k <$> onR ReadU16
          | Kind.Uint32 => VUint k <$> onR ReadU32
          | Kind.Uint64 => VUint k <$> onR ReadU64
          | Kind.Float32 => VFloat32 <$> onR ReadF32
          | Kind.Float64 => VFloat64 <$> onR ReadF64
          | Kind.Complex64 => '(re, im) ← onR ReadC64; mret (VComplex64 re im)
          | Kind.Complex128 => '(re, im) ← onR ReadC128; mret (VComplex128 re im)
          | Kind.String => VString <$> onR ReadString
          | _ => latch ErrTypeNotSupported;; mret (zero_value t)
          end
      | TStruct n fts =>
          onR (ReadTypeDescr t);;
          fs ← decodeAll fts;
          mret (VStruct n fs)
      | TSlice et =>
          onR (ReadTypeDescr t);;
          n ← onR readLen;
          (if isCxxBoostBuiltin (typ_kind et) then mret () else onR ReadU32;; mret ());;
          if n <? 0 then panic
          else
            xs ← (fix go (m : nat) : D (list value) :=
                    match m with
                    | O => mret []
                    | S m' => x ← Decode et; xs ← go m'; mret (x :: xs)
                    end) (Z.to_nat n);
            mret (VSlice et xs)
      | TArray len et =>
          onR (ReadTypeDescr t);;
          n ← onR readLen;
          if n =? Z.of_nat len then
            xs ← (fix go (m : nat) : D (list value) :=
                    match m with
                    | O => mret []
                    | S m' => x ← Decode et; xs ← go m'; mret (x :: xs)
                    end) len;
            mret (VArray et xs)
          else latch ErrInvalidArrayLen;; mret (zero_value t)
      | TMap kt et =>
          onR (ReadTypeDescr t);;
          n ← onR readLen;
          onR ReadU64;;
          onR ReadU8;;
          if n <? 0 then panic
          else
            kvs ← (fix go (m : nat) (acc : list (value * value)) : D (list (value * value)) :=
                     match m with
                     | O => mret acc
                     | S m' => k ← Decode kt; x ← Decode et; go m' (map_set k x acc)
                     end) (Z.to_nat n) [];
            mret (VMap kt et kvs)
      end
  end.

(** [dec.Decode(ptr)]: the value decoded and the error returned. *)
Definition DecodeValue (t : typ) : D (value * option error) :=
  v ← Decode t; d ← get; mret (v, r_err (dec_r d)).
End decode.

(** ** The loops of [Decode] and its equations *)
Section decode_eqs.
Context `{FloatFormat} `{Unmarshaler}.

Definition decodeAll : list typ → D (list value) :=
  fix go ts := match ts with [] => mret [] | t' :: ts' => x ← Decode t'; xs ← go ts'; mret (x :: xs) end.

Definition decodeN (et : typ) : nat → D (list value) :=
  fix go m := match m with O => mret [] | S m' => x ← Decode et; xs ← go m'; mret (x :: xs) end.

Definition decodeMap (kt et : typ) : nat → list (value * value) → D (list (value * value)) :=
  fix go m acc :=
    match m with O => mret acc | S m' => k ← Decode kt; x ← Decode et; go m' (map_set k x acc) end.

(** The sticky-error check at the top of [Decode]. *)
Abbreviation dchecked t k :=
  (d ← get; match r_err (dec_r d) with Some _ => mret (zero_value t) | None => k end).

Lemma Decode_struct n fts :
  Decode (TStruct n fts) =
    dchecked (TStruct n fts)
      (onR (ReadTypeDescr (TStruct n fts));; fs ← decodeAll fts; mret (VStruct n fs)).
Proof. reflexivity. Qed.

Lemma Decode_slice et :
  Decode (TSlice et) =
    dchecked (TSlice et)
      (onR (ReadTypeDescr (TSlice et));;
       n ← onR readLen;
       (if isCxxBoostBuiltin (typ_kind et) then mret () else onR ReadU32;; mret ());;
       if n <? 0 then panic else xs ← decodeN et (Z.to_nat n); mret (VSlice et xs)).
Proof. reflexivity. Qed.

Lemma Decode_array len et :
  Decode (TArray len et) =
    dchecked (TArray len et)
      (onR (ReadTypeDescr (TArray len et));;
       n ← onR readLen;
       if n =? Z.of_nat len then xs ← decodeN et len; mret (VArray et xs)
       else latch ErrInvalidArrayLen;; mret (zero_value (TArray len et))).
Proof. reflexivity. Qed.

Lemma Decode_map kt et :
  Decode (TMap kt et) =
    dchecked (TMap kt et)
      (onR (ReadTypeDescr (TMap kt et));;
       n ← onR readLen;
       onR ReadU64;; onR ReadU8;;
       if n <? 0 then panic else kvs ← decodeMap kt et (Z.to_nat n) []; mret (VMap kt et kvs)).
Proof. reflexivity. Qed.

Lemma Decode_custom n u :
  Decode (TCustom n u) =
    dchecked (TCustom n u) ('(x, _) ← onR (UnmarshalBoost n u); mret (VCustom n u x)).
Proof. reflexivity. Qed.
End decode_eqs.

(** ** [Decode] inverts [wire] *)
#[export] Instance Decoder_view : RView Decoder.
Proof. refine {| rview := dec_r; rset := set_dr |}; try done. by intros []. Defined.

Lemma onR_reads {A} (m : R A) a g : reads m a g → reads (St:=Decoder) (onR m) a g.
Proof. intros Hm. exact (liftR_reads (St:=Decoder) m a g Hm). Qed.

Lemma onR_skips {A} (m : R A) g : skips m g → skips (St:=Decoder) (onR m) g.
Proof.
  intros Hm d rest He Ha Hr. destruct (Hm (dec_r d) rest He Ha Hr) as [a Ha'].
  exists a. unfold onR. simpl. by rewrite Ha'.
Qed.

Lemma dchecked_reads {A} (z : A) (k : D A) a g :
  reads k a g → reads (d ← get; match r_err (dec_r d) with Some _ => mret z | None => k end) a g.
Proof. intros Hk d rest He Ha Hr. psimpl. simpl in He. rewrite He. by apply Hk. Qed.

(** Two reads and the value built from them. *)
Lemma reads_cons {St A B C} `{RView St} (m1 : prog St A) (m2 : prog St B) (h : A → B → C) a b f g :
  reads m1 a f → reads m2 b g → reads (x ← m1; y ← m2; mret (h x y)) (h a b) (wcat f (wcat g (emit []))).
Proof. intros. eapply reads_bind; [done|]. eapply reads_bind; [done | apply reads_ret]. Qed.

Lemma map_set_fresh k x acc : k ∉ acc.*1 → map_set k x acc = acc ++ [(k, x)].
Proof.
  induction acc as [|[k' x'] acc IH]; intros Hk; [done|]. simpl in *.
  rewrite decide_False by set_solver. rewrite IH by set_solver. done.
Qed.

(** The contract of a named type's [UnmarshalBoost] with [Wire]: it reads
    back what [cwire] writes for a value it accepts. *)
Class UnmarshalerLaws `{FloatFormat} `{Unmarshaler} `{CustomWire} := {
  unmarshal_wire n u x : custom_ok n u x = true → reads (St:=RBuffer) (UnmarshalBoost n u) (x, None) (cwire Arch64 n x)
}.

Section decode_wire.
Context `{FloatFormatLaws} `{Unmarshaler} `{CustomWire} `{!UnmarshalerLaws}.

Lemma decodeAll_reads fs :
  Forall (λ x, reads (Decode (type_of x)) x (wire Arch64 x)) fs →
  reads (decodeAll (map type_of fs)) fs (wireAll Arch64 fs).
Proof.
  induction 1 as [|x fs Hx Hfs IH]; [apply reads_ret|].
  eapply reads_ext'; [apply (reads_cons _ _ cons); [exact Hx | exact IH] | rewrite wireAll_cons; wgen_eq].
Qed.

Lemma decodeN_reads et xs :
  Forall (λ x, type_of x = et ∧ reads (Decode et) x (wire Arch64 x)) xs →
  reads (decodeN et (length xs)) xs (wireAll Arch64 xs).
Proof.
  induction 1 as [|x xs [_ Hx] Hxs IH]; [apply reads_ret|].
  eapply reads_ext'; [apply (reads_cons _ _ cons); [exact Hx | exact IH] | rewrite wireAll_cons; wgen_eq].
Qed.

Lemma decodeMap_reads kt et kvs acc :
  Forall (λ kv, reads (Decode kt) kv.1 (wire Arch64 kv.1) ∧ reads (Decode et) kv.2 (wire Arch64 kv.2)) kvs →
  NoDup ((acc ++ kvs).*1) →
  reads (decodeMap kt et (length kvs) acc) (acc ++ kvs) (wireEntries Arch64 kvs).
Proof.
  intros Hkvs. revert acc. induction Hkvs as [|[k x] kvs [Hk Hx] Hkvs IH]; intros acc Hnd.
  - rewrite app_nil_r. apply reads_ret.
  - simpl in Hk, Hx. rewrite wireEntries_cons.
    eapply reads_bind; [exact Hk|]. eapply reads_bind; [exact Hx|].
    rewrite map_set_fresh.
    + replace (acc ++ (k, x) :: kvs) with ((acc ++ [(k, x)]) ++ kvs) by by rewrite <- app_assoc.
      apply IH. by rewrite <- app_assoc.
    + rewrite fmap_app in Hnd. simpl in Hnd. apply NoDup_ListNoDup, NoDup_remove_2 in Hnd.
      rewrite list_elem_of_In. intros Hin. apply Hnd, in_or_app. by left.
Qed.

Lemma elems_reads et xs :
  Forall (λ v, codec_ok v = true → reads (Decode (type_of v)) v (wire Arch64 v)) xs →
  Forall (λ x, codec_ok x && bool_decide (type_of x = et) = true) xs →
  Forall (λ x, type_of x = et ∧ reads (Decode et) x (wire Arch64 x)) xs.
Proof. intros Hih Hb. apply (Forall_impl2 _ _ _ _ Hih Hb). intros x Hx Hxb. bool_hyps. subst. auto. Qed.

Lemma entries_reads kt et kvs :
  Forall (λ kv, (codec_ok kv.1 = true → reads (Decode (type_of kv.1)) kv.1 (wire Arch64 kv.1)) ∧
                (codec_ok kv.2 = true → reads (Decode (type_of kv.2)) kv.2 (wire Arch64 kv.2))) kvs →
  Forall (λ kv, (let '(k, x) := kv in
                 codec_ok k && codec_ok x && bool_decide (type_of k = kt) && bool_decide (type_of x = et)) = true) kvs →
  Forall (λ kv, reads (Decode kt) kv.1 (wire Arch64 kv.1) ∧ reads (Decode et) kv.2 (wire Arch64 kv.2)) kvs.
Proof.
  intros Hih Hb. apply (Forall_impl2 _ _ _ _ Hih Hb). intros [k x] [Hk Hx] Hkb. bool_hyps. subst. auto.
Qed.

(** A reserved zero field read at any width. *)
Lemma ReadU_reads_zero w : reads (v ← ReadU64; mret (wrapU w v)) (wrapU w 0) (emit (utok 0)).
Proof. apply reads_conv, ReadU64_reads. unfold Strconv.maxUint64. lia. Qed.

Ltac dscalar :=
  cbn [type_of Decode]; apply dchecked_reads;
  first [ apply reads_fmap, onR_reads | idtac ];
  unfold ReadI8, ReadI16, ReadI32, ReadU8, ReadU16, ReadU32.

(** The decoder inverts the wire format: for a value the codec supports
    ([codec_ok]), decoding its type from a reader with no error, in the
    64-bit width the reader uses, whose source starts with [wire]'s bytes
    returns the value, consumes exactly those bytes and leaves the
    registry [wire] leaves. *)
Theorem Decode_wire v : codec_ok v = true → reads (Decode (type_of v)) v (wire Arch64 v).
Proof.
  induction v as [b|k z|k z|x|x|re im|re im|s|n fs IH|et xs IH|et xs IH|kt et kvs IH|n u x IH|k]
    using value_nested_ind; intros Hok; simpl in Hok; unfold len_ok in Hok; bool_hyps.
  - dscalar. apply ReadBool_reads.
  - destruct k; simpl in *; try done; dscalar; first [apply ReadI_reads; [lia | done] | by apply ReadI64_reads_in].
  - destruct k; simpl in *; try done; dscalar; first [apply ReadU_reads; [lia | done] | by apply ReadU64_reads_in].
  - dscalar. by apply ReadF32_reads.
  - dscalar. by apply ReadF64_reads.
  - dscalar. eapply reads_ext'; [eapply reads_bind; [apply onR_reads, (ReadC64_reads re im); done | apply reads_ret] |].
    apply wcat_emit_nil.
  - dscalar. eapply reads_ext'; [eapply reads_bind; [apply onR_reads, (ReadC128_reads re im); done | apply reads_ret] |].
    apply wcat_emit_nil.
  - dscalar. by apply ReadString_reads.
  - cbn [type_of]. rewrite Decode_struct, wire_struct. apply dchecked_reads.
    eapply reads_ext'; [eapply skips_bind; [apply onR_skips, ReadTypeDescr_skips|] |].
    + eapply reads_bind; [apply decodeAll_reads | apply reads_ret].
      apply (Forall_impl2 _ _ _ _ IH Hok). naive_solver.
    + wgen_eq.
  - cbn [type_of]. rewrite Decode_slice, wire_slice. apply dchecked_reads.
    pose proof (elems_reads et xs IH ltac:(assumption)) as Hel.
    destruct (isCxxBoostBuiltin (typ_kind et)); eapply reads_ext'.
    1, 3: eapply skips_bind; [apply onR_skips, ReadTypeDescr_skips|];
      (eapply reads_bind; [apply onR_reads, (readLen_reads (Z.of_nat (length xs))); lia|]);
      (eapply skips_bind; [| rewrite (proj2 (Z.ltb_ge _ _)), Nat2Z.id by lia;
                             eapply reads_bind; [apply decodeN_reads, Hel | apply reads_ret]]).
    + eapply reads_skips, reads_ret.
    + eapply reads_skips. eapply skips_bind; [apply onR_skips; eapply reads_skips, ReadU_reads_zero | apply reads_ret].
    + wgen_eq.
    + wgen_eq.
  - cbn [type_of]. rewrite Decode_array, wire_array. apply dchecked_reads.
    eapply reads_ext'.
    { eapply skips_bind; [apply onR_skips, ReadTypeDescr_skips|].
      eapply reads_bind; [apply onR_reads, (readLen_reads (Z.of_nat (length xs))); lia|].
      rewrite Z.eqb_refl.
      eapply reads_bind; [apply decodeN_reads, (elems_reads et xs IH ltac:(assumption)) | apply reads_ret]. }
    wgen_eq.
  - cbn [type_of]. rewrite Decode_map, wire_map. apply dchecked_reads.
    eapply reads_ext'.
    { eapply skips_bind; [apply onR_skips, ReadTypeDescr_skips|].
      eapply reads_bind; [apply onR_reads, (readLen_reads (Z.of_nat (length kvs))); lia|].
      eapply skips_bind; [apply onR_skips; eapply reads_skips, (ReadU64_reads 0); unfold Strconv.maxUint64; lia|].
      eapply skips_bind; [apply onR_skips; eapply reads_skips, ReadU_reads_zero|].
      rewrite (proj2 (Z.ltb_ge _ _)), Nat2Z.id by lia.
      eapply reads_bind;
        [apply (decodeMap_reads _ _ _ [] (entries_reads kt et kvs IH ltac:(assumption))); done | apply reads_ret]. }
    wgen_eq.
  - cbn [type_of]. rewrite Decode_custom. apply dchecked_reads.
    eapply reads_ext'; [eapply reads_bind; [apply onR_reads, unmarshal_wire, Hok | apply reads_ret] |].
    apply wcat_emit_nil.
  - done.
Qed.
End decode_wire.

(** ** Errors of the decoder *)
Section decode_errors.
Context `{FloatFormat} `{Unmarshaler}.

Lemma dchecked_err {A} (z : A) (k : D A) d e :
  r_err (dec_r d) = Some e →
  (d' ← get; match r_err (dec_r d') with Some _ => mret z | None => k end) d = Some (z, d).
Proof. intros He. psimpl. by rewrite He. Qed.

Lemma Decode_err t d e : r_err (dec_r d) = Some e → Decode t d = Some (zero_value t, d).
Proof. intros He. destruct t; cbn [Decode]; by apply (dchecked_err _ _ _ e). Qed.

(** C15: Once the reader's error is set, [Decode] of any type returns the
    type's zero value without reading, and [dec.Decode] returns the error
    already latched. *)
Theorem DecodeValue_sticky t d e :
  r_err (dec_r d) = Some e → DecodeValue t d = Some ((zero_value t, Some e), d).
Proof.
  intros He. unfold DecodeValue. rewrite (bind_step _ _ _ _ _ (Decode_err t d e He)). psimpl. by rewrite He.
Qed.

(** C19: A fixed-size array whose length field differs from the
    destination's length: [Decode] reads the descriptor and the length,
    latches [ErrInvalidArrayLen], reads no element and returns the zero
    array. *)
Theorem Decode_array_len len et d n rest :
  r_err (dec_r d) = None → r_arch (dec_r d) ≠ 32 →
  r_r (dec_r d) = Some ((descW (TArray len et) (r_types (dec_r d))).1 ++ lenTok 64 n ++ rest) →
  0 <= n < 2 ^ 63 → n ≠ Z.of_nat len →
  Decode (TArray len et) d =
    Some (zero_value (TArray len et),
          set_dr (set_err (Some ErrInvalidArrayLen)
                   (radv rest (descW (TArray len et) (r_types (dec_r d))).2 (dec_r d))) d).
Proof.
  intros He Ha Hr Hn Hne. rewrite Decode_array. psimpl. rewrite He.
  destruct (onR_skips _ _ (ReadTypeDescr_skips (TArray len et)) d (lenTok 64 n ++ rest) He Ha Hr) as [x Hx].
  rewrite (bind_step _ _ _ _ _ Hx).
  erewrite bind_step; [| eapply (onR_reads _ _ _ (readLen_reads n Hn) _ rest); simpl; try done].
  simpl. rewrite (proj2 (Z.eqb_neq _ _) Hne). unfold latch, onR. done.
Qed.
End decode_errors.

(** ** What [Decode] returns has the requested type *)
Section decode_type.
Context `{FloatFormat} `{Unmarshaler}.

Lemma decodeN_length et m d xs d' : decodeN et m d = Some (xs, d') → length xs = m.
Proof.
  revert d xs. induction m as [|m IH]; intros d xs Hd; simpl in Hd.
  - by ret_inv Hd.
  - bind_inv Hd. bind_inv Hd. ret_inv Hd. simpl. f_equal. by eapply IH.
Qed.

Lemma decodeAll_types fts d xs d' :
  Forall (λ t, ∀ d v d', Decode t d = Some (v, d') → type_of v = t) fts →
  decodeAll fts d = Some (xs, d') → map type_of xs = fts.
Proof.
  intros Hfts. revert d xs. induction Hfts as [|t fts Ht Hfts IH]; intros d xs Hd; simpl in Hd.
  - by ret_inv Hd.
  - bind_inv Hd. bind_inv Hd. ret_inv Hd. simpl. f_equal; [by eapply Ht | by eapply IH].
Qed.

(** Whatever the input, a [Decode] of type [t] that returns gives a value
    of type [t] (the zero value of [t] when an error is latched). *)
Lemma Decode_type_of t d v d' : Decode t d = Some (v, d') → type_of v = t.
Proof.
  revert d v d'. induction t as [k|n fts IH|et IH|len et IH|kt et IHk IHe|n u IH]
    using typ_nested_ind; intros d v d' Hd.
  1: { cbn [Decode] in Hd. rewrite bind_get in Hd. destruct (r_err (dec_r d)).
    { ret_inv Hd. by destruct k. }
    destruct k; unfold fmap, prog_fmap in Hd; bind_inv Hd;
      try (destruct x; cbv beta iota in Hd); try (bind_inv Hd); try (ret_inv Hd); try done. }
  all: first [rewrite Decode_struct in Hd | rewrite Decode_slice in Hd | rewrite Decode_array in Hd
             | rewrite Decode_map in Hd | rewrite Decode_custom in Hd];
    rewrite bind_get in Hd; (destruct (r_err (dec_r d)); [ret_inv Hd; lazymatch goal with |- _ = ?t => exact (type_of_zero_value t) end|]).
  - bind_inv Hd. bind_inv Hd. ret_inv Hd. simpl. f_equal. by eapply decodeAll_types.
  - do 3 bind_inv Hd. destruct (_ <? 0); [done|]. bind_inv Hd. by ret_inv Hd.
  - do 2 bind_inv Hd. destruct (_ =? _).
    + bind_inv Hd. ret_inv Hd. simpl. f_equal. by eapply decodeN_length.
    + bind_inv Hd. ret_inv Hd. exact (type_of_zero_value (TArray len et)).
  - do 4 bind_inv Hd. destruct (_ <? 0); [done|]. bind_inv Hd. by ret_inv Hd.
  - bind_inv Hd. destruct x. by ret_inv Hd.
Qed.

End decode_type.

(** C20: The decoder's reader is never given a profile: whatever the source,
    the reader of [NewDecoder] has [r.arch = 0] (the detection in
    [ReadHeader] is commented out), so [readLen] reads every length with
    the 64-bit conversion, also in a 32-bit archive. *)
Theorem NewDecoder_arch src d : NewDecoder src = Some d → r_arch (dec_r d) = 0.
Proof.
  unfold NewDecoder. destruct (ReadHeader (NewRBuffer src)) as [[h r]|] eqn:E; [|done].
  intros [= <-]. exact (proj1 (ReadHeader_follows _ _ _ E)).
Qed.
