(* ===== verification/Header.v ===== *)
(** The header protocol: the bytes [writeHeader] emits (the magic
    signature as a string token, then the header's two fields) and what
    [ReadHeader] makes of them: the header back from a whole stream,
    [ErrInvalidHeader] from every truncation of the fields after the magic,
    and [ErrNotBoost] from a signature that does not match. *)

From S2P Require Import Prelude Strconv Value Arch RBuffer WBuffer Encoder.

(** The magic signature token and the header fields, as written. *)
Definition magicTok : list byte :=
  Strconv.FormatUint 22 ++ space :: magicHeaderSignature ++ [space].

Definition hdrToks (h : Header) : list byte :=
  Strconv.FormatUint (hdrVersion h) ++ space :: Strconv.FormatUint (hdrFlags h) ++ [space].

Definition hdr_ok (h : Header) : bool := inU 16 (hdrVersion h) && inU 32 (hdrFlags h).

Lemma magic_length : Z.of_nat (length magicHeaderSignature) = 22.
Proof. reflexivity. Qed.

Lemma Header_UnmarshalBoost_ok r h rest :
  r_err r = None → r_r r = Some (hdrToks h ++ rest) → hdr_ok h = true →
  Header_UnmarshalBoost r = Some ((h, None), set_r (Some rest) r).
Proof.
  intros He Hr Hh. apply andb_true_iff in Hh as [Hv Hf].
  apply inU_spec in Hv, Hf. unfold Header_UnmarshalBoost, hdrToks in *.
  rewrite <- app_assoc in Hr. simpl in Hr.
  unfold ReadU16. rewrite bind_assoc.
  run_step (ReadU64_token r _ _ He Hr ltac:(unfold Strconv.maxUint64; lia)). psimpl.
  unfold ReadU32. rewrite bind_assoc, <- app_assoc. cbn [app].
  run_step (ReadU64_token (set_r (Some (Strconv.FormatUint (hdrFlags h) ++ space :: rest)) r) _ rest
              He eq_refl ltac:(unfold Strconv.maxUint64; lia)).
  psimpl. unfold Err. psimpl. simpl. rewrite He, !wrapU_id by lia. by destruct h.
Qed.

(** The magic token ends the string's payload with one delimiter. *)
Lemma magicTok_app x :
  magicTok ++ x =
  Strconv.FormatUint (Z.of_nat (length magicHeaderSignature)) ++ space :: magicHeaderSignature ++ space :: x.
Proof. unfold magicTok. rewrite magic_length, <- !app_assoc. reflexivity. Qed.

Lemma magic_len_fits (a : Arch) :
  if a =? 32 then Z.of_nat (length magicHeaderSignature) < 2 ^ 32
  else Z.of_nat (length magicHeaderSignature) < 2 ^ 63.
Proof. rewrite magic_length. by destruct (a =? 32). Qed.

Lemma magic_nonempty : magicHeaderSignature ≠ [].
Proof. done. Qed.

(** After the signature has been read, the header fields decide. *)
Lemma ReadHeader_after_magic r r1 :
  r_err r = None → is_Some (r_r r) → ReadString r = Some (magicHeaderSignature, r1) → r_err r1 = None →
  ReadHeader r = (x ← Header_UnmarshalBoost;
                  e ← Err;
                  match e with
                  | Some _ => setErr (Some ErrInvalidHeader);; mret x.1
                  | None => mret x.1
                  end) r1.
Proof.
  intros He [inp Hr] Hs He1. unfold ReadHeader. psimpl. rewrite Hr, unlessErr_ok by done.
  run_step Hs. psimpl. rewrite He1. rewrite decide_False by auto.
  unfold mbind, prog_bind. destruct (Header_UnmarshalBoost r1) as [[[h e] r2]|]; done.
Qed.

(** A stream that begins with the magic signature token followed by
    the two header fields yields that header, with no error and the rest
    of the stream left to read. *)
Theorem ReadHeader_ok r h rest :
  r_err r = None → r_r r = Some (magicTok ++ hdrToks h ++ rest) → hdr_ok h = true →
  ReadHeader r = Some (h, set_r (Some rest) r).
Proof.
  intros He Hr Hh. rewrite magicTok_app in Hr.
  pose proof (ReadString_token r _ _ He Hr magic_nonempty (magic_len_fits _)) as Hs.
  rewrite (ReadHeader_after_magic r _ He ltac:(by rewrite Hr) Hs He).
  run_step (Header_UnmarshalBoost_ok (set_r (Some (hdrToks h ++ rest)) r) h rest He eq_refl Hh).
  psimpl. by rewrite He.
Qed.

Lemma Header_UnmarshalBoost_truncated r h p k :
  r_err r = None → r_r r = Some p → k ≠ [] → p ++ k = hdrToks h → hdr_ok h = true →
  ∃ x r', Header_UnmarshalBoost r = Some (x, r') ∧ r_err r' = Some ErrUnexpectedEOF.
Proof.
  intros He Hr Hk Hpk Hh. apply andb_true_iff in Hh as [Hv Hf]. apply inU_spec in Hv.
  unfold hdrToks, Header_UnmarshalBoost, ReadU16, ReadU32 in *. rewrite !bind_assoc.
  destruct (app_eq_token p k _ _ (proj1 (Strconv.FormatUint_token _)) Hpk) as [Hp | (q & -> & Hq)].
  - run_step (ReadU64_unterminated r p He Hr Hp). psimpl.
    estep ReadU64_sticky. psimpl. eauto.
  - destruct (app_eq_token q k _ [] (proj1 (Strconv.FormatUint_token _)) Hq) as [Hq' | (q' & -> & Hq')].
    + run_step (ReadU64_token r _ q He Hr ltac:(unfold Strconv.maxUint64; lia)). psimpl.
      estep ReadU64_unterminated. psimpl. eauto.
    + by apply app_eq_nil in Hq' as [_ ->].
Qed.

(** C6: Header truncation: a stream holding the magic signature and then
    any proper prefix of [␣ version ␣ flags ␣] (cut before the signature's
    own delimiter, or anywhere in the two header fields) makes [ReadHeader]
    fail with [ErrInvalidHeader], never with a bare end-of-stream error. *)
Theorem ReadHeader_truncated r h p k :
  r_err r = None → hdr_ok h = true → k ≠ [] → p ++ k = space :: hdrToks h →
  r_r r = Some (Strconv.FormatUint 22 ++ space :: magicHeaderSignature ++ p) →
  ∃ h' r', ReadHeader r = Some (h', r') ∧ r_err r' = Some ErrInvalidHeader.
Proof.
  intros He Hh Hk Hpk Hr. rewrite <- magic_length in Hr.
  assert (∃ q k', ReadString r = Some (magicHeaderSignature, set_r (Some q) r) ∧
                  q ++ k' = hdrToks h ∧ k' ≠ []) as (q & k' & Hs & Hq & Hk').
  { destruct p as [|b p'].
    - exists [], (hdrToks h). split; [|split; [done | unfold hdrToks; by destruct (Strconv.FormatUint (hdrVersion h))]].
      apply ReadString_eof; [done | by rewrite app_nil_r in Hr | done | apply magic_len_fits].
    - injection Hpk as -> Hpk. exists p', k. split; [|done].
      apply ReadString_token; [done | done | done | apply magic_len_fits]. }
  rewrite (ReadHeader_after_magic r _ He ltac:(by rewrite Hr) Hs He).
  destruct (Header_UnmarshalBoost_truncated (set_r (Some q) r) h q k' He eq_refl Hk' Hq Hh)
    as (x & r2 & Hu & He2).
  run_step Hu. psimpl. rewrite He2. psimpl. eauto.
Qed.

(** C7: A well-formed string token that is not the magic signature makes
    [ReadHeader] fail with [ErrNotBoost] and return the zero header. *)
Theorem ReadHeader_mismatch r s rest :
  r_err r = None →
  r_r r = Some (Strconv.FormatUint (Z.of_nat (length s)) ++ space :: s ++ space :: rest) →
  s ≠ [] → s ≠ magicHeaderSignature → Z.of_nat (length s) < 2 ^ 32 →
  ReadHeader r = Some (zeroHdr, set_err (Some ErrNotBoost) (set_r (Some rest) r)).
Proof.
  intros He Hr Hne Hm Hl. unfold ReadHeader. psimpl. rewrite Hr, unlessErr_ok by done.
  estep ReadString_token; [|by destruct (r_arch r =? 32); lia]. psimpl. rewrite He.
  rewrite decide_True by done. by psimpl.
Qed.


(** An absent ([nil]) or empty source is not a Boost archive. *)
Lemma ReadHeader_nil : ReadHeader (NewRBuffer None) = Some (zeroHdr, set_err (Some ErrNotBoost) (NewRBuffer None)).
Proof. reflexivity. Qed.

Lemma ReadHeader_empty :
  ReadHeader (NewRBuffer (Some [])) =
  Some (zeroHdr, set_err (Some ErrNotBoost) (NewRBuffer (Some []))).
Proof. reflexivity. Qed.

(** ** The writer's side *)
Lemma Header_MarshalBoost_ok h w :
  writing w → Header_MarshalBoost h w = Some (None, set_out (w_out w ++ hdrToks h) w).
Proof.
  intros Hw. unfold Header_MarshalBoost, WriteU16, WriteU32, WriteU64.
  rewrite bind_write by done. rewrite bind_write by auto with boost.
  unfold WErr. psimpl. simpl. destruct Hw as [-> _]. unfold hdrToks. by rewrite <- !app_assoc.
Qed.

(** [writeHeader] on an encoder whose writer can write: the default
    header replaces a zero one, and the magic token and the header fields
    are appended. *)
Lemma writeHeader_ok e :
  writing (enc_w e) →
  let h := if decide (enc_Header e = zeroHdr) then archHeader (w_arch (enc_w e)) else enc_Header e in
  writeHeader e =
    Some ((), mkEncoder (set_out (w_out (enc_w e) ++ magicTok ++ hdrToks h) (enc_w e)) h (enc_hdr e)).
Proof.
  intros Hw h. unfold writeHeader. psimpl.
  assert (Hm : ∀ e', enc_w e' = enc_w e →
    (onW (WriteString magicHeaderSignature) ≫= (λ _, e'' ← get; onW (WriteHeader (enc_Header e'')))) e' =
      Some ((), mkEncoder (set_out (w_out (enc_w e) ++ magicTok ++ hdrToks (enc_Header e')) (enc_w e))
                          (enc_Header e') (enc_hdr e'))).
  { intros [w' h' d'] He'. simpl in He'. subst w'.
    assert (Hl : Z.of_nat (length magicHeaderSignature) < (if w_arch (enc_w e) =? 32 then 2 ^ 32 else 2 ^ 64))
      by (rewrite magic_length; by destruct (w_arch (enc_w e) =? 32)).
    run_step (onW_step _ (mkEncoder (enc_w e) h' d') _ _ (WriteString_ok magicHeaderSignature (enc_w e) Hw Hl)).
    psimpl. unfold onW, WriteHeader. psimpl. simpl.
    estep Header_MarshalBoost_ok; try (auto with boost).
    psimpl. unfold magicTok. simpl. by rewrite <- !app_assoc. }
  subst h. destruct (decide (enc_Header e = zeroHdr)); psimpl; by rewrite Hm.
Qed.

(** C4: Header round trip: the header a fresh encoder writes (the magic
    signature and its profile's default header) is read back by
    [ReadHeader] from a fresh reader, with no error, leaving exactly the
    bytes that follow. *)
Theorem header_roundtrip (arch : Arch) rest :
  ∃ e', writeHeader (newEncoder None arch) = Some ((), e') ∧
        ReadHeader (NewRBuffer (Some (w_out (enc_w e') ++ rest))) =
          Some (archHeader arch, NewRBuffer (Some rest)).
Proof.
  eexists. split; [apply writeHeader_ok; done|].
  simpl. by apply ReadHeader_ok.
Qed.

(** ** The header protocol on concrete input *)
Lemma ReadHeader_truncated_witness :
  ∃ h' r', ReadHeader (NewRBuffer (Some (bytes "22 serialization::archive 1"))) = Some (h', r') ∧
           r_err r' = Some ErrInvalidHeader.
Proof.
  apply (ReadHeader_truncated _ (archHeader Arch64) (bytes " 1") (bytes "7 0 "));
    [reflexivity | reflexivity | discriminate | reflexivity | reflexivity].
Defined.

Lemma ReadHeader_mismatch_witness :
  ReadHeader (NewRBuffer (Some (bytes "5 boost "))) =
    Some (zeroHdr, set_err (Some ErrNotBoost) (set_r (Some []) (NewRBuffer (Some (bytes "5 boost "))))).
Proof.
  apply (ReadHeader_mismatch _ (bytes "boost") []);
    [reflexivity | reflexivity | discriminate | discriminate | simpl; lia].
Defined.
