(* ===== verification/Codec.v ===== *)
(** The codec end to end: what a fresh encoder writes for a sequence of
    values ([EncodeSeq], one [Encode] call per value as the tests make
    them), what [NewDecoder] and one [Decode] per type read back, and the
    round trip between them.  The archive is the header (written by the
    first [Encode]) followed by the values' wire bytes, with the registry
    shared along the sequence, so a type's descriptor is written and read
    once per stream. *)

From S2P Require Import Prelude Strconv Value Arch Wire RBuffer ReadWire WBuffer Encoder Decoder Header.

(** ** The archive of a sequence of values *)
Section codec.
Context {FF : FloatFormat} {FL : FloatFormatLaws} {MA : Marshaler} {UM : Unmarshaler} {CW : CustomWire}.

(** [for _, v := range vs { enc.Encode(v) }] *)
Definition EncodeSeq (vs : list value) : E (list (option error)) := mapM Encode vs.

(** The bytes of a stream: the magic signature and the profile's header,
    then the values. *)
Definition archive (a : Arch) (vs : list value) : list byte :=
  magicTok ++ hdrToks (archHeader a) ++ (wireAll a vs newRegistry).1.

(** The encoder after its header is written. *)
Definition headerDone (a : Arch) : Encoder :=
  mkEncoder (set_out (magicTok ++ hdrToks (archHeader a)) (newWBuffer None a)) (archHeader a) true.

Lemma onceWriteHeader_fresh a : onceWriteHeader (newEncoder None a) = Some ((), headerDone a).
Proof.
  unfold onceWriteHeader. psimpl. simpl. psimpl.
  rewrite (writeHeader_ok (set_hdr_done (newEncoder None a))); done.
Qed.

(** [enc.hdr.Do] runs once: after it, [Encode] on the first state and on
    the state with the header written are the same. *)
Lemma Encode_after_header v e e' :
  onceWriteHeader e = Some ((), e') → enc_hdr e' = true → Encode v e = Encode v e'.
Proof.
  intros H1 H2. pose proof (onceWriteHeader_done e' H2) as Hd.
  destruct v; cbn [Encode]; by rewrite (bind_step _ _ _ _ _ H1), (bind_step _ _ _ _ _ Hd).
Qed.

Lemma mapM_cons_prog {St A B} (f : A → prog St B) x xs :
  mapM f (x :: xs) = (y ← f x; ys ← mapM f xs; mret (y :: ys)).
Proof. reflexivity. Qed.

Lemma codec_ok_enc_result v : codec_ok v = true → enc_result v = None.
Proof.
  destruct v; simpl; try done; intros Hok; bool_hyps;
    match goal with Hs : is_Some _ |- _ => destruct Hs as [? ->] end; done.
Qed.
End codec.

Section streams.
Context {FF : FloatFormat} {FL : FloatFormatLaws} {MA : Marshaler} {UM : Unmarshaler} {CW : CustomWire}
  {ML : MarshalerLaws} {UL : UnmarshalerLaws}.

Lemma EncodeSeq_wire vs e :
  enc_hdr e = true → writing (enc_w e) →
  EncodeSeq vs e = Some (enc_result <$> vs, set_w (wapply (wireAll (w_arch (enc_w e)) vs) (enc_w e)) e).
Proof.
  unfold EncodeSeq. revert e. induction vs as [|v vs IH]; intros e Hh Hw.
  - by rewrite wireAll_nil, set_w_wapply_nil.
  - rewrite mapM_cons_prog, (bind_step _ _ _ _ _ (Encode_wire v e Hh Hw)). psimpl.
    erewrite bind_step; [| apply IH; [done | simpl; auto with boost]].
    rewrite wireAll_cons. by psimpl.
Qed.

(** The first [Encode] writes the header; the rest of the stream is as if
    it had been written before. *)
Lemma EncodeSeq_fresh a v vs :
  EncodeSeq (v :: vs) (newEncoder None a) = EncodeSeq (v :: vs) (headerDone a).
Proof.
  unfold EncodeSeq. rewrite !mapM_cons_prog. apply bind_cong_head.
  apply Encode_after_header; [apply onceWriteHeader_fresh | done].
Qed.

(** The encoder at the end of a stream of [vs]. *)
Definition encodedAll (a : Arch) (vs : list value) : Encoder :=
  set_w (wapply (wireAll a vs) (enc_w (headerDone a))) (headerDone a).

Lemma EncodeSeq_stream a v vs :
  EncodeSeq (v :: vs) (newEncoder None a) = Some (enc_result <$> v :: vs, encodedAll a (v :: vs)).
Proof. rewrite EncodeSeq_fresh. by apply EncodeSeq_wire. Qed.

Lemma encodedAll_out a vs : w_out (enc_w (encodedAll a vs)) = archive a vs ∧ w_err (enc_w (encodedAll a vs)) = None.
Proof.
  unfold encodedAll, archive, wapply. change (w_types (enc_w (headerDone a))) with newRegistry.
  destruct (wireAll a vs newRegistry) as [bs reg]. split; [| done].
  simpl. unfold magicTok, hdrToks. rewrite <- ?app_assoc. reflexivity.
Qed.

(** The decoder made on an archive has read its header. *)
Lemma NewDecoder_archive vs rest :
  NewDecoder (Some (archive Arch64 vs ++ rest)) =
    Some (mkDecoder (NewRBuffer (Some ((wireAll Arch64 vs newRegistry).1 ++ rest))) (archHeader Arch64)).
Proof.
  unfold NewDecoder, archive. rewrite <- !app_assoc.
  by rewrite (ReadHeader_ok (NewRBuffer (Some _)) (archHeader Arch64) _ eq_refl eq_refl eq_refl).
Qed.

Lemma decodeAll_archive vs rest :
  Forall (λ v, codec_ok v = true) vs →
  let d := mkDecoder (NewRBuffer (Some ((wireAll Arch64 vs newRegistry).1 ++ rest))) (archHeader Arch64) in
  decodeAll (map type_of vs) d =
    Some (vs, set_dr (radv rest (wireAll Arch64 vs newRegistry).2 (dec_r d)) d).
Proof.
  intros Hok d. apply (decodeAll_reads vs); [| done | done | done].
  rewrite Forall_forall in *. intros v Hv. by apply Decode_wire, Hok.
Qed.
End streams.

(** ** The codec's contract *)
Section contract.
Context {FF : FloatFormat} {FL : FloatFormatLaws} {MA : Marshaler} {UM : Unmarshaler} {CW : CustomWire}
  {ML : MarshalerLaws} {UL : UnmarshalerLaws}.

(** C2: Refinement of the encoder by the wire format: a fresh encoder that
    encodes [v :: vs] one value at a time writes exactly the archive of
    the sequence (the header, then each value's wire bytes, descriptors
    only at each type's first occurrence), returns [enc_result] for each
    value and has no error. *)
Theorem Encode_stream a v vs :
  ∃ e', EncodeSeq (v :: vs) (newEncoder None a) = Some (enc_result <$> v :: vs, e') ∧
        w_out (enc_w e') = archive a (v :: vs) ∧ w_err (enc_w e') = None.
Proof. exists (encodedAll a (v :: vs)). split; [apply EncodeSeq_stream | apply encodedAll_out]. Qed.

(** C3: The decoder reads an archive back: [NewDecoder] on the archive of
    values the codec supports, followed by any bytes, reads the header,
    and one [Decode] per value's type returns the values, with no error,
    leaving exactly the following bytes. *)
Theorem Decode_stream vs rest :
  Forall (λ v, codec_ok v = true) vs →
  ∃ d d', NewDecoder (Some (archive Arch64 vs ++ rest)) = Some d ∧ dec_hdr d = archHeader Arch64 ∧
          decodeAll (map type_of vs) d = Some (vs, d') ∧
          r_err (dec_r d') = None ∧ r_r (dec_r d') = Some rest.
Proof.
  intros Hok. rewrite NewDecoder_archive. do 2 eexists. split; [done|]. split; [done|].
  split; [by apply decodeAll_archive | done].
Qed.

Lemma enc_results_none vs : Forall (λ v, codec_ok v = true) vs → enc_result <$> vs = (λ _, None) <$> vs.
Proof. intros Hok. apply list_fmap_ext. intros i x Hx. apply codec_ok_enc_result. by eapply (Forall_lookup_1 _ _ _ _ Hok). Qed.

(** C1: Round trip: encoding values the codec supports with [NewEncoder] on a
    buffer succeeds for each of them, and [NewDecoder] on the buffer's
    bytes, followed by any bytes, decodes the same values, in order, with
    no error, leaving exactly the following bytes. *)
Theorem codec_roundtrip v vs rest :
  Forall (λ v, codec_ok v = true) (v :: vs) →
  ∃ e' d d', EncodeSeq (v :: vs) (NewEncoder None) = Some ((λ _, None) <$> v :: vs, e') ∧
             NewDecoder (Some (w_out (enc_w e') ++ rest)) = Some d ∧
             decodeAll (map type_of (v :: vs)) d = Some (v :: vs, d') ∧
             r_err (dec_r d') = None ∧ r_r (dec_r d') = Some rest.
Proof.
  intros Hok. exists (encodedAll Arch64 (v :: vs)).
  rewrite (proj1 (encodedAll_out _ _)), NewDecoder_archive.
  do 2 eexists. split; [rewrite <- enc_results_none by done; apply EncodeSeq_stream|].
  split; [done|]. split; [by apply decodeAll_archive | done].
Qed.
End contract.

(** ** Profiles, descriptor elision, empty strings *)
Section more.
Context {FF : FloatFormat} {FL : FloatFormatLaws} {MA : Marshaler} {UM : Unmarshaler} {CW : CustomWire}
  {ML : MarshalerLaws} {UL : UnmarshalerLaws}.

Lemma wireAll_width vs reg :
  Forall (λ v, lens_lt (2 ^ 32) v = true) vs → wireAll Arch32 vs reg = wireAll Arch64 vs reg.
Proof.
  intros Hl. apply wireAll_ext. apply (Forall_weaken _ _ _ Hl). intros v Hv r. by apply wire_width.
Qed.

(** C5: Round trip in the 32-bit profile: values whose lengths are below
    [2^32] encoded by [Arch32.NewEncoder] are decoded back by
    [NewDecoder], whose reader reads lengths at 64-bit width; the two
    widths write the same decimal tokens. *)
Theorem codec_roundtrip32 v vs rest :
  Forall (λ v, codec_ok v = true ∧ lens_lt (2 ^ 32) v = true) (v :: vs) →
  ∃ e' d d', EncodeSeq (v :: vs) (newEncoder None Arch32) = Some ((λ _, None) <$> v :: vs, e') ∧
             NewDecoder (Some (w_out (enc_w e') ++ rest)) = Some d ∧
             decodeAll (map type_of (v :: vs)) d = Some (v :: vs, d') ∧
             r_err (dec_r d') = None ∧ r_r (dec_r d') = Some rest.
Proof.
  intros Hok. apply Forall_and_split in Hok as [Hok Hl]. exists (encodedAll Arch32 (v :: vs)).
  assert (Ha : archive Arch32 (v :: vs) = archive Arch64 (v :: vs)).
  { unfold archive. by rewrite wireAll_width. }
  rewrite (proj1 (encodedAll_out _ _)), Ha, NewDecoder_archive.
  do 2 eexists. split; [rewrite <- enc_results_none by done; apply EncodeSeq_stream|].
  split; [done|]. split; [by apply decodeAll_archive | done].
Qed.

(** C18: Descriptor elision: encoding the same struct twice in a row writes
    its type descriptor before the first copy only; the second copy is
    its fields' bytes alone. *)
Theorem descriptor_elision n fs e F :
  enc_hdr e = true → writing (enc_w e) →
  w_types (enc_w e) !! TStruct n (map type_of fs) = None →
  (∀ reg, wireAll (w_arch (enc_w e)) fs reg = (F, reg)) →
  ∃ e', EncodeSeq [VStruct n fs; VStruct n fs] e = Some ([None; None], e') ∧
        w_out (enc_w e') = w_out (enc_w e) ++ (utok 0 ++ utok 0 ++ F) ++ F.
Proof.
  intros Hh Hw Ht HF. rewrite EncodeSeq_wire by done. eexists. split; [done|].
  rewrite !wireAll_cons, !wire_struct, wireAll_nil. unfold wapply, wcat, descW, emit. simpl.
  rewrite Ht, !HF. simpl. rewrite lookup_insert_eq, HF. simpl.
  by rewrite app_nil_r.
Qed.
End more.

