(* ===== verification/Progress.v ===== *)
(** Progress of the reader, and what it gives the decoder: every token
    read ([readUntilDelimiter] and the numeric, boolean, float and complex
    reads built on it), started with no error on a source, returns, and
    either consumes at least one byte (the delimiter) or latches an error.
    So a program that keeps calling [dec.Decode] on a finite stream, as
    [TestDecoder] does, gets an error after at most one call more than
    the stream has bytes: it cannot read values forever.  The properties
    are stated for any state that holds a reader ([ReadWire.RView]), so
    that the reader's facts lift to the decoder through [onR]. *)

From S2P Require Import Prelude Strconv Value Arch Wire RBuffer ReadWire Decoder.

Create HintDb progress.

Section progress.
Context {St : Type} `{RView St}.

(** [m] returns on a reader that has a source, never lengthens the
    source and never clears an error. *)
Definition stays {A} (m : prog St A) : Prop :=
  ∀ s inp, r_r (rview s) = Some inp →
    ∃ a s' inp', m s = Some (a, s') ∧ r_r (rview s') = Some inp' ∧ (length inp' ≤ length inp)%nat ∧
                 (is_Some (r_err (rview s)) → is_Some (r_err (rview s'))).

(** From a reader with no error, [m] returns and either latches an error
    or consumes at least one byte. *)
Definition advances {A} (m : prog St A) : Prop :=
  ∀ s inp, r_err (rview s) = None → r_r (rview s) = Some inp →
    ∃ a s' inp', m s = Some (a, s') ∧ r_r (rview s') = Some inp' ∧ (length inp' ≤ length inp)%nat ∧
                 (is_Some (r_err (rview s')) ∨ (length inp' < length inp)%nat).

Lemma stays_ret {A} (a : A) : stays (mret a).
Proof. intros s inp Hr. exists a, s, inp. auto. Qed.

Lemma stays_bind {A B} (m : prog St A) (k : A → prog St B) :
  stays m → (∀ a, stays (k a)) → stays (m ≫= k).
Proof.
  intros Hm Hk s inp Hr.
  destruct (Hm s inp Hr) as (a & s1 & inp1 & E1 & Hr1 & Hl1 & He1).
  destruct (Hk a s1 inp1 Hr1) as (b & s2 & inp2 & E2 & Hr2 & Hl2 & He2).
  exists b, s2, inp2. run_step E1. repeat split; auto. lia.
Qed.

Lemma advances_bind {A B} (m : prog St A) (k : A → prog St B) :
  advances m → (∀ a, stays (k a)) → advances (m ≫= k).
Proof.
  intros Hm Hk s inp He Hr.
  destruct (Hm s inp He Hr) as (a & s1 & inp1 & E1 & Hr1 & Hl1 & Hp1).
  destruct (Hk a s1 inp1 Hr1) as (b & s2 & inp2 & E2 & Hr2 & Hl2 & He2).
  exists b, s2, inp2. run_step E1. repeat split; auto; [lia|].
  destruct Hp1; [left; auto | right; lia].
Qed.

Lemma advances_fmap {A B} (f : A → B) (m : prog St A) : advances m → advances (f <$> m).
Proof. intros Hm. apply advances_bind; [done | intros a; apply stays_ret]. Qed.

(** A computation that advances and does nothing once an error is set
    stays. *)
Lemma advances_stays {A} (m : prog St A) :
  advances m → (∀ s e, r_err (rview s) = Some e → ∃ a, m s = Some (a, s)) → stays m.
Proof.
  intros Ha Hs s inp Hr. destruct (r_err (rview s)) as [e|] eqn:He.
  - destruct (Hs s e He) as [a E]. exists a, s, inp. rewrite He. auto.
  - destruct (Ha s inp He Hr) as (a & s' & inp' & E & Hr' & Hl & _).
    exists a, s', inp'. repeat split; auto. by intros [].
Qed.

(** The sticky check in front of a computation. *)
Lemma advances_checked {A} (z : A) (k : prog St A) (err : St → option error) :
  (∀ s, err s = r_err (rview s)) → advances k →
  advances (s ← get; match err s with Some _ => mret z | None => k end).
Proof. intros Herr Hk s inp He Hr. rewrite bind_get, Herr, He. by apply Hk. Qed.
End progress.

#[export] Hint Resolve stays_ret stays_bind advances_bind advances_fmap : progress.

(** ** Lifting the reader's progress to a state that holds it *)
Lemma stays_liftR {St} `{RView St} {A} (m : R A) : stays m → stays (liftR (St:=St) m).
Proof.
  intros Hm s inp Hr. destruct (Hm (rview s) inp Hr) as (a & r' & inp' & E & Hr' & Hl & He).
  exists a, (rset r' s), inp'. unfold liftR. rewrite E, rview_rset. auto.
Qed.

Lemma advances_liftR {St} `{RView St} {A} (m : R A) : advances m → advances (liftR (St:=St) m).
Proof.
  intros Hm s inp He0 Hr. destruct (Hm (rview s) inp He0 Hr) as (a & r' & inp' & E & Hr' & Hl & Hp).
  exists a, (rset r' s), inp'. unfold liftR. rewrite E, rview_rset. auto.
Qed.

Lemma advances_onR {A} (m : R A) : advances m → advances (St:=Decoder) (onR m).
Proof. exact (advances_liftR (St:=Decoder) m). Qed.

#[export] Hint Resolve advances_onR : progress.

(** ** The reader's token reads *)
Lemma delimLoop_progress inp ret :
  match delimLoop inp ret with
  | (_, n, rest) => (n = 0 ∧ rest = []) ∨ (n = 2 ∧ (length rest < length inp)%nat)
  end.
Proof.
  revert ret. induction inp as [|b inp IH]; intros ret; simpl; [by left|].
  case_decide; [right; split; [done | lia]|].
  specialize (IH (ret ++ [b])). destruct (delimLoop inp (ret ++ [b])) as [[t n] rest].
  destruct IH as [IH | [? ?]]; [by left | right; split; [done | lia]].
Qed.

Lemma unlessErr_advances {A} (d : A) (k : R A) : advances k → advances (unlessErr d k).
Proof. intros Hk r inp He Hr. rewrite (unlessErr_ok _ _ _ He). by apply Hk. Qed.

Lemma unlessErr_stays {A} (d : A) (k : R A) : stays k → stays (unlessErr d k).
Proof.
  intros Hk r inp Hr. destruct (r_err r) as [e|] eqn:He.
  - exists d, r, inp. rewrite (unlessErr_err _ _ _ e He). auto.
  - rewrite (unlessErr_ok _ _ _ He). by apply Hk.
Qed.

Lemma setErr_stays e : stays (setErr (Some e)).
Proof. intros r inp Hr. exists (), (set_err (Some e) r), inp. simpl. auto. Qed.

#[export] Hint Resolve unlessErr_advances unlessErr_stays setErr_stays : progress.

(** [readUntilDelimiter] consumes the token and its delimiter, or stops
    at the end of the source with [ErrUnexpectedEOF]. *)
Lemma readUntilDelimiter_advances : advances readUntilDelimiter.
Proof.
  apply unlessErr_advances. intros r inp He Hr. simpl in *. rewrite bind_get, Hr.
  pose proof (delimLoop_progress inp []) as Hp.
  destruct (delimLoop inp []) as [[t n] rest]. psimpl.
  destruct Hp as [[-> ->] | [-> Hl]]; simpl.
  - eexists _, _, []. split; [reflexivity|]. simpl. split; [done | split; [lia | by left]].
  - eexists _, _, rest. split; [reflexivity|]. simpl. split; [done | split; [lia | by right]].
Qed.

(** The numeric and float reads: a token, then its parse. *)
Lemma parsed_advances (parse : list byte → Z * option error) :
  advances (unlessErr 0 (s ← readUntilDelimiter; unlessErr 0 (
              let '(v, e) := parse s in
              match e with Some err => setErr (Some err);; mret 0 | None => mret v end))).
Proof.
  apply unlessErr_advances, advances_bind; [apply readUntilDelimiter_advances|].
  intros s. apply unlessErr_stays. destruct (parse s) as [v [err|]]; auto with progress.
Qed.

Lemma parsed_stays (parse : list byte → Z * option error) :
  stays (unlessErr 0 (s ← readUntilDelimiter; unlessErr 0 (
           let '(v, e) := parse s in
           match e with Some err => setErr (Some err);; mret 0 | None => mret v end))).
Proof.
  apply advances_stays; [apply parsed_advances|]. intros r e He. exists 0. by apply unlessErr_err with e.
Qed.

Lemma ReadU64_advances : advances ReadU64.
Proof. exact (parsed_advances Strconv.ParseUint). Qed.
Lemma ReadI64_advances : advances ReadI64.
Proof. exact (parsed_advances Strconv.ParseInt). Qed.
Lemma ReadF64_advances `{FloatFormat} : advances ReadF64.
Proof. exact (parsed_advances ParseFloat). Qed.
Lemma ReadF64_stays `{FloatFormat} : stays ReadF64.
Proof. exact (parsed_stays ParseFloat). Qed.
#[export] Hint Resolve ReadU64_advances ReadI64_advances ReadF64_advances ReadF64_stays : progress.

Lemma ReadF32_stays `{FloatFormat} : stays ReadF32.
Proof. unfold ReadF32. auto with progress. Qed.
Lemma ReadF32_advances `{FloatFormat} : advances ReadF32.
Proof. unfold ReadF32. auto with progress. Qed.
#[export] Hint Resolve ReadF32_stays ReadF32_advances : progress.

(** ** The decoder *)

(** The kinds whose value is one or two number tokens. *)
Definition token_kind (k : Kind.t) : bool :=
  match k with
  | Kind.Bool | Kind.Int8 | Kind.Int16 | Kind.Int32 | Kind.Int64
  | Kind.Uint8 | Kind.Uint16 | Kind.Uint32 | Kind.Uint64
  | Kind.Float32 | Kind.Float64 | Kind.Complex64 | Kind.Complex128 => true
  | _ => false
  end.

Section decoder.
Context `{FloatFormat} `{Unmarshaler}.

Lemma Decode_token_advances k : token_kind k = true → advances (St:=Decoder) (Decode (TKind k)).
Proof.
  intros Hk. cbn [Decode]. apply (advances_checked (St:=Decoder) _ _ (λ d, r_err (dec_r d))); [done|].
  destruct k; try discriminate;
    unfold ReadBool, ReadU8, ReadU16, ReadU32, ReadI8, ReadI16, ReadI32, ReadC64, ReadC128;
    try (apply advances_bind; [| intros []; apply stays_ret]); auto 8 with progress.
Qed.

Lemma decodeAll_cons t ts : decodeAll (t :: ts) = (x ← Decode t; xs ← decodeAll ts; mret (x :: xs)).
Proof. reflexivity. Qed.

(** [n] calls of [Decode] of a token kind, from a decoder whose error is
    set or whose source is shorter than [n], end with an error set. *)
Lemma decodeAll_repeat_exhausts k n :
  token_kind k = true →
  ∀ d inp, r_r (dec_r d) = Some inp → is_Some (r_err (dec_r d)) ∨ (length inp < n)%nat →
  ∃ vs d', decodeAll (repeat (TKind k) n) d = Some (vs, d') ∧ is_Some (r_err (dec_r d')).
Proof.
  intros Hk. induction n as [|n IH]; intros d inp Hr Hc.
  - exists [], d. split; [done|]. destruct Hc; [done | lia].
  - cbn [repeat]. rewrite decodeAll_cons. destruct (r_err (dec_r d)) as [e|] eqn:He.
    + run_step (Decode_err (TKind k) d e He).
      destruct (IH d inp Hr) as (vs & d' & E & Hd'); [rewrite He; by left|].
      run_step E. by exists (zero_value (TKind k) :: vs), d'.
    + destruct (Decode_token_advances k Hk d inp He Hr) as (v & d1 & inp1 & E1 & Hr1 & Hl & Hp).
      run_step E1. destruct (IH d1 inp1 Hr1) as (vs & d' & E & Hd');
        [destruct Hp; [by left | right; destruct Hc as [[? ?]|]; [discriminate | lia]]|].
      run_step E. by exists (v :: vs), d'.
Qed.
End decoder.

Section liveness.
Context `{FloatFormat} `{Unmarshaler}.

(** C17: A decoding loop on a finite stream ends: whatever the bytes left,
    [dec.Decode] of a number, boolean, float or complex kind called one
    time more than there are bytes leaves an error latched in the reader,
    so every later [dec.Decode] returns it; each call before that returned
    (no panic). *)
Theorem Decode_exhausts k d inp :
  token_kind k = true → r_r (dec_r d) = Some inp →
  ∃ vs d', decodeAll (repeat (TKind k) (S (length inp))) d = Some (vs, d') ∧ is_Some (r_err (dec_r d')).
Proof. intros Hk Hr. apply (decodeAll_repeat_exhausts k _ Hk d inp Hr). right. lia. Qed.
End liveness.
