(* ===== verification/Session.v ===== *)
(** A session of the encoder: the encoder used for a whole archive, one
    [Encode] call after another, as the tests use it.  The session is the
    step relation [estep] (one [enc.Encode(v)] call, of any value) closed
    under stdpp's [rtc], and its invariant is proved by rule induction:
    on a sink that fails every write, the encoder stays in the one state
    where the sink's error is latched. *)

From S2P Require Import Prelude Strconv Value Arch Wire WBuffer Encoder.

Section sessions.
Context {FF : FloatFormat} {MA : Marshaler}.

(** One call [enc.Encode(v)], for any value. *)
Inductive estep : relation Encoder :=
| estep_encode v e r e' : Encode v e = Some (r, e') → estep e e'.

(** The two states of an encoder on a sink that fails every write. *)
Lemma failing_Encode err a e v :
  e = newEncoder (Some err) a ∨ e = failedHeader err a →
  Encode v e = Some (Some err, failedHeader err a).
Proof.
  intros [-> | ->]; apply Encode_checked; intros k.
  - by rewrite (bind_step _ _ _ _ _ (onceWriteHeader_fail err a)).
  - by apply checked_err.
Qed.

(** C8: An encoder on a sink that fails every write, used for any
    sequence of [Encode] calls, is the fresh encoder or the encoder whose
    header write latched the sink's error; every further call, of any
    value, returns that error and leaves it there, and no byte ever
    reaches the output. *)
Theorem failing_sink_session err a e :
  rtc estep (newEncoder (Some err) a) e →
  (e = newEncoder (Some err) a ∨ e = failedHeader err a) ∧ w_out (enc_w e) = [] ∧
  ∀ v, Encode v e = Some (Some err, failedHeader err a).
Proof.
  intros H.
  assert (Hi : e = newEncoder (Some err) a ∨ e = failedHeader err a).
  { apply (rtc_ind_r (R:=estep) (λ e, e = newEncoder (Some err) a ∨ e = failedHeader err a)
                     (newEncoder (Some err) a)); [by left | | exact H].
    intros e1 e2 _ [v e1' r e2' E] IH. right.
    rewrite (failing_Encode err a e1' v IH) in E. by simplify_eq. }
  split_and!; [done | by destruct Hi as [-> | ->] | intros v; by apply failing_Encode].
Qed.
End sessions.
