(* ===== verification/Fixtures.v ===== *)
(** The fixtures of the package's tests, as concrete instances of the
    development: the [manimal] type of [decoder_test.go] with its own
    [MarshalBoost]/[UnmarshalBoost] (the interfaces' contract is proved
    for it), the values of [typeTestCases] ([encoder_test.go]), the
    archives of [TestInvalidArchive], and the runs of the tests
    ([TestEncoder] in its four profiles, [TestInvalidArray],
    [TestEncoderInvalidType], [TestEncoderError]).  Floats use the decimal
    stand-in of [Strconv.DecimalFloat]. *)

From S2P Require Import Prelude Strconv Value Arch Wire RBuffer ReadWire WBuffer Encoder Decoder Header Codec Progress Session.

#[local] Existing Instances DecimalFloat.format DecimalFloat.laws.

(** ** [type animal] and [type manimal] (decoder_test.go) *)
Definition animalType : typ := TStruct "animal" [TKind Kind.String; TKind Kind.Int16; TKind Kind.Int8].
Definition manimalU : typ := TStruct "manimal" [TKind Kind.String; TKind Kind.Int16; TKind Kind.Int8].

Definition animal (name : string) (legs tails : Z) : value :=
  VStruct "animal" [VString (bytes name); VInt Kind.Int16 legs; VInt Kind.Int8 tails].
Definition manimal (name : string) (legs tails : Z) : value :=
  VCustom "manimal" manimalU (VStruct "manimal" [VString (bytes name); VInt Kind.Int16 legs; VInt Kind.Int8 tails]).

(** The fields [a.name], [a.legs], [a.tails] of a [manimal]. *)
Definition manimal_fields (x : value) : option (list byte * Z * Z) :=
  match x with
  | VStruct _ [VString nm; VInt _ legs; VInt _ tails] => Some (nm, legs, tails)
  | _ => None
  end.

(** [func (a manimal) MarshalBoost(w *txtser.WBuffer) error]: the
    descriptor of [animal] (the same type as [animal]), then the fields. *)
Definition manimal_MarshalBoost (x : value) : W (option error) :=
  match manimal_fields x with
  | Some (nm, legs, tails) =>
      WriteTypeDescr animalType;; WriteString nm;; WriteI16 legs;; WriteI8 tails;; WErr
  | None => WErr
  end.

(** [func (a *manimal) UnmarshalBoost(r *txtser.RBuffer) error] *)
Definition manimal_UnmarshalBoost : R (value * option error) :=
  ReadTypeDescr animalType;;
  nm ← ReadString; legs ← ReadI16; tails ← ReadI8; e ← Err;
  mret (VStruct "manimal" [VString nm; VInt Kind.Int16 legs; VInt Kind.Int8 tails], e).

#[export] Instance test_marshaler : Marshaler := {|
  MarshalBoost n x := if decide (n = "manimal") then manimal_MarshalBoost x else WErr
|}.

#[export] Instance test_unmarshaler : Unmarshaler := {|
  UnmarshalBoost n u := if decide (n = "manimal") then manimal_UnmarshalBoost
                        else e ← Err; mret (zero_value u, e)
|}.

(** What [manimal]'s methods write, and the values they read back. *)
Definition manimal_wire (a : Arch) (x : value) : wgen :=
  match manimal_fields x with
  | Some (nm, legs, tails) =>
      wcat (descW animalType) (emit (lenTok a (Z.of_nat (length nm)) ++ tok nm ++ itok legs ++ itok tails))
  | None => emit []
  end.

Definition manimal_ok (x : value) : bool :=
  match x with
  | VStruct n [VString nm; VInt k1 legs; VInt k2 tails] =>
      bool_decide (n = "manimal") && bool_decide (k1 = Kind.Int16) && bool_decide (k2 = Kind.Int8) &&
      bool_decide (nm ≠ []) && len_ok nm && inS 16 legs && inS 8 tails
  | _ => false
  end.

Lemma manimal_ok_inv x :
  manimal_ok x = true →
  ∃ nm legs tails, x = VStruct "manimal" [VString nm; VInt Kind.Int16 legs; VInt Kind.Int8 tails] ∧
    nm ≠ [] ∧ Z.of_nat (length nm) < 2 ^ 63 ∧ inS 16 legs = true ∧ inS 8 tails = true.
Proof. unfold manimal_ok, len_ok. intros Hx. repeat case_match; try done. bool_hyps. subst. eauto 10. Qed.

#[export] Instance test_custom : CustomWire := {|
  cwire a n x := if decide (n = "manimal") then manimal_wire a x else emit [];
  custom_ok n u x := bool_decide (n = "manimal") && bool_decide (u = manimalU) && manimal_ok x
|}.

(** [manimal]'s methods keep the interfaces' contract. *)
Lemma WErr_writing w : writing w → WErr w = Some (None, wapply (emit []) w).
Proof. intros [He _]. unfold WErr. psimpl. by rewrite He, wapply_nil. Qed.

#[export] Instance test_marshaler_laws : MarshalerLaws.
Proof.
  constructor. intros n x w Hw. simpl. destruct (decide (n = "manimal")); [|by apply WErr_writing].
  unfold manimal_MarshalBoost, manimal_wire. destruct (manimal_fields x) as [[[nm legs] tails]|];
    [|by apply WErr_writing].
  rewrite (bind_step _ _ _ _ _ (WriteTypeDescr_wire _ _ Hw)).
  pose proof (writing_wapply (descW animalType) _ Hw) as Hw1.
  rewrite (bind_step _ _ _ _ _ (WriteString_wire _ _ Hw1)).
  unfold WriteI16, WriteI8. do 2 (erewrite bind_step; [| apply WriteI64_wire; auto with boost]).
  rewrite WErr_writing, wapply_nil by auto with boost.
  rewrite w_arch_wapply, wapply_wcat. by repeat rewrite wapply_emit_app, wapply_wcat.
Qed.

#[export] Instance test_unmarshaler_laws : UnmarshalerLaws.
Proof.
  constructor. intros n u x Hok. simpl in Hok. bool_hyps. subst n u.
  destruct (manimal_ok_inv x ltac:(done)) as (nm & legs & tails & -> & Hne & Hl & Hlegs & Htails).
  simpl. unfold manimal_UnmarshalBoost, manimal_wire. simpl.
  eapply reads_ext'.
  { eapply skips_bind; [apply ReadTypeDescr_skips|].
    eapply reads_bind; [by apply ReadString_reads|].
    eapply reads_bind; [apply ReadI_reads_in; [lia | done]|].
    eapply reads_bind; [apply ReadI_reads_in; [lia | done]|].
    eapply reads_bind; [apply Err_reads | apply reads_ret]. }
  wgen_eq.
Qed.

(** ** [typeTestCases] (encoder_test.go)

    Floats are given by their IEEE bit patterns: [float32(2.2)],
    [3.3], [complex(float32(2), float32(3))], [complex(4, 9)].  The map's
    entries are in the order of its literal (Go's is unspecified). *)
Definition u8s (xs : list Z) : list value := VUint Kind.Uint8 <$> xs.
Definition strs (xs : list string) : list value := (λ s, VString (bytes s)) <$> xs.

Definition typeTestCases : list value := [
  VBool false; VBool true;
  VInt Kind.Int8 17; VInt Kind.Int16 8738; VInt Kind.Int32 858993459; VInt Kind.Int64 4919131752989213764;
  VUint Kind.Uint8 255; VUint Kind.Uint16 8738; VUint Kind.Uint32 53687091; VUint Kind.Uint64 307445734561825860;
  VFloat32 1074580685; VFloat64 4614613358185178726;
  VComplex64 1073741824 1077936128; VComplex128 4616189618054758400 4621256167635550208;
  VArray (TKind Kind.Uint8) (u8s [17; 34; 51]);
  VSlice (TKind Kind.Uint8) (u8s [17; 34; 51; 255]);
  VSlice (TKind Kind.Uint8) (u8s [104; 101; 108; 108; 111]);
  VString (bytes "hello");
  VMap (TKind Kind.String) (TKind Kind.String)
    [(VString (bytes "eins"), VString (bytes "un")); (VString (bytes "zwei"), VString (bytes "deux"));
     (VString (bytes "drei"), VString (bytes "trois"))];
  animal "pet" 4 1;
  manimal "pet" 4 1;
  VSlice (TKind Kind.String) (strs ["s1"; "s2"; "s3"]);
  VSlice (TCustom "manimal" manimalU) [manimal "tiger" 4 1; manimal "monkey" 4 1]
].

Lemma typeTestCases_ok : Forall (λ v, codec_ok v = true) typeTestCases.
Proof. apply Forall_forall. intros v Hv. repeat (destruct Hv as [<-|Hv]; [vm_compute; reflexivity|]). inversion Hv. Qed.

(** ** The tests' runs *)

(** One [TestEncoder] case: [arch.NewEncoder(buf)], [enc.Encode] of each
    value, [NewDecoder] on the buffer's bytes and [dec.Decode] of each
    value's type; the values read and the decoder's error. *)
Definition TestEncoder_run (a : Arch) (vs : list value) : option (list value * option error) :=
  match EncodeSeq vs (newEncoder None a) with
  | Some (_, e') =>
      match NewDecoder (Some (w_out (enc_w e'))) with
      | Some d =>
          match decodeAll (type_of <$> vs) d with
          | Some (xs, d') => Some (xs, r_err (dec_r d'))
          | None => None
          end
      | None => None
      end
  | None => None
  end.

(** [TestEncoder]: every case round-trips, one value per stream, in the
    profiles [0], [ArchHW], [Arch32] and [Arch64]. *)
Lemma TestEncoder_all :
  Forall (λ a, Forall (λ v, TestEncoder_run a [v] = Some ([v], None)) typeTestCases)
    [0; ArchHW; Arch32; Arch64].
Proof. repeat constructor; vm_compute; reflexivity. Qed.

(** The same values in one stream, as [TestEncoderCompatWithBoost64]
    writes them: descriptors are shared along the stream. *)
Lemma TestEncoder_stream : TestEncoder_run Arch64 typeTestCases = Some (typeTestCases, None).
Proof. vm_compute. reflexivity. Qed.

(** [TestRBufferReader]: [r.Read(got)] with [len(got) = len(want)] on a
    reader over [want]; the test passes when the error is [nil] and
    [got[:n]] is [want]. *)
Definition TestRBufferReader_run (want : list byte) : bool :=
  match Read (Z.of_nat (length want)) (NewRBuffer (Some want)) with
  | Some ((got, n, None), _) => bool_decide (take (Z.to_nat n) got = want)
  | _ => false
  end.

(** The test passes for every [want], not only for ["hello"]. *)
Lemma TestRBufferReader_passes want : TestRBufferReader_run want = true.
Proof.
  unfold TestRBufferReader_run. rewrite (Read_full _ (NewRBuffer (Some want)) want eq_refl eq_refl), Z.leb_refl.
  rewrite !Nat2Z.id, take_ge by lia. rewrite take_ge by lia. by apply bool_decide_eq_true.
Qed.

(** [TestWBufferWriter]: [w.Write(want)] on a buffer; the test passes
    when the error is [nil] and the buffer holds [want]. *)
Definition TestWBufferWriter_run (want : list byte) : bool :=
  match WWrite want (NewWBuffer None) with
  | Some ((_, None), w) => bool_decide (w_out w = want)
  | _ => false
  end.

Lemma TestWBufferWriter_passes want : TestWBufferWriter_run want = true.
Proof. unfold TestWBufferWriter_run, WWrite, write, wunlessErr. prog_simpl. by apply bool_decide_eq_true. Qed.

(** [TestEncoderError]: [Encode] of each case on an encoder whose sink
    ([errWriter]) fails every write with [io.ErrUnexpectedEOF]; each case
    passes when [Encode] returns an error. *)
Definition TestEncoderError_run (tcs : list value) : bool :=
  forallb (λ v, match Encode v (NewEncoder (Some ErrUnexpectedEOF)) with
                | Some (Some _, _) => true
                | _ => false
                end) tcs.

(** It passes for every table of cases, [typeTestCases] among them. *)
Lemma TestEncoderError_passes tcs : TestEncoderError_run tcs = true.
Proof.
  apply forallb_forall. intros v _.
  by rewrite (failing_Encode ErrUnexpectedEOF Arch64 _ v (or_introl eq_refl)).
Qed.

(** [TestInvalidArchive]: its archives and the errors the test expects.
    The archives are the binary layout of the portable archive (little
    endian lengths); the text reader sees no delimiter in them. *)
Definition b8 (z : Z) : byte := default Byte.x00 (Byte.of_N (Z.to_N z)).
Definition raw (zs : list Z) : list byte := b8 <$> zs.

Definition magic64 : list byte := raw [22; 0; 0; 0; 0; 0; 0; 0] ++ bytes "serialization::archive".
Definition magic32 : list byte := raw [22; 0; 0; 0] ++ bytes "serialization::archive".

Definition invalidArchives : list (list byte * error) := [
  ([], ErrNotBoost);
  (bytes "boost", ErrNotBoost);
  (raw [5; 0; 0; 0; 0; 0; 0; 0] ++ bytes "boost", ErrNotBoost);
  (magic64, ErrInvalidHeader);
  (magic64 ++ raw [0], ErrInvalidHeader);
  (magic64 ++ raw [1; 0], ErrInvalidHeader);
  (magic64 ++ raw [1; 0; 0], ErrInvalidHeader);
  (magic64 ++ raw [1; 0; 1; 0; 0; 0; 0; 0; 0; 0; 1], ErrUnexpectedEOF);
  (raw [5; 0; 0; 0] ++ bytes "boost", ErrNotBoost);
  (magic32, ErrInvalidHeader);
  (magic32 ++ raw [0], ErrInvalidHeader);
  (magic32 ++ raw [1; 0], ErrInvalidHeader);
  (magic32 ++ raw [1; 0; 0], ErrInvalidHeader);
  (magic32 ++ raw [1; 0; 1; 0; 0; 0; 0; 0; 0; 0; 1], ErrUnexpectedEOF)
].

(** The header read of each archive latches [ErrNotBoost]. *)
Lemma invalidArchives_header :
  Forall (λ '(src, _), ∃ d, NewDecoder (Some src) = Some d ∧ r_err (dec_r d) = Some ErrNotBoost)
    invalidArchives.
Proof. repeat constructor; eexists; split; vm_compute; reflexivity. Qed.

(** [TestInvalidArchive] against the text reader: every archive of the
    test, the binary ones included, makes the header read fail with
    [ErrNotBoost], and [dec.Decode] into any type returns [ErrNotBoost];
    the test expects [ErrInvalidHeader] or [io.ErrUnexpectedEOF] for ten
    of the fourteen. *)
Lemma invalid_archives_not_boost t :
  Forall (λ '(src, _), ∃ d, NewDecoder (Some src) = Some d ∧
                            DecodeValue t d = Some ((zero_value t, Some ErrNotBoost), d)) invalidArchives.
Proof.
  apply (Forall_weaken _ _ _ invalidArchives_header). intros [src err] (d & Hd & He).
  exists d. split; [done|]. unfold DecodeValue. rewrite (bind_step _ _ _ _ _ (Decode_err t d _ He)).
  psimpl. by rewrite He.
Qed.


(** [TestInvalidArray]: [[3]int32{1, 2, 3}] decoded into a [[2]int32]; the
    encoder reports no error and the decoder [ErrInvalidArrayLen]. *)
Lemma TestInvalidArray_run :
  (EncodeSeq [VArray (TKind Kind.Int32) [VInt Kind.Int32 1; VInt Kind.Int32 2; VInt Kind.Int32 3]]
     (NewEncoder None) ≫= λ '(errs, e'),
     NewDecoder (Some (w_out (enc_w e'))) ≫= λ d,
     (λ r, (errs, r.1)) <$> DecodeValue (TArray 2 (TKind Kind.Int32)) d) =
  Some ([None], (zero_value (TArray 2 (TKind Kind.Int32)), Some ErrInvalidArrayLen)).
Proof. vm_compute. reflexivity. Qed.

(** [TestEncoderInvalidType]: a Go [int] is not encoded. *)
Lemma TestEncoderInvalidType_run :
  fst <$> Encode (VInt Kind.Int 42) (NewEncoder None) = Some (Some ErrTypeNotSupported).
Proof. vm_compute. reflexivity. Qed.
(** ** Instances of the properties on the fixtures *)
Lemma codec_roundtrip_witness :
  ∃ e' d d', EncodeSeq typeTestCases (NewEncoder None) = Some ((λ _, None) <$> typeTestCases, e') ∧
             NewDecoder (Some (w_out (enc_w e') ++ bytes "7 ")) = Some d ∧
             decodeAll (map type_of typeTestCases) d = Some (typeTestCases, d') ∧
             r_err (dec_r d') = None ∧ r_r (dec_r d') = Some (bytes "7 ").
Proof.
  apply (codec_roundtrip (VBool false) (tail typeTestCases) (bytes "7 ")).
  apply Forall_forall. intros v Hv. repeat (destruct Hv as [<-|Hv]; [vm_compute; reflexivity|]). inversion Hv.
Defined.

Lemma Encode_stream_witness :
  ∃ e', EncodeSeq typeTestCases (newEncoder None Arch64) = Some (enc_result <$> typeTestCases, e') ∧
        w_out (enc_w e') = archive Arch64 typeTestCases ∧ w_err (enc_w e') = None.
Proof. apply (Encode_stream Arch64 (VBool false) (tail typeTestCases)). Defined.

Lemma Decode_stream_witness :
  ∃ d d', NewDecoder (Some (archive Arch64 typeTestCases ++ [])) = Some d ∧ dec_hdr d = archHeader Arch64 ∧
          decodeAll (map type_of typeTestCases) d = Some (typeTestCases, d') ∧
          r_err (dec_r d') = None ∧ r_r (dec_r d') = Some [].
Proof.
  apply (Decode_stream typeTestCases []).
  apply Forall_forall. intros v Hv. repeat (destruct Hv as [<-|Hv]; [vm_compute; reflexivity|]). inversion Hv.
Defined.

Lemma codec_roundtrip32_witness :
  ∃ e' d d', EncodeSeq (take 20 typeTestCases) (newEncoder None Arch32) =
               Some ((λ _, None) <$> take 20 typeTestCases, e') ∧
             NewDecoder (Some (w_out (enc_w e') ++ [])) = Some d ∧
             decodeAll (map type_of (take 20 typeTestCases)) d = Some (take 20 typeTestCases, d') ∧
             r_err (dec_r d') = None ∧ r_r (dec_r d') = Some [].
Proof.
  apply (codec_roundtrip32 (VBool false) (tail (take 20 typeTestCases)) []).
  apply Forall_forall. intros v Hv. repeat (destruct Hv as [<-|Hv]; [vm_compute; split; reflexivity|]). inversion Hv.
Defined.

(** A decoder on a source, before its header is read. *)
Definition dsrc (s : list byte) : Decoder := mkDecoder (NewRBuffer (Some s)) zeroHdr.

Lemma Encode_sticky_witness :
  Encode (animal "pet" 4 1) (failedHeader ErrUnexpectedEOF Arch64) =
    Some (Some ErrUnexpectedEOF, failedHeader ErrUnexpectedEOF Arch64).
Proof. apply Encode_sticky; reflexivity. Defined.

Lemma DecodeValue_sticky_witness :
  ∃ d, NewDecoder (Some (bytes "boost")) = Some d ∧
       DecodeValue animalType d = Some ((zero_value animalType, Some ErrNotBoost), d).
Proof. eexists. split; [vm_compute; reflexivity|]. apply DecodeValue_sticky. vm_compute. reflexivity. Defined.

Lemma descriptor_elision_witness :
  ∃ e', EncodeSeq [animal "pet" 4 1; animal "pet" 4 1] (headerDone Arch64) = Some ([None; None], e') ∧
        w_out (enc_w e') = w_out (enc_w (headerDone Arch64)) ++ (utok 0 ++ utok 0 ++ bytes "3 pet 4 1 ") ++
                           bytes "3 pet 4 1 ".
Proof.
  apply (descriptor_elision "animal" [VString (bytes "pet"); VInt Kind.Int16 4; VInt Kind.Int8 1]);
    [reflexivity | split; reflexivity | reflexivity | intros reg; reflexivity].
Defined.

Lemma Decode_array_len_witness :
  Decode (TArray 2 (TKind Kind.Int32)) (dsrc (bytes "0 0 3 1 2 3 ")) =
    Some (zero_value (TArray 2 (TKind Kind.Int32)),
          set_dr (set_err (Some ErrInvalidArrayLen)
                   (radv (bytes "1 2 3 ") (descW (TArray 2 (TKind Kind.Int32)) ∅).2
                     (dec_r (dsrc (bytes "0 0 3 1 2 3 "))))) (dsrc (bytes "0 0 3 1 2 3 "))).
Proof.
  apply (Decode_array_len 2 (TKind Kind.Int32) (dsrc (bytes "0 0 3 1 2 3 ")) 3 (bytes "1 2 3 "));
    [reflexivity | discriminate | reflexivity | lia | discriminate].
Defined.

Lemma Encode_unsupported_field_witness :
  Encode (VInt Kind.Int 42) (headerDone Arch64) = Some (Some ErrTypeNotSupported, headerDone Arch64) ∧
  Encode (VStruct "config" [VInt Kind.Int 42]) (headerDone Arch64) =
    Some (None, set_w (wapply (descW (TStruct "config" [TKind Kind.Int])) (enc_w (headerDone Arch64)))
                      (headerDone Arch64)).
Proof. apply Encode_unsupported_field; [reflexivity | split; reflexivity]. Defined.

Lemma Decode_exhausts_witness :
  ∃ vs d', decodeAll (repeat (TKind Kind.Uint64) (S (length (bytes "1 2 ")))) (dsrc (bytes "1 2 ")) =
             Some (vs, d') ∧ is_Some (r_err (dec_r d')).
Proof. apply (Decode_exhausts Kind.Uint64 (dsrc (bytes "1 2 ")) (bytes "1 2 ")); reflexivity. Defined.

Lemma NewDecoder_arch_witness :
  ∃ d, NewDecoder (Some (archive Arch32 [VString (bytes "ab")])) = Some d ∧ r_arch (dec_r d) = 0.
Proof.
  destruct (NewDecoder (Some (archive Arch32 [VString (bytes "ab")]))) as [d|] eqn:E;
    [| vm_compute in E; discriminate].
  exists d. split; [reflexivity | exact (NewDecoder_arch _ _ E)].
Defined.

Lemma failing_sink_session_witness :
  rtc estep (newEncoder (Some EOF) Arch64) (failedHeader EOF Arch64) ∧
  ((failedHeader EOF Arch64 = newEncoder (Some EOF) Arch64 ∨ failedHeader EOF Arch64 = failedHeader EOF Arch64) ∧
   w_out (enc_w (failedHeader EOF Arch64)) = [] ∧
   ∀ v, Encode v (failedHeader EOF Arch64) = Some (Some EOF, failedHeader EOF Arch64)).
Proof.
  assert (Hs : rtc estep (newEncoder (Some EOF) Arch64) (failedHeader EOF Arch64)).
  { apply rtc_once. apply (estep_encode (VBool true) _ (Some EOF)). vm_compute. reflexivity. }
  split; [exact Hs | apply failing_sink_session; exact Hs].
Defined.

